(** * Personal word lists (pwl.c): trie, matcher and edit distance

    A shallow embedding of [src/pwl.c] of enchant.  C strings are
    modelled as [string] (a list of bytes, the terminating NUL left
    implicit), pointers to trie nodes as [option EnchantTrie], GLib hash
    tables with string keys either as association lists (where the code
    iterates over them) or as [gmap string string] (where it only looks
    keys up). *)

From Stdlib Require Import ZArith Ascii String.
From stdpp Require Import base option list sorting strings gmap.

Set Warnings "-register-all".
Local Open Scope Z_scope.

(** ** C strings *)

Module CStr.

(** [s + n] for a pointer into a NUL-terminated buffer that is followed
    by zero bytes: moving past the end yields the empty string. *)
Fixpoint drop (n : nat) (s : string) : string :=
  match n, s with
  | O, _ => s
  | S n', EmptyString => EmptyString
  | S n', String _ s' => drop n' s'
  end.

(** [g_strndup (s, n)]: at most [n] bytes, stopping at the NUL. *)
Fixpoint take (n : nat) (s : string) : string :=
  match n, s with
  | O, _ => EmptyString
  | S n', EmptyString => EmptyString
  | S n', String c s' => String c (take n' s')
  end.

(** [strlen]. *)
Definition len (s : string) : nat := String.length s.

(** [strcmp (a, b) == 0]. *)
Definition eqb (a b : string) : bool := bool_decide (a = b).

(** [strncmp (a, b, n) == 0]: the first [n] bytes agree, a NUL on both
    sides ending the comparison early. *)
Definition neqb (a b : string) (n : nat) : bool :=
  bool_decide (take n a = take n b).

(** [s[0] == 0]: the pointer is at the terminator. *)
Definition at_end (s : string) : bool :=
  match s with
  | EmptyString => true
  | String _ _ => false
  end.

(** The byte under a pointer, 0 at the terminator. *)
Definition head (s : string) : N :=
  match s with
  | EmptyString => 0%N
  | String c _ => N_of_ascii c
  end.

(** Removes the last [n] bytes (the path buffer of the matcher). *)
Definition chop (n : nat) (s : string) : string :=
  take (len s - n) s.

End CStr.

(** ** GLib UTF-8 primitives that do not depend on Unicode tables *)

(** [g_utf8_skip]: the length of a UTF-8 sequence from its first byte. *)
Definition g_utf8_skip (b : N) : nat :=
  if (b <? 192)%N then 1%nat
  else if (b <? 224)%N then 2%nat
  else if (b <? 240)%N then 3%nat
  else if (b <? 248)%N then 4%nat
  else if (b <? 252)%N then 5%nat
  else if (b <? 254)%N then 6%nat
  else 1%nat.

(** [g_utf8_next_char (p) - p]. *)
Definition utf8_next_len (s : string) : nat := g_utf8_skip (CStr.head s).

(** ** Hash tables keyed by strings whose entries are iterated *)

Module HT.
Section Table.
Context {V : Type}.

Fixpoint lookup (k : string) (t : list (string * V)) : option V :=
  match t with
  | [] => None
  | (k', v) :: r => if CStr.eqb k k' then Some v else lookup k r
  end.

(** [g_hash_table_insert]: an existing key keeps its slot. *)
Fixpoint insert (k : string) (v : V) (t : list (string * V))
  : list (string * V) :=
  match t with
  | [] => [(k, v)]
  | (k', v') :: r =>
      if CStr.eqb k k' then (k', v) :: r else (k', v') :: insert k v r
  end.

Fixpoint remove (k : string) (t : list (string * V))
  : list (string * V) :=
  match t with
  | [] => []
  | (k', v') :: r =>
      if CStr.eqb k k' then r else (k', v') :: remove k r
  end.

Definition size (t : list (string * V)) : nat := length t.
End Table.
End HT.

(** ** The trie *)

(** [struct str_enchant_trie], together with the distinguished static
    node [n_EOSTrie].  A null [EnchantTrie*] is [None]. *)
Inductive EnchantTrie : Type :=
| EOSTrie
| Node (value : option string)
       (subtries : option (list (string * EnchantTrie))).

Definition trie_value (t : EnchantTrie) : option string :=
  match t with
  | EOSTrie => None
  | Node v _ => v
  end.

Definition trie_subtries (t : EnchantTrie)
  : option (list (string * EnchantTrie)) :=
  match t with
  | EOSTrie => None
  | Node _ s => s
  end.

(** The three shapes the specification names. *)
Definition Leaf (v : string) : EnchantTrie := Node (Some v) None.
Definition Branch (l : list (string * EnchantTrie)) : EnchantTrie :=
  Node None (Some l).
Definition EmptyNode : EnchantTrie := Node None None.

(** *** enchant_trie_insert *)

Section InsertBody.
(** The recursive call on a subtrie. *)
Variable insert : option EnchantTrie → string → EnchantTrie.

(** The arm with [trie->value == NULL] and [trie->subtries != NULL],
    as a function of the table. *)
Definition insert_into_subtries (subs : list (string * EnchantTrie))
    (word : string) : list (string * EnchantTrie) :=
  if CStr.at_end word then
    (* Mark end-of-string with special node *)
    HT.insert EmptyString EOSTrie subs
  else
    let nxtCh := utf8_next_len word in
    let tmpWord := CStr.take nxtCh word in
    let subtrie := HT.lookup tmpWord subs in
    let subtrie := insert subtrie (CStr.drop nxtCh word) in
    HT.insert tmpWord subtrie subs.

Definition trie_insert_body (trie : option EnchantTrie) (word : string)
  : EnchantTrie :=
  let t := match trie with None => EmptyNode | Some t => t end in
  match trie_value t with
  | None =>
      match trie_subtries t with
      | None => Node (Some word) None
      | Some subs => Node None (Some (insert_into_subtries subs word))
      end
  | Some tmpWord =>
      (* Create new hash table for subtries, and reinsert *)
      let subs := insert_into_subtries [] tmpWord in
      let subs := insert_into_subtries subs word in
      Node None (Some subs)
  end.
End InsertBody.

(** The recursion follows the word: every recursive call receives
    [word + nxtCh].  [n] bounds the depth; two more than [strlen word] is
    enough (lemma [trie_insert_n_enough]). *)
Fixpoint trie_insert_n (n : nat) (trie : option EnchantTrie) (word : string)
  : EnchantTrie :=
  match n with
  | O => EmptyNode
  | S n' => trie_insert_body (trie_insert_n n') trie word
  end.

Definition enchant_trie_insert (trie : option EnchantTrie) (word : string)
  : EnchantTrie :=
  trie_insert_n (S (S (CStr.len word))) trie word.

(** *** enchant_trie_remove *)

(** The test [g_hash_table_size (trie->subtries) == 1] and what follows
    it: a single child with a value is propagated up. *)
Definition trie_collapse (subs : list (string * EnchantTrie)) : EnchantTrie :=
  match subs with
  | [(key, subtrie)] =>
      match trie_value subtrie with
      | Some v => Node (Some (key ++ v)%string) None
      | None => Node None (Some subs)
      end
  | _ => Node None (Some subs)
  end.

Section RemoveBody.
(** The recursive call on a subtrie; [None] stands for undefined
    behaviour. *)
Variable remove : EnchantTrie → string → option EnchantTrie.

Definition trie_remove_body (trie : EnchantTrie) (word : string)
  : option EnchantTrie :=
  match trie_value trie with
  | None =>
      match trie_subtries trie with
      | None => Some trie
      | Some subs =>
          subs' ←
            (if CStr.at_end word then
               (* End-of-string is marked with special node *)
               Some (HT.remove EmptyString subs)
             else
               let nxtCh := utf8_next_len word in
               let tmpWord := CStr.take nxtCh word in
               (* a null [subtrie] is dereferenced below *)
               subtrie ← HT.lookup tmpWord subs;
               subtrie' ← remove subtrie (CStr.drop nxtCh word);
               Some
                 (match trie_subtries subtrie', trie_value subtrie' with
                  | None, None => HT.remove tmpWord subs
                  | _, _ => HT.insert tmpWord subtrie' subs
                  end));
          Some (trie_collapse subs')
      end
  | Some v =>
      if CStr.eqb v word then Some (Node None (trie_subtries trie))
      else Some trie
  end.
End RemoveBody.

Fixpoint trie_remove_n (n : nat) (trie : EnchantTrie) (word : string)
  : option EnchantTrie :=
  match n with
  | O => None
  | S n' => trie_remove_body (trie_remove_n n') trie word
  end.

(** A null trie is left alone. *)
Definition enchant_trie_remove (trie : option EnchantTrie) (word : string)
  : option (option EnchantTrie) :=
  match trie with
  | None => Some None
  | Some t => Some <$> trie_remove_n (S (CStr.len word)) t word
  end.

(** The same on a node. *)
Definition trie_remove (trie : EnchantTrie) (word : string)
  : option EnchantTrie :=
  trie_remove_n (S (CStr.len word)) trie word.

(** ** Decoding UTF-8 *)

(** The scalar encoded by one UTF-8 sequence: the payload bits of the
    lead byte followed by six bits of every continuation byte. *)
Definition utf8_lead_payload (b : Z) : Z :=
  if b <? 128 then b
  else if b <? 224 then Z.land b 31
  else if b <? 240 then Z.land b 15
  else if b <? 248 then Z.land b 7
  else if b <? 252 then Z.land b 3
  else Z.land b 1.

Fixpoint utf8_continue (wc : Z) (s : string) : Z :=
  match s with
  | EmptyString => wc
  | String c s' =>
      utf8_continue
        (Z.lor (Z.shiftl wc 6) (Z.land (Z.of_N (N_of_ascii c)) 63)) s'
  end.

(** [g_utf8_get_char] on a pointer to a well-formed sequence. *)
Definition g_utf8_get_char (s : string) : Z :=
  match CStr.take (utf8_next_len s) s with
  | EmptyString => 0
  | String c rest =>
      utf8_continue (utf8_lead_payload (Z.of_N (N_of_ascii c))) rest
  end.

(** [g_utf8_to_ucs4_fast (s, -1, &len)]: the scalars of [s] in order.
    [n] bounds the number of sequences; [strlen s] is enough. *)
Fixpoint utf8_to_ucs4_n (n : nat) (s : string) : list Z :=
  match n with
  | O => []
  | S n' =>
      if CStr.at_end s then []
      else g_utf8_get_char s :: utf8_to_ucs4_n n' (CStr.drop (utf8_next_len s) s)
  end.

Definition g_utf8_to_ucs4_fast (s : string) : list Z :=
  utf8_to_ucs4_n (CStr.len s) s.

(** [g_utf8_strlen (s, -1)]. *)
Definition g_utf8_strlen (s : string) : Z :=
  Z.of_nat (length (g_utf8_to_ucs4_fast s)).

(** ** edit_dist *)

Definition MIN (a b : Z) : Z := if a <? b then a else b.

Section EditDist.
Variables word1 word2 : list Z.

Let len1 : nat := length word1.
Let len2 : nat := length word2.

(** The body of the inner loop: fills [table[i*(len2+1)+j]]. *)
Definition edit_dist_cell (table : list Z) (i j : nat) : list Z :=
  let cost :=
    if word1 !!! (i - 1)%nat =? word2 !!! (j - 1)%nat then 0 else 1 in
  let v1 := table !!! ((i - 1) * (len2 + 1) + j)%nat + 1 in
  let v1 :=
    if bool_decide (1 < i)%nat && bool_decide (1 < j)%nat
       && (word1 !!! (i - 1)%nat =? word2 !!! (j - 2)%nat)
       && (word1 !!! (i - 2)%nat =? word2 !!! (j - 1)%nat)
    then MIN v1 (table !!! ((i - 2) * (len2 + 1) + (j - 2))%nat + cost)
    else v1 in
  let v2 := table !!! (i * (len2 + 1) + (j - 1))%nat + 1 in
  let v3 := table !!! ((i - 1) * (len2 + 1) + (j - 1))%nat + cost in
  <[(i * (len2 + 1) + j)%nat := MIN (MIN v1 v2) v3]> table.

Definition edit_dist_table : list Z :=
  let table := replicate ((len1 + 1) * (len2 + 1)) 0 in
  (* Initialise outer rows of table *)
  let table :=
    foldl (λ t i, <[(i * (len2 + 1))%nat := Z.of_nat i]> t)
          table (seq 0 (len1 + 1)) in
  let table :=
    foldl (λ t i, <[i := Z.of_nat i]> t) table (seq 0 (len2 + 1)) in
  (* Fill in table in dynamic programming style *)
  foldl (λ t i, foldl (λ t j, edit_dist_cell t i j) t (seq 1 len2))
        table (seq 1 len1).

Definition edit_dist_ucs4 : Z :=
  edit_dist_table !!! (len1 * (len2 + 1) + len2)%nat.
End EditDist.

Definition edit_dist (utf8word1 utf8word2 : string) : Z :=
  edit_dist_ucs4 (g_utf8_to_ucs4_fast utf8word1)
                 (g_utf8_to_ucs4_fast utf8word2).


(** ** Unicode tables of GLib *)

(** [GUnicodeType], as far as [pwl.c] distinguishes its values: every
    category other than the three cased-letter ones falls into the
    [default] arm of the switch. *)
Inductive GUnicodeType : Type :=
| G_UNICODE_UPPERCASE_LETTER
| G_UNICODE_TITLECASE_LETTER
| G_UNICODE_LOWERCASE_LETTER
| G_UNICODE_OTHER_CATEGORY.

#[global] Instance GUnicodeType_eq_dec : EqDecision GUnicodeType.
Proof. solve_decision. Defined.

(** The GLib functions whose result depends on the Unicode character
    database.  [pwl.c] only calls them; they are an interface here. *)
Class UnicodeTables : Type := {
  (** [g_utf8_normalize (s, len, G_NORMALIZE_NFD)] *)
  g_utf8_normalize_nfd : string → string;
  g_utf8_strdown : string → string;
  g_utf8_strup : string → string;
  g_unichar_type : Z → GUnicodeType;
  g_unichar_totitle : Z → Z;
  g_unichar_to_utf8 : Z → string;
  g_utf8_validate : string → bool;
}.

(** ** The matcher *)

Inductive EnchantTrieMatcherMode : Type :=
| case_sensitive
| case_insensitive.

(** [struct str_enchant_trie_matcher].  [word] is the buffer up to its
    terminator (the bytes after it are zero), [path] the path buffer up
    to [path_pos]; the callback is passed to the functions that use it,
    [cbdata] is the object it points to. *)
Record EnchantTrieMatcher (A : Type) : Type := mkMatcher {
  num_errors : Z;
  max_errors : Z;
  word : string;
  word_pos : nat;
  path : string;
  mode : EnchantTrieMatcherMode;
  cbdata : A;
}.
Arguments mkMatcher {A}.
Arguments num_errors {A}.
Arguments max_errors {A}.
Arguments word {A}.
Arguments word_pos {A}.
Arguments path {A}.
Arguments mode {A}.
Arguments cbdata {A}.

Section MatcherFields.
Context {A : Type}.
Implicit Type m : EnchantTrieMatcher A.

Definition set_num_errors (e : Z) m :=
  mkMatcher e (max_errors m) (word m) (word_pos m) (path m) (mode m)
            (cbdata m).
Definition set_max_errors (e : Z) m :=
  mkMatcher (num_errors m) e (word m) (word_pos m) (path m) (mode m)
            (cbdata m).
Definition set_word_pos (p : nat) m :=
  mkMatcher (num_errors m) (max_errors m) (word m) p (path m) (mode m)
            (cbdata m).
Definition set_path (p : string) m :=
  mkMatcher (num_errors m) (max_errors m) (word m) (word_pos m) p (mode m)
            (cbdata m).
Definition set_cbdata (d : A) m :=
  mkMatcher (num_errors m) (max_errors m) (word m) (word_pos m) (path m)
            (mode m) d.

(** [&matcher->word[matcher->word_pos]] *)
Definition word_rest m : string := CStr.drop (word_pos m) (word m).

Definition enchant_trie_matcher_pushpath m (newchars : string) :=
  set_path (path m ++ newchars)%string m.

Definition enchant_trie_matcher_poppath m (num : nat) :=
  set_path (CStr.chop num (path m)) m.
End MatcherFields.

Section Matcher.
Context `{UnicodeTables}.
Context {A : Type}.
Implicit Type m : EnchantTrieMatcher A.

(** The callback [matcher->cbfunc]. *)
Variable cbfunc : string → EnchantTrieMatcher A → EnchantTrieMatcher A.

(** [enchant_trie_get_subtrie]: the subtrie, and the possibly replaced
    [*nxtChS]. *)
Definition enchant_trie_get_subtrie (trie : EnchantTrie) m
    (nxtChS : string) : option EnchantTrie * string :=
  match trie_subtries trie with
  | None => (None, nxtChS)
  | Some subs =>
      match HT.lookup nxtChS subs, mode m with
      | None, case_insensitive =>
          let nxtChSUp := g_utf8_strup nxtChS in
          (HT.lookup nxtChSUp subs, nxtChSUp)
      | subtrie, _ => (subtrie, nxtChS)
      end
  end.

Section Body.
(** The recursive calls of [enchant_trie_find_matches]. *)
Variable find_matches :
  option EnchantTrie → EnchantTrieMatcher A → EnchantTrieMatcher A.

Definition enchant_trie_find_matches_cb
    (key : string) (subtrie : EnchantTrie) m : EnchantTrieMatcher A :=
  let nxtChI := (word_pos m + utf8_next_len (word_rest m))%nat in
  (* Dont handle actual matches, that's already done *)
  if CStr.neqb key (word_rest m) (nxtChI - word_pos m) then m
  else
    let m := enchant_trie_matcher_pushpath m key in
    (* Match on deleting word[0] *)
    let m := find_matches (Some subtrie) m in
    (* Match on substituting word[0] *)
    let oldPos := word_pos m in
    let m := set_word_pos nxtChI m in
    let m := find_matches (Some subtrie) m in
    let m := enchant_trie_matcher_poppath m (CStr.len key) in
    (* Match on transposing word[0] and word[1] *)
    let key2 := CStr.take (nxtChI - oldPos) (CStr.drop oldPos (word m)) in
    let '(subtrie2, key2) := enchant_trie_get_subtrie subtrie m key2 in
    let m :=
      match subtrie2 with
      | None => m
      | Some subtrie2 =>
          let nxtChI := (word_pos m + utf8_next_len (word_rest m))%nat in
          if CStr.neqb key (word_rest m) (nxtChI - word_pos m) then
            let m := set_word_pos nxtChI m in
            let m := enchant_trie_matcher_pushpath m key in
            let m := enchant_trie_matcher_pushpath m key2 in
            let m := find_matches (Some subtrie2) m in
            let m := enchant_trie_matcher_poppath m (CStr.len key2) in
            enchant_trie_matcher_poppath m (CStr.len key)
          else m
      end in
    set_word_pos oldPos m.

(** [g_hash_table_foreach (subtries, enchant_trie_find_matches_cb,
    matcher)]; a null table makes GLib return at once. *)
Definition foreach_find_matches_cb
    (subtries : option (list (string * EnchantTrie))) m :=
  match subtries with
  | None => m
  | Some subs =>
      foldl (λ m kv, enchant_trie_find_matches_cb kv.1 kv.2 m) m subs
  end.

Definition find_matches_body (trie : option EnchantTrie) m
  : EnchantTrieMatcher A :=
  match trie with
  | None => m (* Can't match in the empty trie *)
  | Some t =>
      (* Bail out if over the error limits *)
      if max_errors m <? num_errors m then m
      else
        match t with
        | EOSTrie =>
            let word_len := CStr.len (word m) in
            let errs := num_errors m in
            let m :=
              if bool_decide (word_pos m < word_len)%nat then
                set_num_errors
                  (errs + Z.of_nat word_len - Z.of_nat (word_pos m)) m
              else m in
            let m :=
              if num_errors m <=? max_errors m then cbfunc (path m) m
              else m in
            set_num_errors errs m
        | Node (Some tvalue) _ =>
            let errs := num_errors m in
            let value :=
              match mode m with
              | case_insensitive => g_utf8_strdown tvalue
              | case_sensitive => tvalue
              end in
            let m :=
              set_num_errors (errs + edit_dist value (word_rest m)) m in
            let m :=
              if num_errors m <=? max_errors m then
                cbfunc (path m ++ tvalue)%string m
              else m in
            set_num_errors errs m
        | Node None subtries =>
            let nxtChI := (word_pos m + utf8_next_len (word_rest m))%nat in
            let nxtChS := CStr.take (nxtChI - word_pos m) (word_rest m) in
            (* Precisely match the first character, and recurse *)
            let '(subtrie, nxtChS) :=
              enchant_trie_get_subtrie t m nxtChS in
            let m :=
              match subtrie with
              | None => m
              | Some subtrie =>
                  let m := enchant_trie_matcher_pushpath m nxtChS in
                  let oldPos := word_pos m in
                  let m := set_word_pos nxtChI m in
                  let m := find_matches (Some subtrie) m in
                  let m := set_word_pos oldPos m in
                  enchant_trie_matcher_poppath m (CStr.len nxtChS)
              end in
            let m := set_num_errors (num_errors m + 1) m in
            let m :=
              if CStr.at_end (word_rest m) then m
              else
                (* Match on inserting word[0] *)
                let oldPos := word_pos m in
                let m := set_word_pos nxtChI m in
                let m := find_matches trie m in
                set_word_pos oldPos m in
            let m := foreach_find_matches_cb subtries m in
            set_num_errors (num_errors m - 1) m
        end
  end.
End Body.

(** [n] bounds the depth of the recursion. *)
Fixpoint find_matches_n (n : nat) (trie : option EnchantTrie) m
  : EnchantTrieMatcher A :=
  match n with
  | O => m
  | S n' => find_matches_body (find_matches_n n') trie m
  end.

(** The number of nodes on the longest downward path. *)
Fixpoint trie_height (t : EnchantTrie) : nat :=
  match t with
  | EOSTrie => 1
  | Node _ None => 1
  | Node _ (Some subs) =>
      S ((fix go (l : list (string * EnchantTrie)) : nat :=
            match l with
            | [] => 0
            | kv :: r => Nat.max (trie_height kv.2) (go r)
            end) subs)
  end%nat.

(** Every recursive call either descends to a subtrie or, staying at
    the node, moves [word_pos] forward inside the word; so the depth is
    at most the height of the trie plus the bytes left. *)
Definition find_matches_depth (trie : option EnchantTrie) m : nat :=
  match trie with
  | None => 1
  | Some t => S (trie_height t + (CStr.len (word m) - word_pos m))
  end%nat.

Definition enchant_trie_find_matches (trie : option EnchantTrie) m
  : EnchantTrieMatcher A :=
  find_matches_n (find_matches_depth trie m) trie m.
End Matcher.

(** ** The personal word list *)

Definition ENCHANT_PWL_MAX_ERRORS : Z := 3.
Definition ENCHANT_PWL_MAX_SUGGS : nat := 15.
Definition BOM : Z := 65279.

(** [struct str_enchant_pwl] *)
Record EnchantPWL : Type := mkPWL {
  trie : option EnchantTrie;
  filename : option string;
  file_changed : Z;
  words_in_trie : gmap string string;
}.

(** [EnchantSuggList]: the two arrays allocated by [enchant_pwl_suggest]
    ([ENCHANT_PWL_MAX_SUGGS + 1] pointers, [ENCHANT_PWL_MAX_SUGGS] ints,
    all zero), and the number of live entries. *)
Record EnchantSuggList : Type := mkSuggList {
  suggs : list (option string);
  sugg_errs : list Z;
  n_suggs : nat;
}.

(** What [g_stat] and [fopen] see of the backing file. *)
Record Disk : Type := mkDisk {
  contents : string;
  st_mtime : Z;
}.

(** Matcher callback of [enchant_pwl_contains]: counts the matches. *)
Definition enchant_pwl_check_cb (_ : string) (m : EnchantTrieMatcher Z)
  : EnchantTrieMatcher Z :=
  set_cbdata (cbdata m + 1) m.

(** The search loop of [enchant_pwl_suggest_cb], started at [loc] with
    [k] live entries ahead: [Some loc] when it leaves the loop, [None]
    when the match is already in the list. *)
Fixpoint sugg_find_loc (sl : EnchantSuggList) (mtch : string) (errs : Z)
    (k loc : nat) : option nat :=
  match k with
  | O => Some loc
  | S k' =>
      (* Better than an existing suggestion, so stop *)
      if errs <? sugg_errs sl !!! loc then Some loc
      (* Already in the list with better score, just return *)
      else if bool_decide (suggs sl !!! loc = Some mtch) then None
      else sugg_find_loc sl mtch errs k' (S loc)
  end.

Definition enchant_pwl_suggest_cb (mtch : string)
    (m : EnchantTrieMatcher EnchantSuggList)
  : EnchantTrieMatcher EnchantSuggList :=
  let sugg_list := cbdata m in
  (* only get best errors so adapt *)
  let m :=
    if num_errors m <? max_errors m then set_max_errors (num_errors m) m
    else m in
  match sugg_find_loc sugg_list mtch (num_errors m) (n_suggs sugg_list) 0 with
  | None => m
  | Some loc =>
      (* If it's not going to fit, just throw it away *)
      if bool_decide (ENCHANT_PWL_MAX_SUGGS ≤ loc)%nat then m
      else
        (* num words added to list, less the worse ones removed *)
        let changes := 1 - Z.of_nat (n_suggs sugg_list - loc) in
        set_cbdata
          {| suggs := <[loc := Some mtch]> (suggs sugg_list);
             sugg_errs := <[loc := num_errors m]> (sugg_errs sugg_list);
             n_suggs := Z.to_nat (Z.of_nat (n_suggs sugg_list) + changes) |}
          m
  end.

(** [g_strchomp]: trailing bytes for which [g_ascii_isspace] holds are
    removed. *)
Definition g_ascii_isspace (c : ascii) : bool :=
  let b := N_of_ascii c in
  bool_decide (b = 32 ∨ b = 9 ∨ b = 10 ∨ b = 12 ∨ b = 13)%N.

Fixpoint g_strchomp (s : string) : string :=
  match s with
  | EmptyString => EmptyString
  | String c s' =>
      match g_strchomp s' with
      | EmptyString => if g_ascii_isspace c then EmptyString
                       else String c EmptyString
      | r => String c r
      end
  end.

(** The last byte of a non-empty buffer. *)
Fixpoint last_byte (s : string) : N :=
  match s with
  | EmptyString => 0%N
  | String c EmptyString => N_of_ascii c
  | String _ s' => last_byte s'
  end.

Section PWL.
Context `{UnicodeTables}.
(** [BUFSIZ] of the C library. *)
Variable BUFSIZ : nat.

(** The pattern [enchant_trie_matcher_init] copies into
    [matcher->word]. *)
Definition matcher_pattern (word : string) (mode : EnchantTrieMatcherMode)
  : string :=
  let normalized_word := g_utf8_normalize_nfd word in
  match mode with
  | case_insensitive => g_utf8_strdown normalized_word
  | case_sensitive => normalized_word
  end.

(** The fields of the matcher that [enchant_trie_matcher_init] returns. *)
Definition matcher_fields {A} (word : string) (maxerrs : Z)
    (mode : EnchantTrieMatcherMode) (cbdata : A) : EnchantTrieMatcher A :=
  mkMatcher 0 maxerrs (matcher_pattern word mode) 0%nat EmptyString mode
            cbdata.

(** [enchant_trie_matcher_init].  [matcher->word] is allocated with
    [len + maxerrs + 2] bytes, [len] being the length of the normalized
    word, and the pattern is copied into it by [strcpy].  In
    [case_insensitive] mode the pattern is the lower-cased normalized
    word, which can be longer than the normalized word itself: [None]
    when the pattern and its terminator do not fit, and [strcpy] writes
    behind the buffer.  (When they fit, [len + maxerrs + 1] bytes less
    the length of the pattern are left behind the terminator, all zero;
    [word_rest] reads the buffer as followed by zero bytes.) *)
Definition enchant_trie_matcher_init {A} (word : string) (maxerrs : Z)
    (mode : EnchantTrieMatcherMode) (cbdata : A)
  : option (EnchantTrieMatcher A) :=
  let len := CStr.len (g_utf8_normalize_nfd word) in
  let pattern := matcher_pattern word mode in
  if bool_decide (Z.of_nat (CStr.len pattern) + 1 ≤ Z.of_nat len + maxerrs + 2)
  then Some (matcher_fields word maxerrs mode cbdata)
  else None.

Definition enchant_pwl_add_to_trie (pwl : EnchantPWL) (word : string)
  : EnchantPWL :=
  let normalized_word := g_utf8_normalize_nfd word in
  match words_in_trie pwl !! normalized_word with
  | Some _ => pwl
  | None =>
      {| trie := Some (enchant_trie_insert (trie pwl) normalized_word);
         filename := filename pwl;
         file_changed := file_changed pwl;
         words_in_trie := <[normalized_word := word]> (words_in_trie pwl) |}
  end.

(** [None]: undefined behaviour inside [enchant_trie_remove]. *)
Definition enchant_pwl_remove_from_trie (pwl : EnchantPWL) (word : string)
  : option EnchantPWL :=
  let normalized_word := g_utf8_normalize_nfd word in
  match words_in_trie pwl !! normalized_word with
  | None => Some pwl
  | Some _ =>
      t ← enchant_trie_remove (trie pwl) normalized_word;
      let t :=
        match t with
        | Some n =>
            match trie_subtries n, trie_value n with
            | None, None => None (* make trie empty if has no content *)
            | _, _ => t
            end
        | None => None
        end in
      Some {| trie := t;
              filename := filename pwl;
              file_changed := file_changed pwl;
              words_in_trie := delete normalized_word (words_in_trie pwl) |}
  end.

(** *** Reading the backing file *)

(** [fgets (buffer, BUFSIZ + 1, f)] on the unread part of the file: the
    buffer and what is left; [None] at the end of the file. *)
Fixpoint fgets_n (n : nat) (rest : string) : string * string :=
  match n, rest with
  | O, _ => (EmptyString, rest)
  | _, EmptyString => (EmptyString, EmptyString)
  | S n', String c r =>
      if bool_decide (N_of_ascii c = 10%N) then (String c EmptyString, r)
      else let '(b, r') := fgets_n n' r in (String c b, r')
  end.

Definition fgets (rest : string) : option (string * string) :=
  if CStr.at_end rest then None else Some (fgets_n BUFSIZ rest).

(** [feof (f)] after an [fgets] that returned [buffer]: the read ran
    into the end of the file. *)
Definition feof_after (buffer rest : string) : bool :=
  CStr.at_end rest && bool_decide (last_byte buffer ≠ 10%N)
  && bool_decide (CStr.len buffer < BUFSIZ)%nat.

(** The array [buffer] after [fgets] has stored [s] and its terminator
    in it: the bytes behind the terminator are left as they were. *)
Definition buffer_store (mem : list N) (s : string) : list N :=
  (N_of_ascii <$> list_ascii_of_string s) ++ 0%N :: drop (S (CStr.len s)) mem.

(** The inner loop that skips the remainder of an over-long line.  Its
    test is whether [line[strlen (buffer) - 1]] is a line feed, and
    [line] is [buffer + off] with [off] the length of the byte-order
    mark when one was found on line 1, 0 otherwise.  With [off = 0] the byte tested is
    the last one read; otherwise it lies [off] bytes behind it, where
    the array [mem] still holds what the earlier reads left there.  (A
    byte behind the end of the array, which the source must not read,
    is taken to be 0.) *)
Fixpoint skip_long_line (n : nat) (off : nat) (mem : list N) (rest : string)
  : string :=
  match n with
  | O => rest
  | S n' =>
      match fgets rest with
      | None => rest
      | Some (buffer, rest') =>
          let mem := buffer_store mem buffer in
          if bool_decide
               (default 0%N (mem !! (off + CStr.len buffer - 1)%nat) = 10%N)
          then rest'
          else skip_long_line n' off mem rest'
      end
  end.

(** The [for] loop over the lines; [n] bounds the number of reads. *)
Fixpoint read_lines (n : nat) (line_number : nat) (rest : string)
    (pwl : EnchantPWL) : EnchantPWL :=
  match n with
  | O => pwl
  | S n' =>
      match fgets rest with
      | None => pwl
      | Some (buffer, rest') =>
          let off :=
            if bool_decide (line_number = 1%nat)
               && bool_decide (BOM = g_utf8_get_char buffer)
            then utf8_next_len buffer
            else 0%nat in
          let line := CStr.drop off buffer in
          if bool_decide (last_byte buffer ≠ 10%N)
             && negb (feof_after buffer rest')
          then (* ignore lines longer than BUFSIZ *)
            read_lines n' (S line_number)
              (skip_long_line n' off (buffer_store [] buffer) rest') pwl
          else
            let line := g_strchomp line in
            let pwl :=
              if negb (CStr.at_end line)
                 && bool_decide (CStr.head line ≠ 35%N)
                 && g_utf8_validate line
              then enchant_pwl_add_to_trie pwl line
              else pwl in
            read_lines n' (S line_number) rest' pwl
      end
  end.

(** [disk] is [None] when [g_stat] on the file name fails; a file that
    can be stat-ed is taken to be readable. *)
Definition enchant_pwl_refresh_from_file (pwl : EnchantPWL)
    (disk : option Disk) : EnchantPWL :=
  match filename pwl, disk with
  | Some _, Some d =>
      if bool_decide (file_changed pwl = st_mtime d) then pwl
      else
        let pwl := {| trie := None;
                      filename := filename pwl;
                      file_changed := st_mtime d;
                      words_in_trie := ∅ |} in
        read_lines (S (CStr.len (contents d))) 1 (contents d) pwl
  | _, _ => pwl
  end.

(** *** Checking *)

(** In [case_sensitive] mode the pattern is the normalized word, which
    fits its buffer (lemma [matcher_init_case_sensitive]): the second arm
    is never taken. *)
Definition enchant_pwl_contains (pwl : EnchantPWL) (word : string) : bool :=
  let count := 0 in
  match enchant_trie_matcher_init word 0 case_sensitive count with
  | Some matcher =>
      let matcher :=
        enchant_trie_find_matches enchant_pwl_check_cb (trie pwl) matcher in
      negb (cbdata matcher =? 0)
  | None => false
  end.

(** The scalars the loops [for (it = word; it < word + len;
    it = g_utf8_next_char (it))] visit with [g_utf8_get_char (it)]. *)
Definition utf8_scalars (word : string) : list Z := g_utf8_to_ucs4_fast word.

(** The loop of [enchant_is_all_caps]: [None] is the early [return 0]. *)
Fixpoint all_caps_loop (its : list Z) (hasCap : bool) : option bool :=
  match its with
  | [] => Some hasCap
  | ch :: its' =>
      match g_unichar_type ch with
      | G_UNICODE_UPPERCASE_LETTER => all_caps_loop its' true
      | G_UNICODE_TITLECASE_LETTER
      | G_UNICODE_LOWERCASE_LETTER => None
      | G_UNICODE_OTHER_CATEGORY => all_caps_loop its' hasCap
      end
  end.

Definition enchant_is_all_caps (word : string) : bool :=
  if CStr.at_end word then false (* g_return_val_if_fail *)
  else default false (all_caps_loop (utf8_scalars word) false).

Definition is_upper_or_title (ch : Z) : bool :=
  bool_decide (g_unichar_type ch = G_UNICODE_UPPERCASE_LETTER
               ∨ g_unichar_type ch = G_UNICODE_TITLECASE_LETTER).

Definition enchant_is_title_case (word : string) : bool :=
  if CStr.at_end word then false (* g_return_val_if_fail *)
  else
    let ch := g_utf8_get_char word in
    if negb (is_upper_or_title ch)
       || bool_decide (ch ≠ g_unichar_totitle ch)
    then false
    else
      forallb (λ c, negb (is_upper_or_title c))
              (utf8_scalars (CStr.drop (utf8_next_len word) word)).

Definition enchant_utf8_strtitle (str : string) : string :=
  let upperStr := g_utf8_strup str in
  let title_case_char := g_unichar_totitle (g_utf8_get_char upperStr) in
  let title_case_utf8 := g_unichar_to_utf8 title_case_char in
  let lowerTail :=
    g_utf8_strdown (CStr.drop (utf8_next_len upperStr) upperStr) in
  (title_case_utf8 ++ lowerTail)%string.

(** [enchant_pwl_check] after the refresh: 0 found, 1 not found. *)
Definition pwl_check_refreshed (pwl : EnchantPWL) (word : string) : Z :=
  if enchant_pwl_contains pwl word then 0
  else
    let isTitle := enchant_is_title_case word in
    (* [isAllCaps] is only assigned when the first disjunct is false *)
    let isAllCaps := if isTitle then false else enchant_is_all_caps word in
    if isTitle || isAllCaps then
      let lower_case_word := g_utf8_strdown word in
      if enchant_pwl_contains pwl lower_case_word then 0
      else if isAllCaps then
        let title_case_word := enchant_utf8_strtitle word in
        if enchant_pwl_contains pwl title_case_word then 0 else 1
      else 1
    else 1.

(** The result and the refreshed word list. *)
Definition enchant_pwl_check (pwl : EnchantPWL) (disk : option Disk)
    (word : string) : Z * EnchantPWL :=
  let pwl := enchant_pwl_refresh_from_file pwl disk in
  (pwl_check_refreshed pwl word, pwl).

(** *** Suggesting *)

Definition denormalize_one (pwl : EnchantPWL)
    (convert : option (string → string)) (sugg : string) : option string :=
  suggestion ← words_in_trie pwl !! sugg;
  Some (match convert with
        | Some f =>
            if negb (enchant_is_all_caps suggestion) then f suggestion
            else suggestion
        | None => suggestion
        end).

(** [None]: a suggestion is not a key of [words_in_trie] and [strlen]
    is applied to a null pointer. *)
Definition enchant_pwl_case_and_denormalize_suggestions (pwl : EnchantPWL)
    (word : string) (live : list (option string)) : option (list string) :=
  let utf8_case_convert_function :=
    if enchant_is_title_case word then Some enchant_utf8_strtitle
    else if enchant_is_all_caps word then Some g_utf8_strup
    else None in
  mapM (λ s : option string,
          s ← s; denormalize_one pwl utf8_case_convert_function s) live.

Definition best_distance (suggs : list string) (word : string) : Z :=
  let normalized_word := g_utf8_normalize_nfd word in
  foldl (λ best_dist sugg,
           let normalized_sugg := g_utf8_normalize_nfd sugg in
           MIN (edit_dist normalized_word normalized_sugg) best_dist)
        (g_utf8_strlen normalized_word) suggs.

Definition suggest_max_dist (suggs : option (list string)) (word : string)
  : Z :=
  let max_dist :=
    match suggs with
    | Some l => best_distance l word
    | None => ENCHANT_PWL_MAX_ERRORS
    end in
  MIN max_dist ENCHANT_PWL_MAX_ERRORS.

Definition sugg_list_init : EnchantSuggList :=
  {| suggs := replicate (ENCHANT_PWL_MAX_SUGGS + 1) None;
     sugg_errs := replicate ENCHANT_PWL_MAX_SUGGS 0;
     n_suggs := 0 |}.

(** The matcher run of [enchant_pwl_suggest], on the matcher that
    [enchant_trie_matcher_init] returns when the pattern fits. *)
Definition pwl_suggest_matcher (pwl : EnchantPWL) (word : string)
    (baseline : option (list string)) : EnchantTrieMatcher EnchantSuggList :=
  let max_dist := suggest_max_dist baseline word in
  let matcher :=
    matcher_fields word max_dist case_insensitive sugg_list_init in
  enchant_trie_find_matches enchant_pwl_suggest_cb (trie pwl) matcher.

(** [enchant_pwl_suggest] after the refresh: the returned array up to
    its terminating null pointer ([*out_n_suggs] is its length).
    [None]: undefined behaviour, in [enchant_trie_matcher_init] or in
    [enchant_pwl_case_and_denormalize_suggestions]. *)
Definition pwl_suggest_refreshed (pwl : EnchantPWL) (word : string)
    (baseline : option (list string)) : option (list string) :=
  let max_dist := suggest_max_dist baseline word in
  matcher ← enchant_trie_matcher_init word max_dist case_insensitive
                                      sugg_list_init;
  let matcher :=
    enchant_trie_find_matches enchant_pwl_suggest_cb (trie pwl) matcher in
  let sugg_list := cbdata matcher in
  enchant_pwl_case_and_denormalize_suggestions pwl word
    (take (n_suggs sugg_list) (suggs sugg_list)).

Definition enchant_pwl_suggest (pwl : EnchantPWL) (disk : option Disk)
    (word : string) (baseline : option (list string))
  : option (list string) * EnchantPWL :=
  let pwl := enchant_pwl_refresh_from_file pwl disk in
  (pwl_suggest_refreshed pwl word baseline, pwl).

(** *** Adding *)

(** The file part of [enchant_pwl_add]; every write succeeds, and the
    write is stamped [now]. *)
Definition pwl_add_append (disk : option Disk) (word : string) (now : Z)
  : Disk :=
  let old := match disk with Some d => contents d | None => EmptyString end in
  (* Add a newline if the file doesn't end with one. *)
  let with_nl :=
    if CStr.at_end old then old
    else if bool_decide (last_byte old ≠ 10%N)
         then (old ++ String (ascii_of_N 10) EmptyString)%string
         else old in
  {| contents := (with_nl ++ word ++ String (ascii_of_N 10) EmptyString)%string;
     st_mtime := now |}.

(** [now] is the clock at the call; a missing file is created by
    [fopen (.., "a+")] before [g_stat] looks at it. *)
Definition enchant_pwl_add (pwl : EnchantPWL) (disk : option Disk)
    (word : string) (now : Z) : EnchantPWL * option Disk :=
  let pwl := enchant_pwl_refresh_from_file pwl disk in
  let pwl := enchant_pwl_add_to_trie pwl word in
  match filename pwl with
  | None => (pwl, disk)
  | Some _ =>
      let mtime := match disk with Some d => st_mtime d | None => now end in
      ({| trie := trie pwl;
          filename := filename pwl;
          file_changed := mtime;
          words_in_trie := words_in_trie pwl |},
       Some (pwl_add_append disk word now))
  end.

Definition enchant_pwl_init : EnchantPWL :=
  {| trie := None; filename := None; file_changed := 0;
     words_in_trie := ∅ |}.
End PWL.

(** ** Unicode tables on ASCII *)

(** The GLib functions on words whose cased letters are all ASCII: the
    26 letters have their usual case mappings; every other scalar is
    treated as caseless and as its own canonical decomposition (which is
    what GLib does for, among others, all ASCII bytes and U+20AC). *)
Module AsciiTables.

Definition is_upper (b : N) : bool := ((65 <=? b) && (b <=? 90))%N.
Definition is_lower (b : N) : bool := ((97 <=? b) && (b <=? 122))%N.

Definition down (c : ascii) : ascii :=
  let b := N_of_ascii c in
  if is_upper b then ascii_of_N (b + 32) else c.
Definition up (c : ascii) : ascii :=
  let b := N_of_ascii c in
  if is_lower b then ascii_of_N (b - 32) else c.

Fixpoint map_bytes (f : ascii → ascii) (s : string) : string :=
  match s with
  | EmptyString => EmptyString
  | String c s' => String (f c) (map_bytes f s')
  end.

Definition unichar_type (ch : Z) : GUnicodeType :=
  if (65 <=? ch) && (ch <=? 90) then G_UNICODE_UPPERCASE_LETTER
  else if (97 <=? ch) && (ch <=? 122) then G_UNICODE_LOWERCASE_LETTER
  else G_UNICODE_OTHER_CATEGORY.

Definition totitle (ch : Z) : Z :=
  if (97 <=? ch) && (ch <=? 122) then ch - 32 else ch.

(** Scalars below U+0800 suffice for the words used here. *)
Definition to_utf8 (ch : Z) : string :=
  if ch <? 128 then String (ascii_of_N (Z.to_N ch)) EmptyString
  else
    String (ascii_of_N (Z.to_N (Z.lor 192 (Z.shiftr ch 6))))
      (String (ascii_of_N (Z.to_N (Z.lor 128 (Z.land ch 63)))) EmptyString).

Definition tables : UnicodeTables :=
  {| g_utf8_normalize_nfd := λ s, s;
     g_utf8_strdown := map_bytes down;
     g_utf8_strup := map_bytes up;
     g_unichar_type := unichar_type;
     g_unichar_totitle := totitle;
     g_unichar_to_utf8 := to_utf8;
     g_utf8_validate := λ _, true |}.

End AsciiTables.


(** ** The case of a word, as the specification words it *)

Section CaseSpec.
Context `{UnicodeTables}.

Definition is_uppercase_letter (ch : Z) : bool :=
  bool_decide (g_unichar_type ch = G_UNICODE_UPPERCASE_LETTER).
Definition is_lowercase_letter (ch : Z) : bool :=
  bool_decide (g_unichar_type ch = G_UNICODE_LOWERCASE_LETTER).
Definition is_titlecase_letter (ch : Z) : bool :=
  bool_decide (g_unichar_type ch = G_UNICODE_TITLECASE_LETTER).

(** All-caps: at least one uppercase letter appears and no lowercase or
    title-case letter does; scalars of other categories are ignored. *)
Definition spec_is_all_caps (word : string) : bool :=
  let scalars := g_utf8_to_ucs4_fast word in
  existsb is_uppercase_letter scalars
  && forallb (λ ch, negb (is_lowercase_letter ch || is_titlecase_letter ch))
             scalars.

(** Title-case: the first scalar is uppercase or title-case and equals
    its title-case form, and no subsequent scalar is uppercase or
    title-case. *)
Definition spec_is_title_case (word : string) : bool :=
  match g_utf8_to_ucs4_fast word with
  | [] => false
  | first :: subsequent =>
      (is_uppercase_letter first || is_titlecase_letter first)
      && bool_decide (first = g_unichar_totitle first)
      && forallb (λ ch, negb (is_uppercase_letter ch || is_titlecase_letter ch))
                 subsequent
  end.

(** To title-case a word: uppercase the entire string, then replace the
    first scalar with its title-case form, and lowercase the
    remainder. *)
Definition spec_title_case_form (word : string) : string :=
  let upper := g_utf8_strup word in
  let first := hd 0 (g_utf8_to_ucs4_fast upper) in
  let remainder := CStr.drop (utf8_next_len upper) upper in
  (g_unichar_to_utf8 (g_unichar_totitle first)
   ++ g_utf8_strdown remainder)%string.
End CaseSpec.

(** ** Unicode tables with a mark that has an upper-case form *)

(** The tables of [AsciiTables] and three more scalars, with the
    mappings GLib has for them: the capital iota U+0399 and the small
    iota U+03B9, an uppercase and a lowercase letter, and the combining
    mark U+0345 (ypogegrammeni), which is no letter but is turned into
    U+0399 by [g_utf8_strup]; none of them is changed by NFD. *)
Module IotaTables.

Definition capital_iota : string :=
  String (ascii_of_N 206) (String (ascii_of_N 153) EmptyString).
Definition small_iota : string :=
  String (ascii_of_N 206) (String (ascii_of_N 185) EmptyString).
Definition ypogegrammeni : string :=
  String (ascii_of_N 205) (String (ascii_of_N 133) EmptyString).

Definition is_pair (a b : ascii) (x y : N) : bool :=
  ((N_of_ascii a =? x) && (N_of_ascii b =? y))%N.

Fixpoint strup (s : string) : string :=
  match s with
  | EmptyString => EmptyString
  | String a s' =>
      match s' with
      | String b r =>
          if is_pair a b 205 133 || is_pair a b 206 185
          then String (ascii_of_N 206) (String (ascii_of_N 153) (strup r))
          else String (AsciiTables.up a) (strup s')
      | EmptyString => String (AsciiTables.up a) EmptyString
      end
  end.

Fixpoint strdown (s : string) : string :=
  match s with
  | EmptyString => EmptyString
  | String a s' =>
      match s' with
      | String b r =>
          if is_pair a b 206 153
          then String (ascii_of_N 206) (String (ascii_of_N 185) (strdown r))
          else String (AsciiTables.down a) (strdown s')
      | EmptyString => String (AsciiTables.down a) EmptyString
      end
  end.

Definition unichar_type (ch : Z) : GUnicodeType :=
  if ch =? 921 then G_UNICODE_UPPERCASE_LETTER
  else if ch =? 953 then G_UNICODE_LOWERCASE_LETTER
  else AsciiTables.unichar_type ch.

Definition totitle (ch : Z) : Z :=
  if ch =? 953 then 921 else AsciiTables.totitle ch.

Definition tables : UnicodeTables :=
  {| g_utf8_normalize_nfd := λ s, s;
     g_utf8_strdown := strdown;
     g_utf8_strup := strup;
     g_unichar_type := unichar_type;
     g_unichar_totitle := totitle;
     g_unichar_to_utf8 := AsciiTables.to_utf8;
     g_utf8_validate := λ _, true |}.

End IotaTables.

(** ** The distance table as the specification words it *)

(** [dl_spec a b i j] is the entry [d[i][j]] of the specification:
    [d[i][0] = i], [d[0][j] = j], and for [i, j ≥ 1] the least of
    [d[i-1][j] + 1], [d[i][j-1] + 1], [d[i-1][j-1] + cost] and, when
    [i, j ≥ 2], [a[i-1] = b[j-2]] and [a[i-2] = b[j-1]], also
    [d[i-2][j-2] + cost]; [cost] is 0 when [a[i-1] = b[j-1]] and 1
    otherwise. *)
Fixpoint dl_spec (a b : list Z) (i : nat) : nat → Z :=
  match i with
  | O => λ j, Z.of_nat j
  | S i' =>
      let above := dl_spec a b i' in
      let above2 :=
        match i' with
        | O => λ _, 0
        | S i'' => dl_spec a b i''
        end in
      fix row (j : nat) : Z :=
        match j with
        | O => Z.of_nat (S i')
        | S j' =>
            let cost := if a !!! i' =? b !!! j' then 0 else 1 in
            let d :=
              Z.min (Z.min (above (S j') + 1) (row j' + 1)) (above j' + cost) in
            if bool_decide (1 ≤ i')%nat && bool_decide (1 ≤ j')%nat
               && (a !!! i' =? b !!! (j' - 1)%nat)
               && (a !!! (i' - 1)%nat =? b !!! j')
            then Z.min d (above2 (j' - 1)%nat + cost)
            else d
        end
  end.

(** ** The suggestion list as the callback leaves it *)

(** The live part of the two arrays. *)
Definition sugg_live_suggs (sl : EnchantSuggList) : list (option string) :=
  take (n_suggs sl) (suggs sl).
Definition sugg_live_errs (sl : EnchantSuggList) : list Z :=
  take (n_suggs sl) (sugg_errs sl).

(** Entries in ascending order of error count, no string twice, at most
    [ENCHANT_PWL_MAX_SUGGS] entries, inside the two arrays. *)
Record sugg_list_ok (sl : EnchantSuggList) : Prop := {
  ok_suggs_len : length (suggs sl) = S ENCHANT_PWL_MAX_SUGGS;
  ok_errs_len : length (sugg_errs sl) = ENCHANT_PWL_MAX_SUGGS;
  ok_cap : (n_suggs sl ≤ ENCHANT_PWL_MAX_SUGGS)%nat;
  ok_sorted : StronglySorted Z.le (sugg_live_errs sl);
  ok_nodup : NoDup (sugg_live_suggs sl);
  ok_strings : Forall is_Some (sugg_live_suggs sl);
}.

(** One emission: either the list is left as it is, or the match is put
    behind a prefix of the old entries, all of which have at most its
    error count (so equal counts stay in the order of their insertion). *)
Definition sugg_emission (mtch : string) (errs : Z)
    (old new : EnchantSuggList) : Prop :=
  new = old ∨
  ∃ loc, (loc ≤ n_suggs old)%nat
    ∧ sugg_live_suggs new = take loc (sugg_live_suggs old) ++ [Some mtch]
    ∧ sugg_live_errs new = take loc (sugg_live_errs old) ++ [errs]
    ∧ Forall (λ e, e ≤ errs) (take loc (sugg_live_errs old)).

(** The lists that a run of emissions can produce from the initial one. *)
Inductive sugg_list_emitted : EnchantSuggList → Prop :=
| emitted_init : sugg_list_emitted sugg_list_init
| emitted_cb mtch m :
    sugg_list_emitted (cbdata m) →
    sugg_list_emitted (cbdata (enchant_pwl_suggest_cb mtch m)).

(** ** Exact lookup *)

(** The walk of the matcher when no error is allowed and the case is
    respected: from a Branch only the child keyed by the next UTF-8
    sequence of the query is entered; a Leaf is compared with what is
    left of the query; the end-of-string marker requires the query to be
    used up. *)
Fixpoint trie_has (t : EnchantTrie) (rest : string) : bool :=
  match t with
  | EOSTrie => CStr.at_end rest
  | Node (Some v) _ => edit_dist v rest <=? 0
  | Node None None => false
  | Node None (Some subs) =>
      (fix look (l : list (string * EnchantTrie)) : bool :=
         match l with
         | [] => false
         | (k, sub) :: r =>
             if CStr.eqb (CStr.take (utf8_next_len rest) rest) k
             then trie_has sub (CStr.drop (utf8_next_len rest) rest)
             else look r
         end) subs
  end.

Definition pwl_trie_has (trie : option EnchantTrie) (word : string) : bool :=
  match trie with
  | None => false
  | Some t => trie_has t word
  end.

(** ** Observing the emissions *)

(** The matcher with another object behind [cbdata]. *)
Definition with_cbdata {A B} (d : B) (m : EnchantTrieMatcher A)
  : EnchantTrieMatcher B :=
  mkMatcher (num_errors m) (max_errors m) (word m) (word_pos m) (path m)
            (mode m) d.

(** [enchant_pwl_suggest_cb], which in addition writes down every call
    it receives: the match and [matcher->num_errors]. *)
Definition traced_suggest_cb (mtch : string)
    (m : EnchantTrieMatcher (EnchantSuggList * list (string * Z)))
  : EnchantTrieMatcher (EnchantSuggList * list (string * Z)) :=
  let m' := enchant_pwl_suggest_cb mtch (with_cbdata (cbdata m).1 m) in
  with_cbdata (cbdata m', (cbdata m).2 ++ [(mtch, num_errors m)]) m'.

(** ** Well-formed UTF-8 *)

(** A continuation byte, [10xxxxxx]. *)
Definition utf8_cont (c : ascii) : bool :=
  let b := N_of_ascii c in ((128 <=? b) && (b <? 192))%N.

(** One complete UTF-8 sequence of one to four bytes in its shortest
    form (no NUL, no overlong encoding). *)
Definition utf8_chunk (k : string) : bool :=
  match k with
  | String c0 EmptyString =>
      let b0 := N_of_ascii c0 in ((1 <=? b0) && (b0 <? 128))%N
  | String c0 (String c1 EmptyString) =>
      let b0 := N_of_ascii c0 in
      ((194 <=? b0) && (b0 <? 224))%N && utf8_cont c1
  | String c0 (String c1 (String c2 EmptyString)) =>
      let b0 := N_of_ascii c0 in
      ((224 <=? b0) && (b0 <? 240))%N && utf8_cont c1 && utf8_cont c2
      && ((225 <=? b0) || (160 <=? N_of_ascii c1))%N
  | String c0 (String c1 (String c2 (String c3 EmptyString))) =>
      let b0 := N_of_ascii c0 in
      ((240 <=? b0) && (b0 <? 248))%N
      && utf8_cont c1 && utf8_cont c2 && utf8_cont c3
      && ((241 <=? b0) || (144 <=? N_of_ascii c1))%N
  | _ => false
  end.

(** A string made of such sequences. *)
Fixpoint utf8_wf_n (n : nat) (s : string) : bool :=
  CStr.at_end s
  || match n with
     | O => false
     | S n' =>
         utf8_chunk (CStr.take (utf8_next_len s) s)
         && utf8_wf_n n' (CStr.drop (utf8_next_len s) s)
     end.

Definition utf8_wf (s : string) : bool := utf8_wf_n (CStr.len s) s.

(** ** Well-formed tries *)

(** The shape [enchant_trie_insert] and [enchant_trie_remove] maintain
    on tries of well-formed words: a node has a value or a table, never
    both; the keys of a table are distinct; the empty key leads to the
    end-of-string marker and every other key is one complete UTF-8
    sequence leading to a proper node. *)
Inductive trie_wf : EnchantTrie → Prop :=
| wf_empty : trie_wf (Node None None)
| wf_leaf v : utf8_wf v = true → trie_wf (Node (Some v) None)
| wf_branch subs :
    NoDup subs.*1 →
    (∀ k c, (k, c) ∈ subs →
       (k = EmptyString ∧ c = EOSTrie)
       ∨ (utf8_chunk k = true ∧ c ≠ EOSTrie ∧ trie_wf c)) →
    trie_wf (Node None (Some subs)).

Definition pwl_trie_wf (t : option EnchantTrie) : Prop :=
  ∀ t0, t = Some t0 → trie_wf t0.

(** ** Shapes of tries *)

(** The chain of single-child Branch nodes spelling [v], one node per
    UTF-8 sequence, that ends in a Branch holding only the end-of-string
    marker. *)
Fixpoint eos_chain_n (n : nat) (v : string) : EnchantTrie :=
  if CStr.at_end v then Branch [(EmptyString, EOSTrie)]
  else
    match n with
    | O => Branch []
    | S n' =>
        Branch [(CStr.take (utf8_next_len v) v,
                 eos_chain_n n' (CStr.drop (utf8_next_len v) v))]
    end.

Definition eos_chain (v : string) : EnchantTrie := eos_chain_n (CStr.len v) v.

(** The tries obtained from the empty trie by calls of
    [enchant_trie_insert] and [enchant_trie_remove]. *)
Inductive trie_reachable : option EnchantTrie → Prop :=
| reach_empty : trie_reachable None
| reach_insert t w :
    trie_reachable t → trie_reachable (Some (enchant_trie_insert t w))
| reach_remove t w t' :
    trie_reachable t → enchant_trie_remove t w = Some t' → trie_reachable t'.

(** Every Branch node of [t] has at least two children. *)
Fixpoint branches_have_two (t : EnchantTrie) : bool :=
  match t with
  | EOSTrie => true
  | Node _ None => true
  | Node _ (Some subs) =>
      bool_decide (2 ≤ length subs)%nat
      && (fix go (l : list (string * EnchantTrie)) : bool :=
            match l with
            | [] => true
            | kv :: r => branches_have_two kv.2 && go r
            end) subs
  end.

(** [t] is a Branch with exactly one child, and that child has a value. *)
Definition single_leaf_branch (t : EnchantTrie) : Prop :=
  ∃ key sub v, t = Branch [(key, sub)] ∧ trie_value sub = Some v.

(** No Branch node of [t] has exactly one child that is a Leaf. *)
Fixpoint no_single_leaf_branch (t : EnchantTrie) : bool :=
  match t with
  | EOSTrie => true
  | Node _ None => true
  | Node _ (Some subs) =>
      match subs with
      | [(_, sub)] => negb (bool_decide (is_Some (trie_value sub)))
      | _ => true
      end
      && (fix go (l : list (string * EnchantTrie)) : bool :=
            match l with
            | [] => true
            | kv :: r => no_single_leaf_branch kv.2 && go r
            end) subs
  end.

(** ** Statements about insertion and removal *)

(** What an insertion of [w] into [t] has to deliver. *)
Definition insert_ok (t : option EnchantTrie) (w : string)
    (t' : EnchantTrie) : Prop :=
  trie_wf t' ∧ t' ≠ EOSTrie
  ∧ ∀ q, utf8_wf q = true →
         trie_has t' q = pwl_trie_has t q || bool_decide (q = w).

(** What a removal of [w] from [t] has to deliver. *)
Definition remove_ok (t : EnchantTrie) (w : string) (t' : EnchantTrie)
  : Prop :=
  trie_wf t'
  ∧ ∀ q, utf8_wf q = true →
         trie_has t' q = trie_has t q && negb (bool_decide (q = w)).

(** The word list agrees with its trie: the trie is well formed, the
    keys of [words_in_trie] are well-formed UTF-8, and the trie holds
    exactly these keys. *)
Definition pwl_ok (pwl : EnchantPWL) : Prop :=
  pwl_trie_wf (trie pwl)
  ∧ (∀ k orig, words_in_trie pwl !! k = Some orig → utf8_wf k = true)
  ∧ ∀ q, utf8_wf q = true →
         pwl_trie_has (trie pwl) q
         = bool_decide (is_Some (words_in_trie pwl !! q)).

(** ** The file of the word list *)

Definition newline : string := String (ascii_of_N 10) EmptyString.

(** Equal up to a single trailing newline. *)
Definition eq_upto_trailing_newline (a b : string) : Prop :=
  a = b ∨ a = (b ++ newline)%string ∨ b = (a ++ newline)%string.

Definition pwl_with_file : EnchantPWL :=
  {| trie := None; filename := Some "pwl.dic"; file_changed := 0;
     words_in_trie := ∅ |}.

(** ** The table of the edit distance *)

(** The cells filled so far hold the entries of the specification:
    row 0 and column 0, the rows above [i], and row [i] left of [j]. *)
Definition table_filled (word1 word2 : list Z) (i j : nat) (t : list Z)
  : Prop :=
  length t = ((length word1 + 1) * (length word2 + 1))%nat ∧
  ∀ i' j', (i' ≤ length word1)%nat → (j' ≤ length word2)%nat →
    (i' = 0 ∨ j' = 0 ∨ i' < i ∨ (i' = i ∧ j' < j))%nat →
    t !!! (i' * (length word2 + 1) + j')%nat = dl_spec word1 word2 i' j'.

(** ** The run of a suggestion *)

(** During the run the budget never exceeds the initial one, and every
    entry of the list was recorded within it. *)
Definition within_budget (D : Z) (m : EnchantTrieMatcher EnchantSuggList)
  : Prop :=
  sugg_list_emitted (cbdata m)
  ∧ max_errors m ≤ D
  ∧ Forall (λ e, e ≤ D) (sugg_live_errs (cbdata m)).

(** A step that leaves the query and the position in it as they were. *)
Definition keeps_word {A : Type}
    (f : EnchantTrieMatcher A → EnchantTrieMatcher A) : Prop :=
  ∀ m, word (f m) = word m ∧ word_pos (f m) = word_pos m.

(** ** Scalars of UTF-8 sequences *)

Definition byte_val (c : ascii) : Z := Z.of_N (N_of_ascii c).

(** The scalar a complete sequence encodes, in arithmetic. *)
Definition utf8_chunk_value (k : string) : Z :=
  match k with
  | String c0 EmptyString => byte_val c0
  | String c0 (String c1 EmptyString) =>
      (byte_val c0 - 192) * 64 + (byte_val c1 - 128)
  | String c0 (String c1 (String c2 EmptyString)) =>
      ((byte_val c0 - 224) * 64 + (byte_val c1 - 128)) * 64
      + (byte_val c2 - 128)
  | String c0 (String c1 (String c2 (String c3 EmptyString))) =>
      (((byte_val c0 - 240) * 64 + (byte_val c1 - 128)) * 64
       + (byte_val c2 - 128)) * 64 + (byte_val c3 - 128)
  | _ => 0
  end.

(** A step that gives the matcher back as it found it, up to the fields
    the callback owns ([max_errors] and [cbdata]). *)
Definition keeps_position {A : Type}
    (f : EnchantTrieMatcher A → EnchantTrieMatcher A) : Prop :=
  ∀ m, num_errors (f m) = num_errors m ∧ word (f m) = word m
       ∧ word_pos (f m) = word_pos m ∧ path (f m) = path m
       ∧ mode (f m) = mode m.

(** The word lists that [enchant_pwl_add_to_trie] and
    [enchant_pwl_remove_from_trie] produce from an empty one (with or
    without a backing file), for words whose NFD form is well-formed
    UTF-8. *)
Inductive pwl_reachable `{UnicodeTables} : EnchantPWL → Prop :=
| pwl_reach_empty f c :
    pwl_reachable {| trie := None; filename := f; file_changed := c;
                     words_in_trie := ∅ |}
| pwl_reach_add pwl word :
    pwl_reachable pwl → utf8_wf (g_utf8_normalize_nfd word) = true →
    pwl_reachable (enchant_pwl_add_to_trie pwl word)
| pwl_reach_remove pwl word pwl' :
    pwl_reachable pwl → enchant_pwl_remove_from_trie pwl word = Some pwl' →
    pwl_reachable pwl'.

(** ** Files made of lines *)

(** No byte of [s] is a line feed. *)
Fixpoint newline_free (s : string) : bool :=
  match s with
  | EmptyString => true
  | String c s' => negb (N_of_ascii c =? 10)%N && newline_free s'
  end.

(** The file whose lines are [lines], each ended by a line feed. *)
Fixpoint file_of_lines (lines : list string) : string :=
  match lines with
  | [] => EmptyString
  | l :: r => (l ++ newline ++ file_of_lines r)%string
  end.

(** The bytes of U+FEFF. *)
Definition BOM_utf8 : string :=
  String (ascii_of_N 239) (String (ascii_of_N 187)
    (String (ascii_of_N 191) EmptyString)).

(** A line, stripped of its trailing white space, that
    [enchant_pwl_refresh_from_file] takes for a word: not empty, not a
    comment, valid UTF-8. *)
Definition pwl_line_is_word `{UnicodeTables} (line : string) : bool :=
  negb (CStr.at_end line) && bool_decide (CStr.head line ≠ 35%N)
  && g_utf8_validate line.

(** What the loop of [enchant_pwl_refresh_from_file] does with the line
    [text] read as line [line_number]. *)
Definition pwl_take_line `{UnicodeTables} (line_number : nat)
    (pwl : EnchantPWL) (text : string) : EnchantPWL :=
  let buffer := (text ++ newline)%string in
  let line :=
    if bool_decide (line_number = 1%nat)
       && bool_decide (BOM = g_utf8_get_char buffer)
    then CStr.drop (utf8_next_len buffer) buffer
    else buffer in
  let line := g_strchomp line in
  if pwl_line_is_word line then enchant_pwl_add_to_trie pwl line else pwl.

Fixpoint pwl_take_lines `{UnicodeTables} (line_number : nat)
    (pwl : EnchantPWL) (lines : list string) : EnchantPWL :=
  match lines with
  | [] => pwl
  | l :: r => pwl_take_lines (S line_number) (pwl_take_line line_number pwl l) r
  end.

(** [enchant_pwl_init_with_file], for a file that can be opened:
    [fopen (file, "a+")] creates a missing file (stamped [now]), and the
    new list is refreshed from the file.  The list and the file as it
    then is. *)
Definition enchant_pwl_init_with_file `{UnicodeTables} (BUFSIZ : nat)
    (file : string) (disk : option Disk) (now : Z) : EnchantPWL * Disk :=
  let d :=
    match disk with
    | Some d => d
    | None => {| contents := EmptyString; st_mtime := now |}
    end in
  let pwl :=
    {| trie := None; filename := Some file; file_changed := 0;
       words_in_trie := ∅ |} in
  (enchant_pwl_refresh_from_file BUFSIZ pwl (Some d), d).

(** ** Removing a word from the list and from its file *)

(** A line feed or a carriage return. *)
Definition is_eol (b : N) : bool := ((b =? 10) || (b =? 13))%N.

(** [strstr (hay, needle)]: the offset of the first occurrence. *)
Fixpoint strstr (hay needle : string) : option nat :=
  if CStr.neqb needle hay (CStr.len needle) then Some 0%nat
  else
    match hay with
    | EmptyString => None
    | String _ hay' => S <$> strstr hay' needle
    end.

(** [contents[i]], 0 at the terminator. *)
Definition byte_at (contents : string) (i : nat) : N :=
  CStr.head (CStr.drop i contents).

(** The loop that moves [searchstart] past end-of-line bytes: the number
    of bytes passed. *)
Fixpoint skip_eols (s : string) : nat :=
  match s with
  | EmptyString => 0
  | String c s' => if is_eol (N_of_ascii c) then S (skip_eols s') else 0
  end%nat.

(** The [for (;;)] loop of [enchant_pwl_remove]: what it writes to the
    file, starting with [searchstart] at the given offset of [contents].
    [n] bounds the number of rounds.  With a key that is not empty every
    round moves [searchstart] forward, and more rounds than bytes are
    left give the result of the loop ([pwl_remove_loop_fuel]); with an
    empty key the loop of the source need not end, and nothing is said
    about it. *)
Fixpoint pwl_remove_loop (n : nat) (contents key : string)
    (filestart searchstart : nat) : string :=
  match n with
  | O => CStr.drop searchstart contents
  | S n' =>
      (* find word *)
      match strstr (CStr.drop searchstart contents) key with
      | None => CStr.drop searchstart contents
      | Some off =>
          let needle := (searchstart + off)%nat in
          let foundend := (needle + CStr.len key)%nat in
          if (bool_decide (needle = filestart)
              || is_eol (byte_at contents (needle - 1)))
             && (bool_decide (foundend = CStr.len contents)
                 || is_eol (byte_at contents foundend))
          then
            (CStr.take off (CStr.drop searchstart contents)
             ++ pwl_remove_loop n' contents key filestart
                  (foundend + skip_eols (CStr.drop foundend contents)))%string
          else
            (CStr.take (S off) (CStr.drop searchstart contents)
             ++ pwl_remove_loop n' contents key filestart (S needle))%string
      end
  end.

(** What [enchant_pwl_remove] writes back to the file it has read as
    [contents]: a byte-order mark is copied, the loop does the rest. *)
Definition pwl_remove_rewrite (contents word : string) : string :=
  let filestart :=
    if bool_decide (BOM = g_utf8_get_char contents)
    then utf8_next_len contents else 0%nat in
  (CStr.take filestart contents
   ++ pwl_remove_loop (S (CStr.len contents)) contents word
        filestart filestart)%string.

(** [enchant_pwl_remove], for a file that can be opened for writing.
    [now] is the time stamp [g_stat] reports before the file is closed,
    [mtime] the one the file has afterwards.  [None]: undefined
    behaviour inside [enchant_trie_remove]. *)
Definition enchant_pwl_remove `{UnicodeTables} (BUFSIZ : nat)
    (pwl : EnchantPWL) (disk : option Disk) (word : string)
    (now mtime : Z) : option (EnchantPWL * option Disk) :=
  let '(found, pwl) := enchant_pwl_check BUFSIZ pwl disk word in
  if found =? 1 then Some (pwl, disk)
  else
    let pwl := enchant_pwl_refresh_from_file BUFSIZ pwl disk in
    pwl ← enchant_pwl_remove_from_trie pwl word;
    match filename pwl, disk with
    | Some _, Some d =>
        Some ({| trie := trie pwl; filename := filename pwl;
                 file_changed := now;
                 words_in_trie := words_in_trie pwl |},
              Some {| contents := pwl_remove_rewrite (contents d) word;
                      st_mtime := mtime |})
    | _, _ => Some (pwl, disk)
    end.

(** The same loop seen from [searchstart]: [text] is what is left of
    the file, [atstart] tells whether [searchstart] is at the start of
    the file or behind an end-of-line byte. *)
Fixpoint pwl_remove_scan (n : nat) (key : string) (atstart : bool)
    (text : string) : string :=
  match n with
  | O => text
  | S n' =>
      match strstr text key with
      | None => text
      | Some off =>
          let before :=
            match off with
            | O => atstart
            | S k => is_eol (byte_at text k)
            end in
          let foundend := CStr.drop (off + CStr.len key) text in
          if before
             && (CStr.at_end foundend || is_eol (CStr.head foundend))
          then
            (CStr.take off text
             ++ pwl_remove_scan n' key true
                  (CStr.drop (skip_eols foundend) foundend))%string
          else
            (CStr.take (S off) text
             ++ pwl_remove_scan n' key (is_eol (byte_at text off))
                  (CStr.drop (S off) text))%string
      end
  end.

(** No byte of [s] is a line feed or a carriage return. *)
Fixpoint eol_free (s : string) : bool :=
  match s with
  | EmptyString => true
  | String c s' => negb (is_eol (N_of_ascii c)) && eol_free s'
  end.

(** ** The table a removal leaves *)

(** The table of a Branch after [word] has been removed below it, before
    the node looks whether it has to collapse: for the empty word the
    end-of-string marker is taken out; otherwise the child under the
    first UTF-8 sequence of the word is replaced by what its own removal
    leaves, or taken out when that has neither value nor table.
    [None]: there is no such child, or its removal is undefined. *)
Definition table_after_remove (subs : list (string * EnchantTrie))
    (word : string) : option (list (string * EnchantTrie)) :=
  if CStr.at_end word then Some (HT.remove EmptyString subs)
  else
    let key := CStr.take (utf8_next_len word) word in
    child ← HT.lookup key subs;
    child' ← trie_remove child (CStr.drop (utf8_next_len word) word);
    Some (match trie_subtries child', trie_value child' with
          | None, None => HT.remove key subs
          | _, _ => HT.insert key child' subs
          end).

(** Two lists with the same trie and the same table. *)
Definition same_words (p q : EnchantPWL) : Prop :=
  trie p = trie q ∧ words_in_trie p = words_in_trie q.

(** ** Distance up to case *)

(** [f] is a case variant of [s]: [s] can be cut into pieces, each of
    which is kept in [f], or is the upper-case form ([g_utf8_strup]) of
    the piece that stands for it in [f], or is replaced in [f] by its
    lower-case form ([g_utf8_strdown]). *)
Inductive case_variant `{UnicodeTables} : string → string → Prop :=
| cv_nil : case_variant EmptyString EmptyString
| cv_same s f c : case_variant s f → case_variant (s ++ c) (f ++ c)
| cv_up s f c :
    case_variant s f → case_variant (s ++ g_utf8_strup c) (f ++ c)
| cv_down s f v :
    case_variant s f → case_variant (s ++ v) (f ++ g_utf8_strdown v).

(** [s] has a case variant whose distance from [w] is at most [e]. *)
Definition near_up_to_case `{UnicodeTables} (s w : string) (e : Z) : Prop :=
  ∃ f, case_variant s f ∧ edit_dist f w ≤ e.

(** What is put on the path in one step, and what the query is read in:
    nothing, or one complete sequence. *)
Definition utf8_piece (s : string) : Prop :=
  s = EmptyString ∨ utf8_chunk s = true.

(** * Properties *)

(** ** C strings and UTF-8 steps *)

Lemma g_utf8_skip_pos b : (0 < g_utf8_skip b)%nat.
Proof. unfold g_utf8_skip. repeat case_match; lia. Qed.

Lemma utf8_next_len_pos s : (0 < utf8_next_len s)%nat.
Proof. apply g_utf8_skip_pos. Qed.

Lemma cstr_len_drop n s : CStr.len (CStr.drop n s) = (CStr.len s - n)%nat.
Proof.
  revert s. induction n as [|n IH]; intros [|c s]; simpl; try done.
Qed.

Lemma cstr_at_end_len s : CStr.at_end s = true ↔ CStr.len s = 0%nat.
Proof. destruct s; simpl; split; intros; congruence. Qed.

Lemma cstr_len_drop_next s :
  CStr.at_end s = false →
  (CStr.len (CStr.drop (utf8_next_len s) s) < CStr.len s)%nat.
Proof.
  intros E. rewrite cstr_len_drop.
  pose proof (utf8_next_len_pos s).
  destruct s; simpl in *; [done|]. unfold CStr.len; simpl. lia.
Qed.

Lemma cstr_take_drop n s : (CStr.take n s ++ CStr.drop n s)%string = s.
Proof.
  revert s. induction n as [|n IH]; intros [|c s]; simpl; try done.
  change (String c (CStr.take n s +:+ CStr.drop n s) = String c s).
  by rewrite IH.
Qed.

Lemma cstr_eqb_eq a b : CStr.eqb a b = true ↔ a = b.
Proof. unfold CStr.eqb. by rewrite bool_decide_eq_true. Qed.

Lemma cstr_eqb_refl a : CStr.eqb a a = true.
Proof. by apply cstr_eqb_eq. Qed.

(** ** Enough fuel for insert and remove *)

Lemma trie_insert_n_None n word :
  trie_insert_n (S n) None word = Leaf word.
Proof. reflexivity. Qed.

Lemma trie_insert_body_ext ins1 ins2 trie word :
  (∀ w, ins1 None w = ins2 None w) →
  (CStr.at_end word = false →
   ∀ t, ins1 t (CStr.drop (utf8_next_len word) word)
        = ins2 t (CStr.drop (utf8_next_len word) word)) →
  trie_insert_body ins1 trie word = trie_insert_body ins2 trie word.
Proof.
  intros HN Hw. unfold trie_insert_body.
  assert (Hsub : ∀ subs, insert_into_subtries ins1 subs word
                         = insert_into_subtries ins2 subs word).
  { intros subs. unfold insert_into_subtries.
    destruct (CStr.at_end word) eqn:E; [done|]. by rewrite Hw. }
  destruct (trie_value _) as [v|]; [|destruct (trie_subtries _); by rewrite ?Hsub].
  rewrite Hsub. do 3 f_equal.
  unfold insert_into_subtries. destruct (CStr.at_end v); [done|].
  simpl. by rewrite HN.
Qed.

Lemma trie_insert_n_enough n1 n2 trie word :
  (CStr.len word + 2 ≤ n1)%nat → (CStr.len word + 2 ≤ n2)%nat →
  trie_insert_n n1 trie word = trie_insert_n n2 trie word.
Proof.
  revert n2 trie word. induction n1 as [|n1 IH]; intros [|n2] trie word H1 H2;
    try lia.
  simpl. apply trie_insert_body_ext.
  - intros w. destruct n1, n2; try lia. reflexivity.
  - intros E t. pose proof (cstr_len_drop_next word E). apply IH; lia.
Qed.

(** The equation of the C function. *)
Lemma enchant_trie_insert_eq trie word :
  enchant_trie_insert trie word
  = trie_insert_body enchant_trie_insert trie word.
Proof.
  unfold enchant_trie_insert at 1. simpl trie_insert_n.
  apply trie_insert_body_ext.
  - reflexivity.
  - intros E t. pose proof (cstr_len_drop_next word E).
    unfold enchant_trie_insert.
    change (trie_insert_body _ t ?w) with (trie_insert_n (S (CStr.len word)) t w).
    apply trie_insert_n_enough; lia.
Qed.

Lemma trie_remove_body_ext rem1 rem2 trie word :
  (CStr.at_end word = false →
   ∀ t, rem1 t (CStr.drop (utf8_next_len word) word)
        = rem2 t (CStr.drop (utf8_next_len word) word)) →
  trie_remove_body rem1 trie word = trie_remove_body rem2 trie word.
Proof.
  intros Hw. unfold trie_remove_body.
  destruct (trie_value trie); [done|].
  destruct (trie_subtries trie) as [subs|]; [|done].
  destruct (CStr.at_end word) eqn:E; [done|].
  destruct (HT.lookup _ subs) as [sub|]; [|done].
  simpl. by rewrite Hw.
Qed.

Lemma trie_remove_n_enough n1 n2 trie word :
  (CStr.len word < n1)%nat → (CStr.len word < n2)%nat →
  trie_remove_n n1 trie word = trie_remove_n n2 trie word.
Proof.
  revert n2 trie word. induction n1 as [|n1 IH]; intros [|n2] trie word H1 H2;
    try lia.
  simpl. apply trie_remove_body_ext.
  intros E t. pose proof (cstr_len_drop_next word E). apply IH; lia.
Qed.

Lemma trie_remove_eq trie word :
  trie_remove trie word = trie_remove_body trie_remove trie word.
Proof.
  unfold trie_remove at 1. simpl trie_remove_n.
  apply trie_remove_body_ext.
  intros E t. pose proof (cstr_len_drop_next word E).
  apply trie_remove_n_enough; lia.
Qed.

(** ** Inserting into a Leaf that holds the same word *)

Lemma enchant_trie_insert_None word :
  enchant_trie_insert None word = Leaf word.
Proof. reflexivity. Qed.

Lemma ht_insert_single (k : string) (v v' : EnchantTrie) :
  HT.insert k v' [(k, v)] = [(k, v')].
Proof. simpl. by rewrite cstr_eqb_refl. Qed.

Lemma insert_same_into_leaf_n n v :
  (CStr.len v ≤ n)%nat →
  enchant_trie_insert (Some (Leaf v)) v = eos_chain_n n v.
Proof.
  revert v. induction n as [|n IH]; intros v Hn.
  - assert (E : CStr.at_end v = true) by (apply cstr_at_end_len; lia).
    rewrite enchant_trie_insert_eq. unfold trie_insert_body; simpl.
    unfold insert_into_subtries. rewrite E. simpl.
    by rewrite ?cstr_eqb_refl.
  - rewrite enchant_trie_insert_eq. unfold trie_insert_body; simpl.
    unfold insert_into_subtries.
    destruct (CStr.at_end v) eqn:E.
    + simpl. by rewrite ?cstr_eqb_refl.
    + rewrite enchant_trie_insert_None. simpl. rewrite ?cstr_eqb_refl.
      unfold Branch. do 4 f_equal. apply IH.
      pose proof (cstr_len_drop_next v E). lia.
Qed.

(** C5 (as amended).  The code has no equality test in the Leaf arm of
    [enchant_trie_insert]: inserting [v] into [Leaf v] promotes the node
    to a Branch and reinserts [v] twice, which yields the chain of
    single-child Branch nodes spelling [v] and ending in the
    end-of-string marker, for every [v]. *)
Theorem insert_same_into_leaf_gives_chain (v : string) :
  enchant_trie_insert (Some (Leaf v)) v = eos_chain v.
Proof. by apply insert_same_into_leaf_n. Qed.

(** C5 as stated fails: inserting "a" into [Leaf "a"] does not give back
    [Leaf "a"]. *)
Lemma insert_same_into_leaf_not_noop :
  enchant_trie_insert (Some (Leaf "a")) "a" ≠ Leaf "a".
Proof. vm_compute. discriminate. Qed.

(** ** Adding a word to the list *)

Section AddProperties.
Context `{UnicodeTables}.
Variable BUFSIZ : nat.

Lemma add_to_trie_known pwl word :
  is_Some (words_in_trie pwl !! g_utf8_normalize_nfd word) →
  enchant_pwl_add_to_trie pwl word = pwl.
Proof. intros [orig E]. unfold enchant_pwl_add_to_trie. by rewrite E. Qed.

Lemma add_to_trie_makes_known pwl word :
  is_Some (words_in_trie (enchant_pwl_add_to_trie pwl word)
             !! g_utf8_normalize_nfd word).
Proof.
  unfold enchant_pwl_add_to_trie.
  destruct (words_in_trie pwl !! _) eqn:E; simpl.
  - by rewrite E.
  - by rewrite lookup_insert_eq.
Qed.

(** C10.  When the NFD form of [word] is already a key of
    [words_in_trie], [enchant_pwl_add_to_trie] returns the word list
    unchanged: the trie is the one it was given (no insert took place)
    and the key still maps to the form stored first. *)
Theorem add_to_trie_known_key_is_noop pwl word orig :
  words_in_trie pwl !! g_utf8_normalize_nfd word = Some orig →
  enchant_pwl_add_to_trie pwl word = pwl
  ∧ trie (enchant_pwl_add_to_trie pwl word) = trie pwl
  ∧ words_in_trie (enchant_pwl_add_to_trie pwl word)
      !! g_utf8_normalize_nfd word = Some orig.
Proof.
  intros E. rewrite add_to_trie_known; [done|]. by exists orig.
Qed.
End AddProperties.

Lemma add_to_trie_known_key_is_noop_witness :
  let pwl :=
    enchant_pwl_add_to_trie (H := AsciiTables.tables) enchant_pwl_init "Hello" in
  words_in_trie pwl !! "Hello" = Some "Hello"
  ∧ enchant_pwl_add_to_trie (H := AsciiTables.tables) pwl "Hello" = pwl.
Proof.
  intros pwl.
  assert (E : words_in_trie pwl !! "Hello" = Some "Hello") by (vm_compute; reflexivity).
  split; [exact E|].
  exact (proj1 (add_to_trie_known_key_is_noop (H := AsciiTables.tables)
                  pwl "Hello" "Hello" E)).
Defined.

(** *** Adding the same word twice *)

Lemma last_byte_app_newline s : last_byte (s ++ newline) = 10%N.
Proof.
  induction s as [|c s IH]; [done|].
  change (String c s +:+ newline) with (String c (s +:+ newline)).
  simpl. rewrite IH. by destruct (s +:+ newline).
Qed.

Lemma at_end_app_newline s : CStr.at_end (s ++ newline) = false.
Proof. by destruct s. Qed.

Lemma string_app_assoc (a b c : string) :
  ((a ++ b) ++ c = a ++ (b ++ c))%string.
Proof.
  induction a as [|x a IH]; [done|].
  change (String x ((a +:+ b) +:+ c) = String x (a +:+ (b +:+ c))).
  by rewrite IH.
Qed.

Section AddTwice.
Context `{UnicodeTables}.
Variable BUFSIZ : nat.

Lemma pwl_add_append_again disk word now1 now2 :
  contents (pwl_add_append (Some (pwl_add_append disk word now1)) word now2)
  = (contents (pwl_add_append disk word now1) ++ word ++ newline)%string.
Proof.
  unfold pwl_add_append at 1. cbn [contents st_mtime].
  fold newline. set (c1 := contents _).
  assert (E : ∃ s, c1 = (s ++ newline)%string).
  { unfold c1, pwl_add_append. cbn [contents]. fold newline.
    eexists. by rewrite <- string_app_assoc. }
  destruct E as [s ->].
  by rewrite at_end_app_newline, last_byte_app_newline.
Qed.

End AddTwice.


(** ** The table of edit_dist *)

Lemma MIN_min a b : MIN a b = Z.min a b.
Proof. unfold MIN. destruct (Z.ltb_spec a b); lia. Qed.

Lemma foldl_seq_invariant {A} (P : nat → A → Prop) (f : A → nat → A) a s n :
  P s a →
  (∀ i x, (s ≤ i < s + n)%nat → P i x → P (S i) (f x i)) →
  P (s + n)%nat (foldl f a (seq s n)).
Proof.
  revert s a. induction n as [|n IH]; intros s a Ha Hstep; simpl.
  - by rewrite Nat.add_0_r.
  - replace (s + S n)%nat with (S s + n)%nat by lia.
    apply IH.
    + apply Hstep; [lia|done].
    + intros i x Hi. apply Hstep. lia.
Qed.

Lemma dl_spec_row0 a b j : dl_spec a b 0 j = Z.of_nat j.
Proof. reflexivity. Qed.

Lemma dl_spec_col0 a b i : dl_spec a b i 0 = Z.of_nat i.
Proof. by destruct i. Qed.

Lemma index_eq_iff (w i j i' j' : nat) :
  (j < w)%nat → (j' < w)%nat →
  (i * w + j = i' * w + j')%nat ↔ i = i' ∧ j = j'.
Proof.
  intros Hj Hj'. split; [|by intros [-> ->]]. intros E.
  assert (i = i') as -> by nia. split; [done|lia].
Qed.

Section EditDistTable.
Variables word1 word2 : list Z.
Let len1 := length word1.
Let len2 := length word2.
Let w := (len2 + 1)%nat.

Lemma table_index_lt i j :
  (i ≤ len1)%nat → (j ≤ len2)%nat → (i * w + j < (len1 + 1) * w)%nat.
Proof. unfold w. nia. Qed.

Lemma table_filled_unfold i j t :
  table_filled word1 word2 i j t ↔
  length t = ((len1 + 1) * w)%nat ∧
  ∀ i' j', (i' ≤ len1)%nat → (j' ≤ len2)%nat →
    (i' = 0 ∨ j' = 0 ∨ i' < i ∨ (i' = i ∧ j' < j))%nat →
    t !!! (i' * w + j')%nat = dl_spec word1 word2 i' j'.
Proof. reflexivity. Qed.

Lemma edit_dist_table_init :
  let table := replicate ((len1 + 1) * (len2 + 1)) 0 in
  let table :=
    foldl (λ t i, <[(i * (len2 + 1))%nat := Z.of_nat i]> t)
          table (seq 0 (len1 + 1)) in
  let table :=
    foldl (λ t i, <[i := Z.of_nat i]> t) table (seq 0 (len2 + 1)) in
  table_filled word1 word2 1 1 table.
Proof.
  intros t0 t1 t2.
  (* first loop: column 0 *)
  assert (H1 : length t1 = ((len1 + 1) * w)%nat ∧
               ∀ i', (i' < len1 + 1)%nat →
                     t1 !!! (i' * w)%nat = Z.of_nat i').
  { pose (P := λ (n : nat) (t : list Z),
               length t = ((len1 + 1) * w)%nat ∧
               ∀ i', (i' < n)%nat → (i' ≤ len1)%nat →
                     t !!! (i' * w)%nat = Z.of_nat i').
    assert (HP : P (0 + (len1 + 1))%nat t1).
    { apply foldl_seq_invariant.
      - split; [unfold t0, w; by rewrite length_replicate|]. intros; lia.
      - intros i x Hi [Hlen Hx]. split; [by rewrite length_insert|].
        intros i' Hi' Hle. fold w.
        destruct (decide (i' = i)) as [->|Hne].
        + apply list_lookup_total_insert_eq. rewrite Hlen.
          pose proof (table_index_lt i 0). lia.
        + rewrite list_lookup_total_insert_ne; [apply Hx; lia|].
          unfold w. nia. }
    destruct HP as [Hlen HP]. split; [done|]. intros i' Hi'. apply HP; lia. }
  destruct H1 as [Hlen1 H1].
  pose (P := λ (n : nat) (t : list Z),
             length t = ((len1 + 1) * w)%nat ∧
             (∀ i', (i' ≤ len1)%nat → t !!! (i' * w)%nat = Z.of_nat i') ∧
             ∀ j', (j' < n)%nat → (j' ≤ len2)%nat → t !!! j' = Z.of_nat j').
  assert (HP : P (0 + (len2 + 1))%nat t2).
  { apply foldl_seq_invariant.
    - split; [done|]. split; [intros; apply H1; lia|intros; lia].
    - intros j x Hj (Hlen & Hc & Hr). split; [by rewrite length_insert|]. split.
      + intros i' Hi'.
        destruct (decide (i' * w = j)%nat) as [E|Hne].
        * rewrite E. rewrite list_lookup_total_insert_eq.
          -- assert (i' = 0)%nat as -> by (unfold w in E; nia). lia.
          -- rewrite Hlen. unfold w. nia.
        * rewrite list_lookup_total_insert_ne by done. by apply Hc.
      + intros j' Hj' Hle.
        destruct (decide (j' = j)) as [->|Hne].
        * apply list_lookup_total_insert_eq. rewrite Hlen. unfold w. nia.
        * rewrite list_lookup_total_insert_ne by done. apply Hr; lia. }
  destruct HP as (Hlen & Hc & Hr). apply table_filled_unfold. split; [done|].
  intros i' j' Hi' Hj' Hcase.
  assert (i' = 0 ∨ j' = 0)%nat as [->| ->] by lia.
  - simpl. apply Hr; lia.
  - rewrite Nat.add_0_r, dl_spec_col0. by apply Hc.
Qed.

Lemma dl_spec_step i j :
  (1 ≤ i)%nat → (1 ≤ j)%nat →
  dl_spec word1 word2 i j =
    let cost := if word1 !!! (i - 1)%nat =? word2 !!! (j - 1)%nat then 0 else 1 in
    let d := Z.min (Z.min (dl_spec word1 word2 (i - 1) j + 1)
                          (dl_spec word1 word2 i (j - 1) + 1))
                   (dl_spec word1 word2 (i - 1) (j - 1) + cost) in
    if bool_decide (1 < i)%nat && bool_decide (1 < j)%nat
       && (word1 !!! (i - 1)%nat =? word2 !!! (j - 2)%nat)
       && (word1 !!! (i - 2)%nat =? word2 !!! (j - 1)%nat)
    then Z.min d (dl_spec word1 word2 (i - 2) (j - 2) + cost)
    else d.
Proof.
  intros Hi Hj. destruct i as [|i]; [lia|]. destruct j as [|j]; [lia|].
  cbn [dl_spec]. cbv zeta.
  replace (S i - 1)%nat with i by lia. replace (S j - 1)%nat with j by lia.
  replace (S i - 2)%nat with (i - 1)%nat by lia.
  replace (S j - 2)%nat with (j - 1)%nat by lia.
  assert (Hb : ∀ n, bool_decide (1 < S n)%nat = bool_decide (1 ≤ n)%nat).
  { intros n. apply bool_decide_ext. lia. }
  rewrite !Hb.
  destruct (bool_decide (1 ≤ i)%nat) eqn:Ei; [|done].
  apply bool_decide_eq_true in Ei.
  destruct i as [|i']; [lia|].
  replace (S i' - 1)%nat with i' by lia. reflexivity.
Qed.

Lemma edit_dist_cell_filled t i j :
  (1 ≤ i ≤ len1)%nat → (1 ≤ j ≤ len2)%nat →
  table_filled word1 word2 i j t →
  table_filled word1 word2 i (S j) (edit_dist_cell word1 word2 t i j).
Proof.
  intros Hi Hj [Hlen Ht]%table_filled_unfold.
  fold len1 len2 in Hlen, Ht. fold w in Hlen, Ht.
  unfold edit_dist_cell. fold len2 w.
  apply table_filled_unfold. split; [by rewrite length_insert|].
  intros i' j' Hi' Hj' Hcase.
  destruct (decide (i' = i ∧ j' = j)) as [[-> ->]|Hne].
  - rewrite list_lookup_total_insert_eq
      by (rewrite Hlen; by apply table_index_lt).
    rewrite (dl_spec_step i j) by lia. cbv zeta.
    rewrite !MIN_min.
    rewrite (Ht (i - 1) j)%nat by lia.
    rewrite (Ht i (j - 1))%nat by lia.
    rewrite (Ht (i - 1) (j - 1))%nat by lia.
    destruct (bool_decide (1 < i)%nat && bool_decide (1 < j)%nat && _ && _) eqn:Etr.
    + rewrite ?MIN_min.
      rewrite (Ht (i - 2) (j - 2))%nat.
      * lia.
      * lia.
      * lia.
      * apply andb_prop in Etr as [Etr _]. apply andb_prop in Etr as [Etr _].
        apply andb_prop in Etr as [Etr _]. apply bool_decide_eq_true in Etr. lia.
    + lia.
  - rewrite list_lookup_total_insert_ne.
    + apply Ht; try done. lia.
    + intros E. apply index_eq_iff in E; unfold w; lia.
Qed.

Lemma edit_dist_table_filled :
  table_filled word1 word2 (S len1) 1 (edit_dist_table word1 word2).
Proof.
  unfold edit_dist_table. fold len1 len2.
  pose proof edit_dist_table_init as H0. cbv zeta in H0.
  set (t0 := foldl _ (foldl _ _ _) _) in *.
  change (S len1) with (1 + len1)%nat.
  apply (foldl_seq_invariant (λ i t, table_filled word1 word2 i 1 t)); [done|].
  intros i t Hi Hrow.
  assert (Hin : table_filled word1 word2 i (1 + len2)
                  (foldl (λ t j, edit_dist_cell word1 word2 t i j) t (seq 1 len2))).
  { apply (foldl_seq_invariant (λ j t, table_filled word1 word2 i j t)); [done|].
    intros j x Hj Hx. apply edit_dist_cell_filled; [lia|lia|done]. }
  apply table_filled_unfold in Hin as [Hlen Hin].
  apply table_filled_unfold. split; [done|].
  intros i' j' Hi' Hj' Hcase. apply Hin; try done. lia.
Qed.

Lemma edit_dist_ucs4_spec :
  edit_dist_ucs4 word1 word2 = dl_spec word1 word2 len1 len2.
Proof.
  unfold edit_dist_ucs4. fold len1 len2.
  destruct (proj1 (table_filled_unfold _ _ _) edit_dist_table_filled)
    as [_ Ht].
  apply (Ht len1 len2); lia.
Qed.
End EditDistTable.

(** C3.  [edit_dist] returns the entry [d[m][n]] of the table the
    specification describes, [m] and [n] being the numbers of Unicode
    scalars (not bytes) of the two words; the transposition entry
    [d[i-2][j-2] + cost] is charged the same [cost] as a substitution. *)
Theorem edit_dist_is_spec_table (utf8word1 utf8word2 : string) :
  let a := g_utf8_to_ucs4_fast utf8word1 in
  let b := g_utf8_to_ucs4_fast utf8word2 in
  edit_dist utf8word1 utf8word2 = dl_spec a b (length a) (length b).
Proof. intros a b. apply edit_dist_ucs4_spec. Qed.

(** One scalar of three bytes against one of one byte; two adjacent
    scalars swapped. *)
Example edit_dist_counts_scalars :
  edit_dist "€" "a" = 1 ∧ edit_dist "ab" "ba" = 1 ∧ edit_dist "abcd" "acbd" = 1.
Proof. by vm_compute. Qed.

(** ** Invariants of the matcher walk *)

Section MatcherInvariant.
Context `{UnicodeTables} {A : Type}.
Variable cbfunc : string → EnchantTrieMatcher A → EnchantTrieMatcher A.

(** A property of the matcher that does not look at the fields the walk
    itself assigns, and that the callback keeps whenever it is called
    within the error budget. *)
Variable I : EnchantTrieMatcher A → Prop.
Hypothesis I_num_errors : ∀ e m, I m → I (set_num_errors e m).
Hypothesis I_word_pos : ∀ p m, I m → I (set_word_pos p m).
Hypothesis I_path : ∀ p m, I m → I (set_path p m).
Hypothesis I_cbfunc :
  ∀ s m, I m → num_errors m ≤ max_errors m → I (cbfunc s m).

Lemma I_pushpath m s : I m → I (enchant_trie_matcher_pushpath m s).
Proof. apply I_path. Qed.

Lemma I_poppath m k : I m → I (enchant_trie_matcher_poppath m k).
Proof. apply I_path. Qed.

Lemma I_emit m s :
  I m → I (if num_errors m <=? max_errors m then cbfunc s m else m).
Proof.
  intros Hm. destruct (Z.leb_spec (num_errors m) (max_errors m)); [|done].
  by apply I_cbfunc.
Qed.

Section Step.
Variable find_matches :
  option EnchantTrie → EnchantTrieMatcher A → EnchantTrieMatcher A.
Hypothesis I_rec : ∀ t m, I m → I (find_matches t m).

Lemma I_find_matches_cb key subtrie m :
  I m → I (enchant_trie_find_matches_cb find_matches key subtrie m).
Proof.
  intros Hm. unfold enchant_trie_find_matches_cb.
  case_match; [done|].
  destruct (enchant_trie_get_subtrie _ _ _) as [[subtrie2|] key2];
    [case_match|];
    repeat first [ done | apply I_word_pos | apply I_poppath | apply I_rec
                 | apply I_pushpath ].
Qed.

Lemma I_foreach subtries m :
  I m → I (foreach_find_matches_cb find_matches subtries m).
Proof.
  destruct subtries as [subs|]; [|done]. simpl.
  revert m. induction subs as [|kv subs IH]; intros m Hm; [done|].
  simpl. apply IH. by apply I_find_matches_cb.
Qed.

Lemma I_find_matches_body trie m :
  I m → I (find_matches_body cbfunc find_matches trie m).
Proof.
  intros Hm. unfold find_matches_body.
  destruct trie as [t|]; [|done].
  case_match; [done|].
  destruct t as [|[tvalue|] subtries].
  - apply I_num_errors, I_emit. case_match; [by apply I_num_errors|done].
  - apply I_num_errors. apply I_emit. by apply I_num_errors.
  - destruct (enchant_trie_get_subtrie _ _ _) as [subtrie nxtChS].
    apply I_num_errors, I_foreach.
    destruct subtrie as [subtrie|];
      repeat first [ done | apply I_num_errors | apply I_word_pos
                   | apply I_poppath | apply I_pushpath | apply I_rec
                   | case_match ].
Qed.
End Step.

Lemma find_matches_n_invariant n trie m :
  I m → I (find_matches_n cbfunc n trie m).
Proof.
  revert trie m. induction n as [|n IH]; intros trie m Hm; [done|].
  simpl. by apply I_find_matches_body.
Qed.

Lemma enchant_trie_find_matches_invariant trie m :
  I m → I (enchant_trie_find_matches cbfunc trie m).
Proof. apply find_matches_n_invariant. Qed.
End MatcherInvariant.

(** ** The recursion depth of the walk *)

Lemma trie_height_lookup k subs sub v :
  HT.lookup k subs = Some sub →
  (trie_height sub < trie_height (Node v (Some subs)))%nat.
Proof.
  simpl. induction subs as [|[k' s] subs IH]; [done|]. simpl.
  destruct (CStr.eqb k k').
  - intros [= ->]. lia.
  - intros Hl. apply IH in Hl. lia.
Qed.

Section MatcherFrame.
Context `{UnicodeTables} {A : Type}.
Implicit Type m : EnchantTrieMatcher A.

Lemma word_set_num_errors e m : word (set_num_errors e m) = word m.
Proof. done. Qed.
Lemma word_set_word_pos p m : word (set_word_pos p m) = word m.
Proof. done. Qed.
Lemma word_pushpath m s : word (enchant_trie_matcher_pushpath m s) = word m.
Proof. done. Qed.
Lemma word_poppath m k : word (enchant_trie_matcher_poppath m k) = word m.
Proof. done. Qed.
Lemma word_pos_set_num_errors e m :
  word_pos (set_num_errors e m) = word_pos m.
Proof. done. Qed.
Lemma word_pos_set_word_pos p m : word_pos (set_word_pos p m) = p.
Proof. done. Qed.
Lemma word_pos_pushpath m s :
  word_pos (enchant_trie_matcher_pushpath m s) = word_pos m.
Proof. done. Qed.
Lemma word_pos_poppath m k :
  word_pos (enchant_trie_matcher_poppath m k) = word_pos m.
Proof. done. Qed.
Lemma word_rest_set_num_errors e m :
  word_rest (set_num_errors e m) = word_rest m.
Proof. done. Qed.
Lemma word_rest_pushpath m s :
  word_rest (enchant_trie_matcher_pushpath m s) = word_rest m.
Proof. done. Qed.
Lemma word_rest_poppath m k :
  word_rest (enchant_trie_matcher_poppath m k) = word_rest m.
Proof. done. Qed.

Variable cbfunc : string → EnchantTrieMatcher A → EnchantTrieMatcher A.
Hypothesis cbfunc_keeps : ∀ s, keeps_word (cbfunc s).

Lemma keeps_word_rest f m : keeps_word f → word_rest (f m) = word_rest m.
Proof. intros Hf. unfold word_rest. by destruct (Hf m) as [-> ->]. Qed.

Section Step.
Variable find_matches :
  option EnchantTrie → EnchantTrieMatcher A → EnchantTrieMatcher A.
Hypothesis rec_keeps : ∀ t, keeps_word (find_matches t).

Ltac keep :=
  repeat first
    [ rewrite word_set_num_errors | rewrite word_set_word_pos
    | rewrite word_pushpath | rewrite word_poppath
    | rewrite word_pos_set_num_errors | rewrite word_pos_set_word_pos
    | rewrite word_pos_pushpath | rewrite word_pos_poppath
    | rewrite (proj1 (rec_keeps _ _)) | rewrite (proj2 (rec_keeps _ _))
    | rewrite (proj1 (cbfunc_keeps _ _)) | rewrite (proj2 (cbfunc_keeps _ _)) ].

Lemma find_matches_cb_keeps key subtrie :
  keeps_word (enchant_trie_find_matches_cb find_matches key subtrie).
Proof.
  intros m. unfold enchant_trie_find_matches_cb.
  case_match; [done|].
  destruct (enchant_trie_get_subtrie _ _ _) as [[subtrie2|] key2];
    [case_match|]; by keep.
Qed.

Lemma foreach_keeps subtries :
  keeps_word (foreach_find_matches_cb find_matches subtries).
Proof.
  intros m. destruct subtries as [subs|]; [|done]. simpl.
  revert m. induction subs as [|kv subs IH]; intros m; [done|]. simpl.
  destruct (IH (enchant_trie_find_matches_cb find_matches kv.1 kv.2 m))
    as [-> ->].
  apply find_matches_cb_keeps.
Qed.

Lemma find_matches_body_keeps trie :
  keeps_word (find_matches_body cbfunc find_matches trie).
Proof.
  intros m. unfold find_matches_body.
  destruct trie as [t|]; [|done].
  case_match; [done|].
  destruct t as [|[tvalue|] subtries].
  - repeat case_match; by keep.
  - repeat case_match; by keep.
  - destruct (enchant_trie_get_subtrie _ _ _) as [subtrie nxtChS].
    keep.
    rewrite (proj1 (foreach_keeps _ _)), (proj2 (foreach_keeps _ _)).
    destruct subtrie; repeat case_match; by keep.
Qed.
End Step.

Lemma find_matches_n_keeps n trie : keeps_word (find_matches_n cbfunc n trie).
Proof.
  revert trie. induction n as [|n IH]; intros trie; [done|].
  simpl. by apply find_matches_body_keeps.
Qed.
End MatcherFrame.

Section MatcherFuel.
Context `{UnicodeTables} {A : Type}.
Implicit Type m : EnchantTrieMatcher A.
Variable cbfunc : string → EnchantTrieMatcher A → EnchantTrieMatcher A.
Hypothesis cbfunc_keeps : ∀ s, keeps_word (cbfunc s).

Lemma trie_height_elem k sub subs v :
  (k, sub) ∈ subs →
  (trie_height sub < trie_height (Node v (Some subs)))%nat.
Proof.
  simpl. induction subs as [|[k' s] subs IH]; [by intros ?%elem_of_nil|].
  intros Hin. apply elem_of_cons in Hin as [E|Hin].
  - injection E as -> ->. simpl. lia.
  - apply IH in Hin. simpl. lia.
Qed.

Lemma get_subtrie_height t m s sub s' :
  enchant_trie_get_subtrie t m s = (Some sub, s') →
  (trie_height sub < trie_height t)%nat.
Proof.
  unfold enchant_trie_get_subtrie.
  destruct t as [|v [subs|]]; simpl trie_subtries; [done| |done].
  destruct (mode m); destruct (HT.lookup s subs) as [x|] eqn:E;
    intros [= E' <-]; subst;
    first [ by apply (trie_height_lookup _ _ _ v) in E
          | by apply (trie_height_lookup _ _ _ v) in E' ].
Qed.

Lemma get_subtrie_frame t m m' s :
  mode m' = mode m →
  enchant_trie_get_subtrie t m' s = enchant_trie_get_subtrie t m s.
Proof. unfold enchant_trie_get_subtrie. by intros ->. Qed.

Section Step.
Variables rec1 rec2 :
  option EnchantTrie → EnchantTrieMatcher A → EnchantTrieMatcher A.
Hypothesis rec1_keeps : ∀ t, keeps_word (rec1 t).
Hypothesis rec2_keeps : ∀ t, keeps_word (rec2 t).

Ltac keep :=
  repeat first
    [ rewrite word_set_num_errors | rewrite word_set_word_pos
    | rewrite word_pushpath | rewrite word_poppath
    | rewrite word_pos_set_num_errors | rewrite word_pos_set_word_pos
    | rewrite word_pos_pushpath | rewrite word_pos_poppath
    | rewrite (proj1 (rec1_keeps _ _)) | rewrite (proj2 (rec1_keeps _ _))
    | rewrite (proj1 (rec2_keeps _ _)) | rewrite (proj2 (rec2_keeps _ _)) ].

Lemma find_matches_cb_ext key subtrie m :
  (∀ t' m', word m' = word m → (word_pos m ≤ word_pos m')%nat →
            (trie_height t' ≤ trie_height subtrie)%nat →
            rec1 (Some t') m' = rec2 (Some t') m') →
  enchant_trie_find_matches_cb rec1 key subtrie m
  = enchant_trie_find_matches_cb rec2 key subtrie m.
Proof.
  intros Hext. unfold enchant_trie_find_matches_cb.
  case_match; [done|].
  rewrite (Hext subtrie (enchant_trie_matcher_pushpath m key))
    by (keep; done || lia).
  rewrite (Hext subtrie (set_word_pos _ (rec2 _ _)))
    by (keep; done || lia).
  destruct (enchant_trie_get_subtrie _ _ _) as [[subtrie2|] key2] eqn:E;
    [|done].
  apply get_subtrie_height in E.
  case_match; [|done].
  rewrite (Hext subtrie2) by (keep; done || lia). done.
Qed.

Lemma foreach_ext subtries m :
  (∀ k sub t' m', (k, sub) ∈ default [] subtries →
                  word m' = word m → (word_pos m ≤ word_pos m')%nat →
                  (trie_height t' ≤ trie_height sub)%nat →
                  rec1 (Some t') m' = rec2 (Some t') m') →
  foreach_find_matches_cb rec1 subtries m
  = foreach_find_matches_cb rec2 subtries m.
Proof.
  destruct subtries as [subs|]; [|done]. simpl.
  revert m. induction subs as [|[k sub] subs IH]; intros m Hext; [done|].
  simpl. rewrite (find_matches_cb_ext k sub m).
  - apply IH. intros k' sub' t' m' Hin Hw Hp Hh.
    destruct (find_matches_cb_keeps rec2 rec2_keeps k sub m) as [Ew Ep].
    apply (Hext k' sub'); [by apply elem_of_cons; right|congruence|lia|done].
  - intros t' m' Hw Hp Hh.
    apply (Hext k sub); [by apply elem_of_cons; left|done..].
Qed.

Lemma find_matches_body_ext trie m :
  (∀ t' m', (find_matches_depth (Some t') m' < find_matches_depth trie m)%nat →
            rec1 (Some t') m' = rec2 (Some t') m') →
  find_matches_body cbfunc rec1 trie m = find_matches_body cbfunc rec2 trie m.
Proof.
  intros Hext. unfold find_matches_body.
  destruct trie as [t|]; [|done].
  case_match; [done|].
  destruct t as [|[tvalue|] subtries]; [done..|].
  destruct (enchant_trie_get_subtrie _ _ _) as [subtrie nxtChS] eqn:E.
  assert (E1 :
    match subtrie with
    | Some subtrie0 =>
        enchant_trie_matcher_poppath
          (set_word_pos (word_pos (enchant_trie_matcher_pushpath m nxtChS))
             (rec1 (Some subtrie0)
                (set_word_pos (word_pos m + utf8_next_len (word_rest m))
                   (enchant_trie_matcher_pushpath m nxtChS))))
          (CStr.len nxtChS)
    | None => m
    end
    = match subtrie with
      | Some subtrie0 =>
          enchant_trie_matcher_poppath
            (set_word_pos (word_pos (enchant_trie_matcher_pushpath m nxtChS))
               (rec2 (Some subtrie0)
                  (set_word_pos (word_pos m + utf8_next_len (word_rest m))
                     (enchant_trie_matcher_pushpath m nxtChS))))
            (CStr.len nxtChS)
      | None => m
      end).
  { destruct subtrie as [sub|]; [|done].
    apply get_subtrie_height in E.
    rewrite Hext; [done|]. unfold find_matches_depth. keep. lia. }
  rewrite E1. clear E1.
  set (m1 := match subtrie with Some _ => _ | None => m end).
  assert (Hm1 : word m1 = word m ∧ word_pos m1 = word_pos m).
  { unfold m1. destruct subtrie; by keep. }
  destruct Hm1 as [Hw1 Hp1].
  set (m2 := set_num_errors (num_errors m1 + 1) m1).
  assert (E2 :
    (if CStr.at_end (word_rest m2) then m2
     else set_word_pos (word_pos m2)
            (rec1 (Some (Node None subtries))
               (set_word_pos (word_pos m + utf8_next_len (word_rest m)) m2)))
    = (if CStr.at_end (word_rest m2) then m2
       else set_word_pos (word_pos m2)
              (rec2 (Some (Node None subtries))
                 (set_word_pos (word_pos m + utf8_next_len (word_rest m)) m2)))).
  { destruct (CStr.at_end (word_rest m2)) eqn:Eend; [done|].
    rewrite Hext; [done|].
    assert (Hlt : (word_pos m < CStr.len (word m))%nat).
    { destruct (decide (word_pos m < CStr.len (word m))%nat) as [|Hge];
        [done|].
      assert (CStr.at_end (word_rest m2) = true); [|congruence].
      apply cstr_at_end_len. unfold word_rest, m2. keep.
      rewrite Hw1, Hp1, cstr_len_drop. lia. }
    pose proof (utf8_next_len_pos (word_rest m)).
    unfold find_matches_depth, m2. keep. rewrite Hw1. lia. }
  rewrite E2. clear E2.
  set (m3 := if CStr.at_end (word_rest m2) then m2 else _).
  assert (Hm3 : word m3 = word m ∧ word_pos m3 = word_pos m).
  { unfold m3, m2. case_match; keep; done. }
  destruct Hm3 as [Hw3 Hp3].
  rewrite (foreach_ext subtries m3); [done|].
  intros k sub t' m' Hin Hw Hp Hh. apply Hext.
  destruct subtries as [subs|]; [|by apply elem_of_nil in Hin].
  apply (trie_height_elem _ _ _ None) in Hin.
  unfold find_matches_depth. rewrite Hw, Hw3. rewrite Hp3 in Hp.
  simpl in Hin |- *. lia.
Qed.
End Step.

(** Past [find_matches_depth] the bound on the depth is never reached:
    the walk is the same for every larger one. *)
Lemma find_matches_n_enough n1 n2 trie m :
  (find_matches_depth trie m ≤ n1)%nat →
  (find_matches_depth trie m ≤ n2)%nat →
  find_matches_n cbfunc n1 trie m = find_matches_n cbfunc n2 trie m.
Proof.
  revert n2 trie m. induction n1 as [|n1 IH]; intros n2 trie m H1 H2.
  { destruct trie; simpl in H1; lia. }
  destruct n2 as [|n2]; [destruct trie; simpl in H2; lia|].
  simpl. apply find_matches_body_ext;
    try (intros t; exact (find_matches_n_keeps cbfunc cbfunc_keeps _ t)).
  intros t' m' Hlt. apply IH; lia.
Qed.

(** [enchant_trie_find_matches] satisfies the recursive equation of the
    source function. *)
Lemma enchant_trie_find_matches_eq trie m :
  enchant_trie_find_matches cbfunc trie m
  = find_matches_body cbfunc (enchant_trie_find_matches cbfunc) trie m.
Proof.
  unfold enchant_trie_find_matches at 1.
  destruct (find_matches_depth trie m) as [|n] eqn:En.
  { destruct trie; simpl in En; lia. }
  simpl. apply find_matches_body_ext;
    try (intros t m0; exact (find_matches_n_keeps cbfunc cbfunc_keeps _ t m0)).
  intros t' m' Hlt. unfold enchant_trie_find_matches.
    apply find_matches_n_enough; lia.
Qed.
End MatcherFuel.

Lemma enchant_pwl_check_cb_keeps s : keeps_word (enchant_pwl_check_cb s).
Proof. done. Qed.

Lemma enchant_pwl_suggest_cb_keeps s : keeps_word (enchant_pwl_suggest_cb s).
Proof.
  intros m. unfold enchant_pwl_suggest_cb.
  repeat case_match; by destruct m.
Qed.

(** The two walks of the personal word list unfold as the source
    function does. *)
Lemma check_walk_unfold `{UnicodeTables} trie m :
  enchant_trie_find_matches enchant_pwl_check_cb trie m
  = find_matches_body enchant_pwl_check_cb
      (enchant_trie_find_matches enchant_pwl_check_cb) trie m.
Proof.
  apply enchant_trie_find_matches_eq, enchant_pwl_check_cb_keeps.
Qed.

Lemma suggest_walk_unfold `{UnicodeTables} trie m :
  enchant_trie_find_matches enchant_pwl_suggest_cb trie m
  = find_matches_body enchant_pwl_suggest_cb
      (enchant_trie_find_matches enchant_pwl_suggest_cb) trie m.
Proof.
  apply enchant_trie_find_matches_eq, enchant_pwl_suggest_cb_keeps.
Qed.

(** ** The suggestion list *)

Lemma sugg_find_loc_spec sl mtch errs k loc loc' :
  sugg_find_loc sl mtch errs k loc = Some loc' →
  (loc ≤ loc' ≤ loc + k)%nat
  ∧ ∀ i, (loc ≤ i < loc')%nat →
         sugg_errs sl !!! i ≤ errs ∧ suggs sl !!! i ≠ Some mtch.
Proof.
  revert loc. induction k as [|k IH]; intros loc; simpl.
  - intros [= <-]. split; [lia|]. intros; lia.
  - destruct (Z.ltb_spec errs (sugg_errs sl !!! loc)).
    { intros [= <-]. split; [lia|]. intros; lia. }
    case_bool_decide as Hdup; [done|].
    intros Hk. apply IH in Hk as [Hle Hk]. split; [lia|].
    intros i Hi. destruct (decide (i = loc)) as [->|]; [done|].
    apply Hk. lia.
Qed.

Lemma sugg_list_init_ok : sugg_list_ok sugg_list_init.
Proof.
  split; simpl; try done; try lia.
  - constructor.
  - constructor.
Qed.

Lemma suggest_cb_cbdata mtch m :
  sugg_list_ok (cbdata m) →
  sugg_list_ok (cbdata (enchant_pwl_suggest_cb mtch m))
  ∧ sugg_emission mtch (num_errors m) (cbdata m)
      (cbdata (enchant_pwl_suggest_cb mtch m)).
Proof.
  intros [Hls Hle Hcap Hsorted Hnodup Hsome].
  unfold enchant_pwl_suggest_cb.
  set (m' := if num_errors m <? max_errors m then _ else m).
  assert (Hd : cbdata m' = cbdata m) by (unfold m'; by case_match).
  assert (He : num_errors m' = num_errors m) by (unfold m'; by case_match).
  rewrite He.
  destruct (sugg_find_loc _ _ _ _ _) as [loc|] eqn:Eloc;
    [|rewrite Hd; split; [done|by left]].
  case_bool_decide as Hfit; [rewrite Hd; split; [done|by left]|].
  apply sugg_find_loc_spec in Eloc as [Hloc Hbefore].
  set (sl := cbdata m) in *. set (n := n_suggs sl) in *.
  set (errs := num_errors m) in *.
  unfold ENCHANT_PWL_MAX_SUGGS in *.
  assert (Hn' : Z.to_nat (Z.of_nat n + (1 - Z.of_nat (n - loc))) = S loc) by lia.
  cbn [cbdata set_cbdata].
  assert (Hsuggs : take (S loc) (<[loc := Some mtch]> (suggs sl))
                   = take loc (sugg_live_suggs sl) ++ [Some mtch]).
  { rewrite (take_S_r _ _ (Some mtch))
      by (apply list_lookup_insert_eq; lia).
    rewrite take_insert_ge by lia.
    unfold sugg_live_suggs. rewrite take_take. by rewrite Nat.min_l by lia. }
  assert (Herrs : take (S loc) (<[loc := errs]> (sugg_errs sl))
                  = take loc (sugg_live_errs sl) ++ [errs]).
  { rewrite (take_S_r _ _ errs) by (apply list_lookup_insert_eq; lia).
    rewrite take_insert_ge by lia.
    unfold sugg_live_errs. rewrite take_take. by rewrite Nat.min_l by lia. }
  assert (Hall : Forall (λ e, e ≤ errs) (take loc (sugg_live_errs sl))).
  { apply Forall_lookup. intros i e Hi.
    rewrite lookup_take in Hi. case_decide as Hlt; [|done].
    unfold sugg_live_errs in Hi. rewrite lookup_take in Hi.
    case_decide; [|done].
    apply list_lookup_total_correct in Hi as <-. apply Hbefore. lia. }
  split.
  - split; cbn [suggs sugg_errs n_suggs].
    + by rewrite length_insert.
    + by rewrite length_insert.
    + rewrite Hn'. unfold ENCHANT_PWL_MAX_SUGGS. lia.
    + unfold sugg_live_errs. cbn [suggs sugg_errs n_suggs].
      rewrite Hn', Herrs. apply StronglySorted_app. split_and!.
      * intros x1 x2 Hx1 Hx2. apply list_elem_of_singleton in Hx2 as ->.
        by eapply Forall_forall in Hall.
      * rewrite <- (take_drop loc (sugg_live_errs sl)) in Hsorted.
        by apply StronglySorted_app in Hsorted as (_ & ? & _).
      * repeat constructor.
    + unfold sugg_live_suggs. cbn [suggs sugg_errs n_suggs].
      rewrite Hn', Hsuggs. apply NoDup_app. split_and!.
      * rewrite <- (take_drop loc (sugg_live_suggs sl)) in Hnodup.
        by apply NoDup_app in Hnodup as (? & _).
      * intros x Hx Hx'. apply list_elem_of_singleton in Hx' as ->.
        apply elem_of_take in Hx as (i & Hi & Hlt).
        unfold sugg_live_suggs in Hi. rewrite lookup_take in Hi.
        case_decide; [|done].
        apply list_lookup_total_correct in Hi.
        by apply (Hbefore i); [lia|].
      * apply NoDup_singleton.
    + unfold sugg_live_suggs. cbn [suggs sugg_errs n_suggs].
      rewrite Hn', Hsuggs. apply Forall_app. split.
      * by apply Forall_take.
      * by repeat constructor.
  - right. exists loc. unfold sugg_live_suggs at 1, sugg_live_errs at 1.
    cbn [suggs sugg_errs n_suggs]. rewrite Hn'. by split_and!; [lia|..].
Qed.

Lemma sugg_list_emitted_ok sl : sugg_list_emitted sl → sugg_list_ok sl.
Proof.
  induction 1 as [|mtch m _ IH]; [apply sugg_list_init_ok|].
  by apply suggest_cb_cbdata.
Qed.

Section SuggestRun.
Context `{UnicodeTables}.

Lemma suggest_run_emitted n trie (m : EnchantTrieMatcher EnchantSuggList) :
  sugg_list_emitted (cbdata m) →
  sugg_list_emitted (cbdata (find_matches_n enchant_pwl_suggest_cb n trie m)).
Proof.
  apply (find_matches_n_invariant enchant_pwl_suggest_cb
           (λ m, sugg_list_emitted (cbdata m))); try done.
  intros s m' Hm' _. by apply emitted_cb.
Qed.

(** C9.  The list of [enchant_pwl_suggest] starts out empty and changes
    only through the emissions of the matcher.  After every emission
    (hence throughout the call and when the walk ends) its entries are in
    ascending order of error count, no string occurs twice and there are
    at most 15 of them; an emission either leaves the list alone or puts
    the match behind a prefix of the old entries whose error counts are
    all at most its own, so that ties keep their insertion order. *)
Theorem suggest_list_invariant :
  (∀ pwl word baseline,
     sugg_list_emitted (cbdata (pwl_suggest_matcher pwl word baseline)))
  ∧ (∀ sl, sugg_list_emitted sl →
       StronglySorted Z.le (sugg_live_errs sl)
       ∧ NoDup (sugg_live_suggs sl)
       ∧ (n_suggs sl ≤ 15)%nat)
  ∧ (∀ mtch m, sugg_list_emitted (cbdata m) →
       sugg_emission mtch (num_errors m) (cbdata m)
         (cbdata (enchant_pwl_suggest_cb mtch m))).
Proof.
  split_and!.
  - intros pwl word baseline. apply suggest_run_emitted. apply emitted_init.
  - intros sl Hsl. apply sugg_list_emitted_ok in Hsl as [].
    by split_and!.
  - intros mtch m Hm. by apply suggest_cb_cbdata, sugg_list_emitted_ok.
Qed.
End SuggestRun.

Lemma suggest_list_invariant_witness :
  let sl := cbdata (pwl_suggest_matcher (H := AsciiTables.tables)
                      (foldl (enchant_pwl_add_to_trie (H := AsciiTables.tables))
                             enchant_pwl_init ["hello"; "help"])
                      "helo" None) in
  StronglySorted Z.le (sugg_live_errs sl)
  ∧ NoDup (sugg_live_suggs sl)
  ∧ (n_suggs sl ≤ 15)%nat.
Proof.
  intros sl.
  destruct (suggest_list_invariant (H := AsciiTables.tables)) as (Hrun & Hinv & _).
  apply Hinv, Hrun.
Defined.

(** ** The walk without errors is an exact lookup *)

Lemma cstr_drop_add a b s : CStr.drop (a + b) s = CStr.drop b (CStr.drop a s).
Proof.
  revert s. induction a as [|a IH]; intros s; [done|].
  destruct s as [|c s]; simpl; [by destruct b|]. apply IH.
Qed.

Lemma cstr_len_app a b : CStr.len (a ++ b) = (CStr.len a + CStr.len b)%nat.
Proof.
  induction a as [|c a IH]; [done|].
  change (String c a +:+ b) with (String c (a +:+ b)).
  unfold CStr.len in *. simpl. by rewrite IH.
Qed.

Lemma cstr_take_app_len a b : CStr.take (CStr.len a) (a ++ b) = a.
Proof.
  induction a as [|c a IH]; [done|].
  change (String c a +:+ b) with (String c (a +:+ b)).
  unfold CStr.len in *. simpl. by rewrite IH.
Qed.

Lemma cstr_chop_app p k : CStr.chop (CStr.len k) (p ++ k) = p.
Proof.
  unfold CStr.chop. rewrite cstr_len_app.
  replace (CStr.len p + CStr.len k - CStr.len k)%nat with (CStr.len p) by lia.
  apply cstr_take_app_len.
Qed.

Lemma trie_has_branch subs rest :
  trie_has (Node None (Some subs)) rest
  = match HT.lookup (CStr.take (utf8_next_len rest) rest) subs with
    | Some sub => trie_has sub (CStr.drop (utf8_next_len rest) rest)
    | None => false
    end.
Proof.
  simpl. induction subs as [|[k sub] subs IH]; [done|].
  simpl. by destruct (CStr.eqb _ k).
Qed.

(** Unfolds the field updates of the matcher. *)
Ltac matcher_simpl :=
  cbv [set_num_errors set_max_errors set_word_pos set_path set_cbdata
       enchant_trie_matcher_pushpath enchant_trie_matcher_poppath word_rest
       num_errors max_errors word word_pos path mode cbdata].

Tactic Notation "matcher_simpl" "in" hyp(H) :=
  cbv [set_num_errors set_max_errors set_word_pos set_path set_cbdata
       enchant_trie_matcher_pushpath enchant_trie_matcher_poppath word_rest
       num_errors max_errors word word_pos path mode cbdata] in H.

Section ExactWalk.
Context `{UnicodeTables} {A : Type}.
Variable cbfunc : string → EnchantTrieMatcher A → EnchantTrieMatcher A.

(** Over the budget the walk returns at once. *)
Lemma find_matches_n_over n trie (m : EnchantTrieMatcher A) :
  max_errors m < num_errors m → find_matches_n cbfunc n trie m = m.
Proof.
  intros Hover. destruct n as [|n]; [done|]. simpl.
  destruct trie as [t|]; [|done]. simpl.
  by destruct (Z.ltb_spec (max_errors m) (num_errors m)); [|lia].
Qed.

Lemma find_matches_cb_over n key subtrie (m : EnchantTrieMatcher A) :
  max_errors m < num_errors m →
  enchant_trie_find_matches_cb (find_matches_n cbfunc n) key subtrie m = m.
Proof.
  intros Hover. unfold enchant_trie_find_matches_cb.
  destruct m as [e mx w p pa md c]. matcher_simpl in Hover.
  case_match; [done|].
  repeat match goal with
         | |- context [find_matches_n cbfunc ?n ?t ?m] =>
             rewrite (find_matches_n_over n t m) by (matcher_simpl; lia)
         end.
  destruct (enchant_trie_get_subtrie _ _ _) as [[subtrie2|] key2].
  - case_match.
    + rewrite find_matches_n_over by (matcher_simpl; lia). matcher_simpl.
      by rewrite !cstr_chop_app.
    + matcher_simpl. by rewrite cstr_chop_app.
  - matcher_simpl. by rewrite cstr_chop_app.
Qed.

Lemma foreach_over n subtries (m : EnchantTrieMatcher A) :
  max_errors m < num_errors m →
  foreach_find_matches_cb (find_matches_n cbfunc n) subtries m = m.
Proof.
  intros Hover. destruct subtries as [subs|]; [|done]. simpl.
  induction subs as [|kv subs IH]; [done|]. simpl.
  by rewrite find_matches_cb_over.
Qed.
End ExactWalk.

Section CheckWalk.
Context `{UnicodeTables}.

Lemma check_walk n t (m : EnchantTrieMatcher Z) :
  max_errors m = 0 → num_errors m = 0 → mode m = case_sensitive →
  (find_matches_depth (Some t) m ≤ n)%nat →
  find_matches_n enchant_pwl_check_cb n (Some t) m
  = set_cbdata (cbdata m + (if trie_has t (word_rest m) then 1 else 0)) m.
Proof.
  revert t m. induction n as [|n IH]; intros t m Hmax Hnum Hmode Hn.
  { simpl in Hn. lia. }
  destruct m as [e mx w p pa md c]. simpl in Hmax, Hnum, Hmode. subst e mx md.
  simpl find_matches_n. unfold find_matches_body.
  change (max_errors _ <? num_errors _) with false. cbv iota.
  destruct t as [|[tvalue|] subtries].
  - (* the end-of-string marker *)
    matcher_simpl. cbn [trie_has].
    case_bool_decide as Hlt.
    + assert (E : CStr.at_end (CStr.drop p w) = false).
      { destruct (CStr.at_end _) eqn:E; [|done].
        apply cstr_at_end_len in E. rewrite cstr_len_drop in E. lia. }
      rewrite E.
      destruct (Z.leb_spec (0 + Z.of_nat (CStr.len w) - Z.of_nat p) 0); [lia|].
      f_equal. lia.
    + assert (E : CStr.at_end (CStr.drop p w) = true).
      { apply cstr_at_end_len. rewrite cstr_len_drop. lia. }
      rewrite E. reflexivity.
  - (* a value *)
    matcher_simpl. cbn [trie_has]. rewrite Z.add_0_l.
    destruct (edit_dist tvalue (CStr.drop p w) <=? 0);
      unfold enchant_pwl_check_cb; matcher_simpl; f_equal; lia.
  - (* subtries *)
    set (rest := CStr.drop p w).
    set (nxt := utf8_next_len rest).
    assert (Hfor : ∀ m' : EnchantTrieMatcher Z,
               max_errors m' = 0 → num_errors m' = 0 →
               let m1 := set_num_errors (num_errors m' + 1) m' in
               let m2 := if CStr.at_end (word_rest m1) then m1
                         else set_word_pos (word_pos m1)
                                (find_matches_n enchant_pwl_check_cb n
                                   (Some (Node None subtries))
                                   (set_word_pos (p + nxt) m1)) in
               let m3 := foreach_find_matches_cb
                           (find_matches_n enchant_pwl_check_cb n) subtries m2 in
               set_num_errors (num_errors m3 - 1) m3 = m').
    { intros m' Hmx Hne m1 m2 m3.
      assert (H1 : max_errors m1 < num_errors m1)
        by (unfold m1; matcher_simpl; destruct m'; simpl in *; lia).
      assert (Hins : m2 = m1).
      { unfold m2. case_match; [done|].
        rewrite find_matches_n_over by (destruct m'; simpl in *; lia).
        by destruct m'. }
      unfold m3. rewrite Hins, foreach_over by done.
      unfold m1. destruct m'; simpl in *. matcher_simpl. f_equal. lia. }
    cbv zeta in Hfor.
    unfold enchant_trie_get_subtrie.
    matcher_simpl. cbn [trie_subtries]. fold rest. fold nxt.
    replace (p + nxt - p)%nat with nxt by lia.
    destruct subtries as [subs|].
    + rewrite trie_has_branch. fold nxt.
      destruct (HT.lookup (CStr.take nxt rest) subs) as [sub|] eqn:El;
        cbv beta iota zeta.
      * rewrite IH; try done.
        -- matcher_simpl. fold rest nxt. rewrite cstr_chop_app.
           rewrite cstr_drop_add. fold rest.
           apply (Hfor (mkMatcher 0 0 w p pa case_sensitive _)); done.
        -- apply (trie_height_lookup _ _ _ None) in El.
           simpl in Hn |- *. simpl in El. lia.
      * rewrite Z.add_0_r.
        apply (Hfor (mkMatcher 0 0 w p pa case_sensitive c)); done.
    + cbv beta iota zeta. cbn [trie_has]. rewrite Z.add_0_r.
      apply (Hfor (mkMatcher 0 0 w p pa case_sensitive c)); done.
Qed.

(** The normalized word fits the buffer allocated for it. *)
Lemma matcher_init_case_sensitive {A} word maxerrs (c : A) :
  -1 ≤ maxerrs →
  enchant_trie_matcher_init word maxerrs case_sensitive c
  = Some (matcher_fields word maxerrs case_sensitive c).
Proof.
  intros He. unfold enchant_trie_matcher_init, matcher_pattern.
  cbv zeta. by rewrite bool_decide_eq_true_2 by lia.
Qed.

(** [enchant_pwl_contains] is the exact lookup of the NFD form. *)
Lemma enchant_pwl_contains_trie_has pwl word :
  enchant_pwl_contains pwl word
  = pwl_trie_has (trie pwl) (g_utf8_normalize_nfd word).
Proof.
  unfold enchant_pwl_contains. cbv zeta.
  rewrite matcher_init_case_sensitive by done.
  unfold enchant_trie_find_matches, pwl_trie_has.
  destruct (trie pwl) as [t|]; [|done].
  rewrite check_walk; try done. simpl.
  by destruct (trie_has t _).
Qed.
End CheckWalk.

(** ** Checking a word *)

(** The scenarios of the specification: a lowercase entry is found for
    its title-case and all-caps spellings, a title-case entry is not
    found for the lowercase spelling, and an all-caps query finds the
    title-case entry. *)
Example pwl_check_scenarios :
  let add := enchant_pwl_add_to_trie (H := AsciiTables.tables) in
  let check p w :=
    (enchant_pwl_check (H := AsciiTables.tables) 512 p None w).1 in
  check (add enchant_pwl_init "hello") "hello" = 0
  ∧ check (add enchant_pwl_init "hello") "Hello" = 0
  ∧ check (add enchant_pwl_init "hello") "HELLO" = 0
  ∧ check (add enchant_pwl_init "Hello") "hello" = 1
  ∧ check (add enchant_pwl_init "Hello") "HELLO" = 0
  ∧ check (add enchant_pwl_init "hello") "hellO" = 1.
Proof. by vm_compute. Qed.

(** ** Reaching the end-of-string marker with input left *)

Section EosStep.
Context `{UnicodeTables} {A : Type}.
Variable cbfunc : string → EnchantTrieMatcher A → EnchantTrieMatcher A.

(** What the code does at the marker: the bytes left are added. *)
Lemma find_matches_eos (m : EnchantTrieMatcher A) :
  num_errors m ≤ max_errors m →
  let left := Z.of_nat (CStr.len (word_rest m)) in
  enchant_trie_find_matches cbfunc (Some EOSTrie) m
  = set_num_errors (num_errors m)
      (if num_errors m + left <=? max_errors m
       then cbfunc (path m) (set_num_errors (num_errors m + left) m)
       else set_num_errors (num_errors m + left) m).
Proof.
  intros Hle left. unfold enchant_trie_find_matches. simpl.
  destruct (Z.ltb_spec (max_errors m) (num_errors m)); [lia|].
  unfold left, word_rest. rewrite cstr_len_drop.
  destruct m as [e mx w p pa md c]. matcher_simpl. simpl in Hle.
  case_bool_decide as Hlt.
  - replace (e + Z.of_nat (CStr.len w) - Z.of_nat p)
      with (e + Z.of_nat (CStr.len w - p)) by lia.
    done.
  - replace (CStr.len w - p)%nat with 0%nat by lia.
    rewrite Z.add_0_r. by destruct (e <=? mx).
Qed.
End EosStep.

(** C4, the code at a failing input.  [enchant_pwl_suggest] on the
    list holding "a" and "ab", asked for "a€€" (U+20AC takes three
    bytes), visits the marker under "a" through the substitution move
    with one "€" left, [num_errors = 1] and [max_errors = 2].  One scalar
    is left and 1 + 1 is within the budget, yet the callback is not
    called and the walk returns the matcher as it was: the three bytes of
    the scalar were added.  With "axx" in place of "a€€" the callback is
    called at the same point. *)
Theorem eos_unconsumed_counted_in_bytes :
  let m : EnchantTrieMatcher (list string) :=
    mkMatcher 1 2 "a€€" 4 "a" case_insensitive [] in
  let m' : EnchantTrieMatcher (list string) :=
    mkMatcher 1 2 "axx" 2 "a" case_insensitive [] in
  let cb s (x : EnchantTrieMatcher (list string)) :=
    set_cbdata (s :: cbdata x) x in
  g_utf8_strlen (word_rest m) = 1
  ∧ num_errors m + g_utf8_strlen (word_rest m) ≤ max_errors m
  ∧ cbdata (enchant_trie_find_matches (H := AsciiTables.tables) cb
              (Some EOSTrie) m) = []
  ∧ cbdata (enchant_trie_find_matches (H := AsciiTables.tables) cb
              (Some EOSTrie) m') = ["a"].
Proof. by vm_compute. Qed.

(** The calls the callback of [enchant_pwl_suggest] receives on that
    list.  For "axx" the marker under "a" emits "a" once more after "ab"
    (a duplicate the callback drops); for "a€€" that call is missing. *)
Example eos_emissions_in_a_suggest_run :
  let pwl :=
    foldl (enchant_pwl_add_to_trie (H := AsciiTables.tables))
          enchant_pwl_init ["a"; "ab"] in
  let run w :=
    (cbdata (enchant_trie_find_matches (H := AsciiTables.tables)
               traced_suggest_cb (trie pwl)
               (matcher_fields (H := AsciiTables.tables) w 3
                  case_insensitive (sugg_list_init, [])))).2 in
  run "axx" = [("a", 2); ("a", 2); ("ab", 2); ("a", 2); ("ab", 2)]
  ∧ run "a€€" = [("a", 2); ("a", 2); ("ab", 2); ("ab", 2)].
Proof. by vm_compute. Qed.

(** ** What the suggestions are *)

Section Suggest.
Context `{UnicodeTables}.
Variable BUFSIZ : nat.

(** The result of a defined call is made from the list the matcher run
    leaves. *)
Lemma pwl_suggest_refreshed_unfold pwl word baseline :
  pwl_suggest_refreshed pwl word baseline
  = _ ← enchant_trie_matcher_init word (suggest_max_dist baseline word)
          case_insensitive sugg_list_init;
    enchant_pwl_case_and_denormalize_suggestions pwl word
      (sugg_live_suggs (cbdata (pwl_suggest_matcher pwl word baseline))).
Proof.
  unfold pwl_suggest_refreshed, pwl_suggest_matcher, enchant_trie_matcher_init.
  cbv zeta. by case_bool_decide.
Qed.

Lemma pwl_suggest_refreshed_Some pwl word baseline l :
  pwl_suggest_refreshed pwl word baseline = Some l →
  enchant_pwl_case_and_denormalize_suggestions pwl word
    (sugg_live_suggs (cbdata (pwl_suggest_matcher pwl word baseline)))
  = Some l.
Proof.
  rewrite pwl_suggest_refreshed_unfold. intros Hl.
  by apply bind_Some in Hl as (_ & _ & Hl).
Qed.

Lemma suggest_max_dist_le baseline word :
  suggest_max_dist baseline word ≤ ENCHANT_PWL_MAX_ERRORS.
Proof. unfold suggest_max_dist. rewrite MIN_min. lia. Qed.

Lemma suggest_cb_within_budget D mtch m :
  within_budget D m → num_errors m ≤ max_errors m →
  within_budget D (enchant_pwl_suggest_cb mtch m).
Proof.
  intros (Hem & Hmax & Hall) Hle.
  assert (Hok := sugg_list_emitted_ok _ Hem).
  destruct (suggest_cb_cbdata mtch m Hok) as [_ Hstep].
  split_and!.
  - by apply emitted_cb.
  - unfold enchant_pwl_suggest_cb.
    set (m' := if num_errors m <? max_errors m then _ else m).
    assert (max_errors m' ≤ D).
    { unfold m'. destruct (Z.ltb_spec (num_errors m) (max_errors m));
        simpl; lia. }
    by repeat case_match.
  - destruct Hstep as [->|(loc & _ & _ & -> & _)]; [done|].
    apply Forall_app. split; [by apply Forall_take|].
    repeat constructor. lia.
Qed.

Lemma suggest_run_within_budget pwl word baseline :
  within_budget (suggest_max_dist baseline word)
    (pwl_suggest_matcher pwl word baseline).
Proof.
  unfold pwl_suggest_matcher.
  apply (enchant_trie_find_matches_invariant enchant_pwl_suggest_cb
           (within_budget (suggest_max_dist baseline word))).
  - by intros e m Hm.
  - by intros p m Hm.
  - by intros p m Hm.
  - intros s m. apply suggest_cb_within_budget.
  - split_and!; [apply emitted_init|done|constructor].
Qed.

End Suggest.


(** ** Decoding well-formed UTF-8 is injective *)

Lemma lor_shiftl_6 wc y :
  0 ≤ wc → 0 ≤ y < 64 → Z.lor (Z.shiftl wc 6) y = wc * 64 + y.
Proof.
  intros Hwc Hy. rewrite Z.shiftl_mul_pow2 by lia.
  change (2 ^ 6) with 64.
  assert (Hland : Z.land (wc * 64) y = 0).
  { apply Z.bits_inj'. intros n Hn. rewrite Z.land_spec, Z.bits_0.
    destruct (Z.lt_ge_cases n 6) as [Hlt|Hge].
    - change 64 with (2 ^ 6). rewrite Z.mul_pow2_bits by lia.
      by rewrite (Z.testbit_neg_r wc (n - 6)) by lia.
    - destruct (decide (y = 0)) as [->|Hy0];
        [by rewrite Z.bits_0, andb_false_r|].
      rewrite (Z.bits_above_log2 y n); [by rewrite andb_false_r|lia|].
      assert (Z.log2 y < 6) by (apply Z.log2_lt_pow2; lia). lia. }
  rewrite <- Z.lxor_lor by done. symmetry. by apply Z.add_nocarry_lxor.
Qed.

Lemma utf8_cont_payload c :
  utf8_cont c = true →
  Z.land (byte_val c) 63 = byte_val c - 128 ∧ 128 ≤ byte_val c < 192.
Proof.
  unfold byte_val. destruct c as [[] [] [] [] [] [] [] []]; vm_compute; intros;
    try discriminate; repeat split; congruence.
Qed.

Lemma utf8_lead_payload_multi c :
  let b := byte_val c in
  192 ≤ b < 248 →
  utf8_lead_payload b
  = if b <? 224 then b - 192 else if b <? 240 then b - 224 else b - 240.
Proof.
  unfold byte_val.
  destruct c as [[] [] [] [] [] [] [] []]; vm_compute; intros [H1 H2];
    try reflexivity; exfalso; (by apply H1 || by apply H2 || congruence).
Qed.

Lemma ascii_byte_inj c1 c2 : N_of_ascii c1 = N_of_ascii c2 → c1 = c2.
Proof.
  intros E. rewrite <- (ascii_N_embedding c1), <- (ascii_N_embedding c2).
  by rewrite E.
Qed.


Ltac chunk_bounds :=
  repeat match goal with
    | H : _ && _ = true |- _ => apply andb_true_iff in H as [? ?]
    | H : utf8_cont _ = true |- _ =>
        apply utf8_cont_payload in H as [? ?]
    | H : (_ <=? _)%N = true |- _ => apply N.leb_le in H
    | H : (_ <? _)%N = true |- _ => apply N.ltb_lt in H
    | H : _ || _ = true |- _ => apply orb_true_iff in H as [?|?]
    end.

Lemma cstr_take_len s : CStr.take (CStr.len s) s = s.
Proof.
  induction s as [|c s IH]; [done|]. unfold CStr.len in *. simpl.
  by rewrite IH.
Qed.

Lemma utf8_chunk_next k :
  utf8_chunk k = true → utf8_next_len k = CStr.len k.
Proof.
  destruct k as [|c0 [|c1 [|c2 [|c3 [|c4 k]]]]]; try done; simpl; intros Hk;
    chunk_bounds; unfold utf8_next_len, g_utf8_skip; simpl;
    repeat (case N.ltb_spec; intros ?); try done; lia.
Qed.

Lemma utf8_chunk_nonempty k : utf8_chunk k = true → CStr.at_end k = false.
Proof. by destruct k. Qed.

Lemma utf8_chunk_get_char k :
  utf8_chunk k = true → g_utf8_get_char k = utf8_chunk_value k.
Proof.
  intros Hk. unfold g_utf8_get_char.
  rewrite (utf8_chunk_next k Hk), cstr_take_len.
  destruct k as [|c0 [|c1 [|c2 [|c3 [|c4 k]]]]]; try done;
    simpl in Hk; chunk_bounds; cbn [utf8_continue utf8_chunk_value];
    pose proof (utf8_lead_payload_multi c0) as Hlead; cbv zeta in Hlead;
    unfold byte_val in *.
  all: try (rewrite Hlead by lia).
  all: try (unfold utf8_lead_payload).
  all: repeat match goal with H : Z.land _ 63 = _ |- _ => rewrite H end.
  all: repeat (case Z.ltb_spec; intros ?); try lia.
  all: repeat match goal with
         | |- context [Z.lor (Z.shiftl ?a 6) ?b] =>
             rewrite (lor_shiftl_6 a b) by lia
         end.
  all: lia.
Qed.

Lemma utf8_chunk_value_inj k1 k2 :
  utf8_chunk k1 = true → utf8_chunk k2 = true →
  utf8_chunk_value k1 = utf8_chunk_value k2 → k1 = k2.
Proof.
  intros H1 H2 E.
  destruct k1 as [|a0 [|a1 [|a2 [|a3 [|a4 k1]]]]]; try done;
    destruct k2 as [|b0 [|b1 [|b2 [|b3 [|b4 k2]]]]]; try done;
    simpl in H1, H2; chunk_bounds; cbn [utf8_chunk_value] in E;
    unfold byte_val in *;
    try (exfalso; lia);
    repeat match goal with
      | |- String ?x _ = String ?y _ =>
          replace x with y by (apply ascii_byte_inj; lia); f_equal
      end; done.
Qed.

(** *** Strings of complete sequences *)

Lemma utf8_wf_n_enough n1 n2 s :
  (CStr.len s ≤ n1)%nat → (CStr.len s ≤ n2)%nat →
  utf8_wf_n n1 s = utf8_wf_n n2 s.
Proof.
  revert n2 s. induction n1 as [|n1 IH]; intros n2 s H1 H2.
  - assert (E : CStr.at_end s = true) by (apply cstr_at_end_len; lia).
    destruct n2; simpl; by rewrite E.
  - destruct (CStr.at_end s) eqn:E.
    + destruct n2; simpl; by rewrite E.
    + pose proof (cstr_len_drop_next s E).
      destruct n2 as [|n2]; [lia|].
      simpl. rewrite E. simpl. f_equal. apply IH; lia.
Qed.

Lemma utf8_wf_unfold s :
  utf8_wf s
  = CStr.at_end s
    || utf8_chunk (CStr.take (utf8_next_len s) s)
       && utf8_wf (CStr.drop (utf8_next_len s) s).
Proof.
  unfold utf8_wf at 1. destruct (CStr.at_end s) eqn:E.
  - destruct (CStr.len s); simpl; by rewrite E.
  - pose proof (cstr_len_drop_next s E).
    destruct (CStr.len s) as [|n] eqn:El; [lia|].
    simpl. rewrite E. simpl. f_equal. apply utf8_wf_n_enough; lia.
Qed.

Lemma utf8_wf_empty : utf8_wf EmptyString = true.
Proof. reflexivity. Qed.

Lemma utf8_wf_drop s :
  utf8_wf s = true → utf8_wf (CStr.drop (utf8_next_len s) s) = true.
Proof.
  rewrite utf8_wf_unfold. destruct (CStr.at_end s) eqn:E; simpl.
  - destruct s; [|done]. by destruct (utf8_next_len _).
  - by intros [_ ?]%andb_true_iff.
Qed.

Lemma utf8_wf_chunk s :
  utf8_wf s = true → CStr.at_end s = false →
  utf8_chunk (CStr.take (utf8_next_len s) s) = true.
Proof.
  rewrite utf8_wf_unfold. intros Hs E. rewrite E in Hs. simpl in Hs.
  by apply andb_true_iff in Hs as [? _].
Qed.

Lemma cstr_head_app k v :
  CStr.at_end k = false → CStr.head (k ++ v) = CStr.head k.
Proof. by destruct k. Qed.

Lemma cstr_drop_app_len a b : CStr.drop (CStr.len a) (a ++ b) = b.
Proof.
  induction a as [|c a IH]; [done|].
  change (String c a +:+ b) with (String c (a +:+ b)).
  unfold CStr.len in *. simpl. apply IH.
Qed.

(** A complete sequence in front of a string is its first sequence. *)
Lemma utf8_chunk_app_next k v :
  utf8_chunk k = true → utf8_next_len (k ++ v) = CStr.len k.
Proof.
  intros Hk. rewrite <- (utf8_chunk_next k Hk). unfold utf8_next_len.
  by rewrite cstr_head_app by by apply utf8_chunk_nonempty.
Qed.

Lemma utf8_chunk_app_take k v :
  utf8_chunk k = true → CStr.take (utf8_next_len (k ++ v)) (k ++ v) = k.
Proof. intros Hk. rewrite utf8_chunk_app_next by done. apply cstr_take_app_len. Qed.

Lemma utf8_chunk_app_drop k v :
  utf8_chunk k = true → CStr.drop (utf8_next_len (k ++ v)) (k ++ v) = v.
Proof. intros Hk. rewrite utf8_chunk_app_next by done. apply cstr_drop_app_len. Qed.

Lemma utf8_wf_app k v :
  utf8_chunk k = true → utf8_wf v = true → utf8_wf (k ++ v) = true.
Proof.
  intros Hk Hv. rewrite utf8_wf_unfold.
  rewrite utf8_chunk_app_take, utf8_chunk_app_drop by done.
  rewrite Hk, Hv. by rewrite orb_true_r.
Qed.

(** Two strings with the same first sequence and the same remainder. *)
Lemma cstr_split_eq a b :
  CStr.take (utf8_next_len a) a = CStr.take (utf8_next_len b) b →
  CStr.drop (utf8_next_len a) a = CStr.drop (utf8_next_len b) b →
  a = b.
Proof.
  intros Ht Hd.
  rewrite <- (cstr_take_drop (utf8_next_len a) a).
  rewrite <- (cstr_take_drop (utf8_next_len b) b). by rewrite Ht, Hd.
Qed.

(** *** The scalars of a string *)

Lemma utf8_to_ucs4_n_enough n1 n2 s :
  (CStr.len s ≤ n1)%nat → (CStr.len s ≤ n2)%nat →
  utf8_to_ucs4_n n1 s = utf8_to_ucs4_n n2 s.
Proof.
  revert n2 s. induction n1 as [|n1 IH]; intros n2 s H1 H2.
  - assert (E : CStr.at_end s = true) by (apply cstr_at_end_len; lia).
    destruct n2; simpl; by rewrite ?E.
  - destruct (CStr.at_end s) eqn:E.
    + destruct n2; simpl; by rewrite ?E.
    + pose proof (cstr_len_drop_next s E).
      destruct n2 as [|n2]; [lia|].
      simpl. rewrite E. f_equal. apply IH; lia.
Qed.

Lemma g_utf8_to_ucs4_fast_unfold s :
  g_utf8_to_ucs4_fast s
  = if CStr.at_end s then []
    else g_utf8_get_char s
         :: g_utf8_to_ucs4_fast (CStr.drop (utf8_next_len s) s).
Proof.
  unfold g_utf8_to_ucs4_fast at 1. destruct (CStr.at_end s) eqn:E.
  - destruct (CStr.len s); simpl; by rewrite ?E.
  - pose proof (cstr_len_drop_next s E).
    destruct (CStr.len s) as [|n] eqn:El; [lia|].
    simpl. rewrite E. f_equal. apply utf8_to_ucs4_n_enough; lia.
Qed.

Lemma cstr_take_take n s : CStr.take n (CStr.take n s) = CStr.take n s.
Proof.
  revert s. induction n as [|n IH]; intros [|c s]; simpl; try done.
  by rewrite IH.
Qed.

Lemma g_utf8_get_char_take s :
  g_utf8_get_char s = g_utf8_get_char (CStr.take (utf8_next_len s) s).
Proof.
  unfold g_utf8_get_char.
  assert (E : utf8_next_len (CStr.take (utf8_next_len s) s) = utf8_next_len s).
  { pose proof (utf8_next_len_pos s) as Hpos. unfold utf8_next_len in *.
    destruct s as [|c s]; [reflexivity|]. simpl in *.
    destruct (g_utf8_skip (N_of_ascii c)) eqn:Ek; [lia|]. by simpl. }
  by rewrite E, cstr_take_take.
Qed.

(** Distinct well-formed strings have distinct scalars. *)
Lemma g_utf8_to_ucs4_fast_inj_n n a b :
  (CStr.len a ≤ n)%nat →
  utf8_wf a = true → utf8_wf b = true →
  g_utf8_to_ucs4_fast a = g_utf8_to_ucs4_fast b → a = b.
Proof.
  revert a b. induction n as [|n IH]; intros a b Hn Ha Hb;
    rewrite (g_utf8_to_ucs4_fast_unfold a), (g_utf8_to_ucs4_fast_unfold b).
  - assert (E : CStr.at_end a = true) by (apply cstr_at_end_len; lia).
    rewrite E. destruct a; [|done]. by destruct b.
  - destruct (CStr.at_end a) eqn:Ea, (CStr.at_end b) eqn:Eb; try done.
    + destruct a; [|done]. by destruct b.
    + intros [= Hc Hrest].
      pose proof (cstr_len_drop_next a Ea).
      apply cstr_split_eq.
      * apply utf8_chunk_value_inj; [by apply utf8_wf_chunk..|].
        rewrite <- !utf8_chunk_get_char by by apply utf8_wf_chunk.
        by rewrite <- !g_utf8_get_char_take.
      * apply IH; [lia|by apply utf8_wf_drop..|done].
Qed.

Lemma g_utf8_to_ucs4_fast_inj a b :
  utf8_wf a = true → utf8_wf b = true →
  g_utf8_to_ucs4_fast a = g_utf8_to_ucs4_fast b → a = b.
Proof. by apply (g_utf8_to_ucs4_fast_inj_n (CStr.len a)). Qed.

(** ** Distance zero *)

Lemma take_S_total (l : list Z) i :
  (i < length l)%nat → take (S i) l = take i l ++ [l !!! i].
Proof. intros Hi. apply take_S_r. by apply list_lookup_lookup_total_lt. Qed.

Lemma dl_spec_zero a b n i j :
  (i + j ≤ n)%nat → (i ≤ length a)%nat → (j ≤ length b)%nat →
  0 ≤ dl_spec a b i j
  ∧ (dl_spec a b i j = 0 ↔ i = j ∧ take i a = take j b).
Proof.
  revert i j. induction n as [|n IH]; intros i j Hn Hi Hj.
  { assert (i = 0 ∧ j = 0)%nat as [-> ->] by lia. simpl. by split. }
  destruct (decide (i = 0%nat)) as [->|Hi0].
  { rewrite dl_spec_row0. split; [lia|]. split.
    - intros. assert (j = 0)%nat as -> by lia. done.
    - intros [<- _]. done. }
  destruct (decide (j = 0%nat)) as [->|Hj0].
  { rewrite dl_spec_col0. split; [lia|]. split; [lia|]. intros [-> _]. done. }
  rewrite dl_spec_step by lia. cbv zeta.
  destruct (IH (i - 1) j)%nat as [HA _]; [lia..|].
  destruct (IH i (j - 1))%nat as [HB _]; [lia..|].
  destruct (IH (i - 1) (j - 1))%nat as [HC HC0]; [lia..|].
  set (cost := if a !!! (i - 1)%nat =? b !!! (j - 1)%nat then 0 else 1).
  assert (Hcost : (cost = 0 ∧ a !!! (i - 1)%nat = b !!! (j - 1)%nat)
                  ∨ (cost = 1 ∧ a !!! (i - 1)%nat ≠ b !!! (j - 1)%nat)).
  { unfold cost. destruct (Z.eqb_spec (a !!! (i - 1)%nat) (b !!! (j - 1)%nat));
      [left|right]; done. }
  assert (Hsnoc : ∀ (l : list Z) k, (1 ≤ k ≤ length l)%nat →
                    take k l = take (k - 1) l ++ [l !!! (k - 1)%nat]).
  { intros l k Hk. replace k with (S (k - 1)) at 1 by lia.
    apply take_S_total. lia. }
  assert (Hdiag : dl_spec a b (i - 1) (j - 1) + cost = 0
                  ↔ i = j ∧ take i a = take j b).
  { split.
    - intros Hz. assert (dl_spec a b (i - 1) (j - 1) = 0) as HCz by lia.
      destruct Hcost as [[_ Heq]|[? _]]; [|lia].
      apply HC0 in HCz as [Hij Htk]. split; [lia|].
      rewrite (Hsnoc a i), (Hsnoc b j) by lia. by rewrite Htk, Heq.
    - intros [<- Htk].
      rewrite (Hsnoc a i), (Hsnoc b i) in Htk by lia.
      apply app_inj_2 in Htk as [Htk [= Hlast]]; [|done].
      destruct Hcost as [[-> _]|[_ ?]]; [|done].
      rewrite Z.add_0_r. by apply HC0. }
  destruct (_ && _) eqn:Etr.
  - apply andb_prop in Etr as [Etr E4]. apply andb_prop in Etr as [Etr E3].
    apply andb_prop in Etr as [E1 E2].
    apply bool_decide_eq_true in E1, E2.
    apply Z.eqb_eq in E3, E4.
    destruct (IH (i - 2) (j - 2))%nat as [HT HT0]; [lia..|].
    split; [lia|]. split.
    + intros Hz.
      destruct (decide (dl_spec a b (i - 1) (j - 1) + cost = 0)) as [Hd|Hd];
        [by apply Hdiag|].
      assert (dl_spec a b (i - 2) (j - 2) = 0 ∧ cost = 0) as [HTz Hc] by lia.
      destruct Hcost as [[_ Heq]|[? _]]; [|lia].
      apply HT0 in HTz as [Hij Htk]. split; [lia|].
      rewrite (Hsnoc a i), (Hsnoc b j) by lia.
      rewrite (Hsnoc a (i - 1)%nat), (Hsnoc b (j - 1)%nat) by lia.
      replace (i - 1 - 1)%nat with (i - 2)%nat by lia.
      replace (j - 1 - 1)%nat with (j - 2)%nat by lia.
      rewrite Htk. do 2 f_equal; [f_equal|]; congruence.
    + intros Hij. apply Hdiag in Hij. lia.
  - split; [lia|]. rewrite <- Hdiag. lia.
Qed.

Lemma edit_dist_ucs4_zero a b : edit_dist_ucs4 a b ≤ 0 ↔ a = b.
Proof.
  rewrite edit_dist_ucs4_spec.
  destruct (dl_spec_zero a b (length a + length b) (length a) (length b))
    as [Hnn Hz]; [lia..|].
  rewrite !firstn_all in Hz. split.
  - intros Hle. apply Hz. lia.
  - intros ->. assert (dl_spec b b (length b) (length b) = 0); [|lia].
    by apply Hz.
Qed.

(** On well-formed words the distance is zero only between equal words. *)
Lemma edit_dist_zero a b :
  utf8_wf a = true → utf8_wf b = true →
  (edit_dist a b <=? 0) = bool_decide (a = b).
Proof.
  intros Ha Hb. unfold edit_dist.
  destruct (Z.leb_spec (edit_dist_ucs4 (g_utf8_to_ucs4_fast a)
                          (g_utf8_to_ucs4_fast b)) 0) as [Hle|Hgt].
  - apply edit_dist_ucs4_zero in Hle.
    apply g_utf8_to_ucs4_fast_inj in Hle; [|done..].
    by rewrite bool_decide_eq_true_2.
  - rewrite bool_decide_eq_false_2; [done|]. intros ->.
    assert (edit_dist_ucs4 (g_utf8_to_ucs4_fast b) (g_utf8_to_ucs4_fast b) ≤ 0)
      by by apply edit_dist_ucs4_zero.
    lia.
Qed.

(** ** Tables *)

Section TableLemmas.
Context {V : Type}.
Implicit Types (t : list (string * V)) (k : string) (v : V).

Lemma ht_lookup_insert_eq k v t : HT.lookup k (HT.insert k v t) = Some v.
Proof.
  induction t as [|[k' v'] t IH]; simpl.
  - by rewrite cstr_eqb_refl.
  - destruct (CStr.eqb k k') eqn:E; simpl; by rewrite E.
Qed.

Lemma ht_lookup_insert_ne k k' v t :
  k ≠ k' → HT.lookup k' (HT.insert k v t) = HT.lookup k' t.
Proof.
  intros Hne. induction t as [|[k0 v0] t IH]; simpl.
  - destruct (CStr.eqb k' k) eqn:E; [|done].
    apply cstr_eqb_eq in E. congruence.
  - destruct (CStr.eqb k k0) eqn:E; simpl; [|by rewrite IH].
    apply cstr_eqb_eq in E as <-.
    destruct (CStr.eqb k' k) eqn:E'; [|done].
    apply cstr_eqb_eq in E'. congruence.
Qed.

Lemma ht_lookup_None k t : HT.lookup k t = None ↔ k ∉ t.*1.
Proof.
  induction t as [|[k0 v0] t IH]; simpl.
  - split; [intros _; apply not_elem_of_nil|done].
  - rewrite not_elem_of_cons. destruct (CStr.eqb k k0) eqn:E.
    + apply cstr_eqb_eq in E. split; [done|]. by intros [? _].
    + rewrite IH. split; [|by intros [_ ?]]. intros ?. split; [|done].
      intros ->. by rewrite cstr_eqb_refl in E.
Qed.

Lemma ht_lookup_Some k v t : HT.lookup k t = Some v → (k, v) ∈ t.
Proof.
  induction t as [|[k0 v0] t IH]; simpl; [done|].
  destruct (CStr.eqb k k0) eqn:E.
  - apply cstr_eqb_eq in E as ->. intros [= ->]. apply list_elem_of_here.
  - intros ?. apply list_elem_of_further. by apply IH.
Qed.

Lemma ht_keys_insert k v t :
  (HT.insert k v t).*1
  = match HT.lookup k t with Some _ => t.*1 | None => t.*1 ++ [k] end.
Proof.
  induction t as [|[k0 v0] t IH]; [done|].
  simpl HT.insert. simpl HT.lookup.
  destruct (CStr.eqb k k0) eqn:E; [done|].
  rewrite !fmap_cons, IH. by destruct (HT.lookup k t).
Qed.

Lemma ht_insert_NoDup k v t : NoDup t.*1 → NoDup (HT.insert k v t).*1.
Proof.
  intros Hnd. rewrite ht_keys_insert.
  destruct (HT.lookup k t) eqn:E; [done|].
  apply NoDup_app. split_and!; [done| |apply NoDup_singleton].
  intros x Hx ->%list_elem_of_singleton. by apply ht_lookup_None in E.
Qed.

Lemma ht_elem_insert k v t k' v' :
  (k', v') ∈ HT.insert k v t → (k' = k ∧ v' = v) ∨ (k', v') ∈ t.
Proof.
  induction t as [|[k0 v0] t IH]; simpl.
  - intros [= -> ->]%list_elem_of_singleton. by left.
  - destruct (CStr.eqb k k0) eqn:E.
    + apply cstr_eqb_eq in E as ->.
      intros [[= -> ->]|?]%elem_of_cons; [by left|].
      right. by apply list_elem_of_further.
    + intros [[= -> ->]|Hin]%elem_of_cons.
      * right. apply list_elem_of_here.
      * apply IH in Hin as [?|?]; [by left|].
        right. by apply list_elem_of_further.
Qed.

Lemma ht_elem_remove k t k' v' : (k', v') ∈ HT.remove k t → (k', v') ∈ t.
Proof.
  induction t as [|[k0 v0] t IH]; simpl; [done|].
  destruct (CStr.eqb k k0).
  - apply list_elem_of_further.
  - intros [[= -> ->]|Hin]%elem_of_cons; [apply list_elem_of_here|].
    apply list_elem_of_further. by apply IH.
Qed.

Lemma ht_keys_remove_sublist k t : (HT.remove k t).*1 `sublist_of` t.*1.
Proof.
  induction t as [|[k0 v0] t IH]; simpl; [done|].
  destruct (CStr.eqb k k0); simpl.
  - by apply sublist_cons.
  - by apply sublist_skip.
Qed.

Lemma ht_remove_NoDup k t : NoDup t.*1 → NoDup (HT.remove k t).*1.
Proof. intros Hnd. exact (sublist_NoDup _ _ Hnd (ht_keys_remove_sublist k t)). Qed.

Lemma ht_lookup_remove_eq k t : NoDup t.*1 → HT.lookup k (HT.remove k t) = None.
Proof.
  induction t as [|[k0 v0] t IH]; simpl; [done|].
  intros [Hk0 Hnd]%NoDup_cons.
  destruct (CStr.eqb k k0) eqn:E; simpl.
  - apply cstr_eqb_eq in E as ->. by apply ht_lookup_None.
  - rewrite E. by apply IH.
Qed.

Lemma ht_lookup_remove_ne k k' t :
  k ≠ k' → HT.lookup k' (HT.remove k t) = HT.lookup k' t.
Proof.
  intros Hne. induction t as [|[k0 v0] t IH]; simpl; [done|].
  destruct (CStr.eqb k k0) eqn:E; simpl.
  - apply cstr_eqb_eq in E as <-.
    destruct (CStr.eqb k' k) eqn:E'; [|done].
    apply cstr_eqb_eq in E'. congruence.
  - by rewrite IH.
Qed.

Lemma ht_remove_insert_absent k v t :
  HT.lookup k t = None → HT.remove k (HT.insert k v t) = t.
Proof.
  induction t as [|[k0 v0] t IH]; simpl.
  - by rewrite cstr_eqb_refl.
  - destruct (CStr.eqb k k0) eqn:E; [done|]. simpl. rewrite E.
    intros ?. by rewrite IH.
Qed.
End TableLemmas.

(** ** Shape of the tries built by insert and remove *)


(** The words "a", "ab" inserted, "ab", "a" removed and "ab" inserted
    again: the emptied table under "a" is kept (it is not a null
    pointer), and the last insert puts a single Leaf into it. *)
Example reachable_single_leaf_branch :
  ∃ t, trie_reachable (Some t) ∧ no_single_leaf_branch t = false.
Proof.
  pose (t2 := enchant_trie_insert (Some (enchant_trie_insert None "a")) "ab").
  assert (R2 : trie_reachable (Some t2))
    by (do 2 apply reach_insert; apply reach_empty).
  destruct (enchant_trie_remove (Some t2) "ab") as [[t3|]|] eqn:E3;
    [|vm_compute in E3; discriminate..].
  assert (R3 := reach_remove _ _ _ R2 E3).
  destruct (enchant_trie_remove (Some t3) "a") as [[t4|]|] eqn:E4;
    [|vm_compute in E3; injection E3 as <-; vm_compute in E4; discriminate..].
  assert (R4 := reach_remove _ _ _ R3 E4).
  exists (enchant_trie_insert (Some t4) "ab"). split.
  - by apply reach_insert.
  - vm_compute in E3. injection E3 as <-.
    vm_compute in E4. injection E4 as <-. reflexivity.
Qed.

Lemma trie_collapse_not_single_leaf subs :
  ¬ single_leaf_branch (trie_collapse subs).
Proof.
  intros (key & sub & v & E & Hv). unfold trie_collapse, Branch in E.
  destruct subs as [|[k s] [|? ?]]; try discriminate.
  destruct (trie_value s) eqn:Es; [discriminate|].
  injection E as -> ->. congruence.
Qed.

Lemma no_single_leaf_branch_children v subs :
  no_single_leaf_branch (Node v (Some subs)) = true →
  Forall (λ kv, no_single_leaf_branch kv.2 = true) subs.
Proof.
  cbn [no_single_leaf_branch]. intros [_ Hgo]%andb_prop.
  induction subs as [|kv subs IH]; [done|].
  apply andb_prop in Hgo as [? ?]. constructor; [done|]. by apply IH.
Qed.

Lemma trie_collapse_no_single_leaf subs :
  Forall (λ kv, no_single_leaf_branch kv.2 = true) subs →
  no_single_leaf_branch (trie_collapse subs) = true.
Proof.
  intros Hall.
  assert (Hgo : (fix go (l : list (string * EnchantTrie)) : bool :=
                   match l with
                   | [] => true
                   | kv :: r => no_single_leaf_branch kv.2 && go r
                   end) subs = true).
  { induction Hall as [|kv l Hkv _ IH]; [done|]. by rewrite Hkv, IH. }
  unfold trie_collapse. destruct subs as [|[k c] [|kv2 subs]].
  - done.
  - destruct (trie_value c) eqn:Ec; [done|].
    cbn [no_single_leaf_branch]. rewrite Hgo, Ec. done.
  - cbn [no_single_leaf_branch]. by rewrite Hgo.
Qed.

Lemma trie_remove_n_no_single_leaf n t word t' :
  no_single_leaf_branch t = true →
  trie_remove_n n t word = Some t' →
  no_single_leaf_branch t' = true.
Proof.
  revert t word t'. induction n as [|n IH]; intros t word t' Ht; [done|].
  simpl. unfold trie_remove_body.
  destruct t as [|[v|] subtries]; cbn [trie_value trie_subtries].
  - by intros [= <-].
  - destruct (CStr.eqb v word); intros [= <-]; [|done].
    by destruct subtries.
  - destruct subtries as [subs|]; [|by intros [= <-]].
    apply no_single_leaf_branch_children in Ht.
    intros Hr. apply bind_Some in Hr as (subs' & Hsubs' & [= <-]).
    apply trie_collapse_no_single_leaf.
    destruct (CStr.at_end word).
    + injection Hsubs' as <-. apply Forall_forall. intros [k c] Hin.
      apply ht_elem_remove in Hin.
      by apply (proj1 (Forall_forall _ _) Ht (k, c)).
    + cbv zeta in Hsubs'.
      apply bind_Some in Hsubs' as (sub & Hl & Hsubs').
      apply bind_Some in Hsubs' as (sub' & Hrem & [= <-]).
      apply ht_lookup_Some in Hl.
      assert (Hsub' : no_single_leaf_branch sub' = true).
      { apply (IH sub _ _ (proj1 (Forall_forall _ _) Ht (_, sub) Hl) Hrem). }
      apply Forall_forall. intros [k c] Hin.
      destruct (trie_subtries sub'), (trie_value sub');
        first [ apply ht_elem_insert in Hin as [[_ ->]|Hin]; [done|]
              | apply ht_elem_remove in Hin ];
        by apply (proj1 (Forall_forall _ _) Ht (k, c)).
Qed.

(** ** Insertion adds exactly the inserted word *)

Lemma cstr_chunk_empty q :
  CStr.take (utf8_next_len q) q = EmptyString ↔ q = EmptyString.
Proof.
  split; [|by intros ->].
  pose proof (utf8_next_len_pos q) as Hpos. destruct q as [|c q]; [done|].
  destruct (utf8_next_len (String c q)); [lia|]. by simpl.
Qed.

Lemma cstr_at_end_empty q : CStr.at_end q = true ↔ q = EmptyString.
Proof. by destruct q. Qed.

Lemma cstr_split_iff q w :
  q = w ↔ CStr.take (utf8_next_len q) q = CStr.take (utf8_next_len w) w
          ∧ CStr.drop (utf8_next_len q) q = CStr.drop (utf8_next_len w) w.
Proof. split; [by intros ->|]. intros [? ?]. by apply cstr_split_eq. Qed.

Lemma trie_wf_lookup subs k c :
  trie_wf (Node None (Some subs)) → HT.lookup k subs = Some c →
  CStr.at_end k = false →
  utf8_chunk k = true ∧ c ≠ EOSTrie ∧ trie_wf c.
Proof.
  intros Hwf Hl Hk. inversion Hwf as [| |? _ Hch]; subst.
  apply ht_lookup_Some in Hl. by destruct (Hch _ _ Hl) as [[-> _]|?].
Qed.

Lemma insert_into_subtries_ok subs w :
  utf8_wf w = true → trie_wf (Node None (Some subs)) →
  (CStr.at_end w = false →
   let k := CStr.take (utf8_next_len w) w in
   let w' := CStr.drop (utf8_next_len w) w in
   insert_ok (HT.lookup k subs) w' (enchant_trie_insert (HT.lookup k subs) w')) →
  let subs' := insert_into_subtries enchant_trie_insert subs w in
  trie_wf (Node None (Some subs'))
  ∧ ∀ q, utf8_wf q = true →
         trie_has (Node None (Some subs')) q
         = trie_has (Node None (Some subs)) q || bool_decide (q = w).
Proof.
  intros Hw Hwf Hrec subs'. unfold insert_into_subtries in subs'.
  inversion Hwf as [| |? Hnd Hch]; subst.
  destruct (CStr.at_end w) eqn:Ew.
  - (* the empty word: the marker is put under the empty key *)
    apply cstr_at_end_empty in Ew as ->. split.
    + constructor; [by apply ht_insert_NoDup|].
      intros k c [[-> ->]|Hin]%ht_elem_insert; [by left|by apply Hch].
    + intros q Hq. rewrite !trie_has_branch.
      destruct (decide (q = EmptyString)) as [->|Hne].
      * unfold subs'. simpl. rewrite ht_lookup_insert_eq. simpl.
        by rewrite orb_true_r.
      * unfold subs'. rewrite ht_lookup_insert_ne.
        2:{ intros E. symmetry in E.
            exact (Hne (proj1 (cstr_chunk_empty q) E)). }
        rewrite (bool_decide_eq_false_2 (q = EmptyString)) by done.
        by rewrite orb_false_r.
  - specialize (Hrec eq_refl). cbv zeta in Hrec.
    set (k := CStr.take (utf8_next_len w) w) in *.
    set (w' := CStr.drop (utf8_next_len w) w) in *.
    destruct Hrec as (Hwf' & Hne' & Hhas').
    assert (Hk : utf8_chunk k = true) by by apply utf8_wf_chunk.
    split.
    + constructor; [by apply ht_insert_NoDup|].
      intros k0 c [[-> ->]|Hin]%ht_elem_insert; [by right|by apply Hch].
    + intros q Hq. rewrite !trie_has_branch. unfold subs'.
      destruct (decide (CStr.take (utf8_next_len q) q = k)) as [Ek|Ek].
      * rewrite Ek, ht_lookup_insert_eq.
        rewrite Hhas' by by apply utf8_wf_drop.
        f_equal. apply bool_decide_ext.
        rewrite (cstr_split_iff q w). fold k w'.
        split; [by intros ?|by intros [_ ?]].
      * rewrite ht_lookup_insert_ne by done.
        rewrite (bool_decide_eq_false_2 (q = w)); [by rewrite orb_false_r|].
        intros ->. done.
Qed.

Lemma insert_leaf_ok w :
  utf8_wf w = true → insert_ok None w (enchant_trie_insert None w).
Proof.
  intros Hw. rewrite enchant_trie_insert_None. split_and!.
  - by constructor.
  - done.
  - intros q Hq. simpl. rewrite edit_dist_zero by done.
    apply bool_decide_ext. naive_solver.
Qed.

Lemma enchant_trie_insert_ok_n n w t :
  (CStr.len w < n)%nat → utf8_wf w = true → pwl_trie_wf t →
  insert_ok t w (enchant_trie_insert t w).
Proof.
  revert w t. induction n as [|n IH]; intros w t Hn Hw Hwf; [lia|].
  assert (Hrec : ∀ subs, trie_wf (Node None (Some subs)) →
            CStr.at_end w = false →
            let k := CStr.take (utf8_next_len w) w in
            let w' := CStr.drop (utf8_next_len w) w in
            insert_ok (HT.lookup k subs) w'
              (enchant_trie_insert (HT.lookup k subs) w')).
  { intros subs Hsubs Ew. cbv zeta. pose proof (cstr_len_drop_next w Ew).
    apply IH; [lia|by apply utf8_wf_drop|].
    intros c Hc. eapply trie_wf_lookup; [done..|].
    apply utf8_chunk_nonempty. by apply utf8_wf_chunk. }
  destruct t as [t0|]; [|by apply insert_leaf_ok].
  specialize (Hwf t0 eq_refl).
  rewrite enchant_trie_insert_eq. unfold trie_insert_body.
  inversion Hwf as [|v Hv|subs Hnd Hch]; subst; cbn [trie_value trie_subtries].
  - (* an emptied node *)
    apply (insert_leaf_ok w Hw).
  - (* a value: both words go into a fresh table *)
    destruct (insert_into_subtries_ok [] v Hv) as [Hwf1 Hhas1].
    { constructor; [constructor|]. intros k c Hin. by apply elem_of_nil in Hin. }
    { intros Ev k v'. simpl. apply insert_leaf_ok. by apply utf8_wf_drop. }
    destruct (insert_into_subtries_ok _ w Hw Hwf1) as [Hwf2 Hhas2].
    { by apply Hrec. }
    split_and!; [done..|].
    intros q Hq. rewrite Hhas2, Hhas1 by done. simpl.
    rewrite edit_dist_zero by done. f_equal.
    apply bool_decide_ext. naive_solver.
  - (* a table *)
    destruct (insert_into_subtries_ok subs w Hw Hwf) as [Hwf2 Hhas2].
    { by apply Hrec. }
    split_and!; [done..|].
    intros q Hq. by rewrite Hhas2.
Qed.

Lemma enchant_trie_insert_ok w t :
  utf8_wf w = true → pwl_trie_wf t →
  insert_ok t w (enchant_trie_insert t w).
Proof. apply (enchant_trie_insert_ok_n (S (CStr.len w))). lia. Qed.

(** ** Removal takes away exactly the removed word *)

Lemma trie_wf_not_eos t : trie_wf t → t ≠ EOSTrie.
Proof. by intros [] ?. Qed.

(** Propagating a single value up does not change what the node holds. *)
Lemma trie_collapse_ok subs :
  trie_wf (Node None (Some subs)) →
  trie_wf (trie_collapse subs)
  ∧ ∀ q, utf8_wf q = true →
         trie_has (trie_collapse subs) q = trie_has (Node None (Some subs)) q.
Proof.
  intros Hwf. unfold trie_collapse.
  destruct subs as [|[key sub] [|? ?]]; try done.
  destruct (trie_value sub) as [v|] eqn:Ev; [|done].
  inversion Hwf as [| |? _ Hch]; subst.
  destruct (Hch key sub) as [[_ ->]|(Hkey & _ & Hsub)];
    [apply list_elem_of_here|done|].
  inversion Hsub as [|v' Hv|]; subst; try done.
  simpl in Ev. injection Ev as ->.
  split; [constructor; by apply utf8_wf_app|].
  intros q Hq. rewrite trie_has_branch. simpl.
  rewrite edit_dist_zero by (by try apply utf8_wf_app).
  destruct (CStr.eqb _ key) eqn:E.
  - apply cstr_eqb_eq in E. simpl.
    rewrite edit_dist_zero by (by try apply utf8_wf_drop).
    apply bool_decide_ext. split.
    + intros <-. by rewrite utf8_chunk_app_drop.
    + intros ->. by rewrite <- E, cstr_take_drop.
  - apply bool_decide_eq_false_2. intros <-.
    rewrite utf8_chunk_app_take, cstr_eqb_refl in E by done. done.
Qed.

Lemma trie_remove_ok_n n w t :
  (CStr.len w < n)%nat → utf8_wf w = true → trie_wf t →
  trie_has t w = true →
  ∃ t', trie_remove t w = Some t' ∧ remove_ok t w t'.
Proof.
  revert w t. induction n as [|n IH]; intros w t Hn Hw Hwf Hhas; [lia|].
  rewrite trie_remove_eq. unfold trie_remove_body.
  inversion Hwf as [|v Hv|subs Hnd Hch]; subst; cbn [trie_value trie_subtries].
  - done.
  - (* a value *)
    simpl in Hhas. rewrite edit_dist_zero in Hhas by done.
    apply bool_decide_eq_true in Hhas as ->.
    rewrite cstr_eqb_refl. eexists. split; [done|].
    split; [constructor|]. intros q Hq. simpl.
    rewrite edit_dist_zero by done.
    rewrite (bool_decide_ext (w = q) (q = w)) by done.
    by destruct (bool_decide (q = w)).
  - (* a table *)
    match goal with
    | |- ∃ t', mbind _ ?X = Some t' ∧ _ => set (step := X)
    end.
    assert (∃ subs', trie_wf (Node None (Some subs'))
              ∧ step = Some subs'
              ∧ ∀ q, utf8_wf q = true →
                     trie_has (Node None (Some subs')) q
                     = trie_has (Node None (Some subs)) q
                       && negb (bool_decide (q = w)))
      as (subs' & Hwf' & -> & Hhas').
    { unfold step. clear step.
rewrite trie_has_branch in Hhas.
      destruct (CStr.at_end w) eqn:Ew.
      - (* the empty word: the marker is taken out *)
        apply cstr_at_end_empty in Ew as ->.
        eexists. split_and!; [|done|].
        + constructor; [by apply ht_remove_NoDup|].
          intros k c Hin%ht_elem_remove. by apply Hch.
        + intros q Hq. rewrite !trie_has_branch.
          destruct (decide (q = EmptyString)) as [->|Hne].
          * simpl. rewrite ht_lookup_remove_eq by done.
            by rewrite andb_false_r.
          * rewrite ht_lookup_remove_ne.
            2:{ intros E. symmetry in E.
                exact (Hne (proj1 (cstr_chunk_empty q) E)). }
            rewrite (bool_decide_eq_false_2 (q = EmptyString)) by done.
            by rewrite andb_true_r.
      - cbv zeta.
        set (k := CStr.take (utf8_next_len w) w) in *.
        set (w' := CStr.drop (utf8_next_len w) w) in *.
        assert (Hk : utf8_chunk k = true) by by apply utf8_wf_chunk.
        destruct (HT.lookup k subs) as [c|] eqn:El; [|done].
        cbn [mbind option_bind].
        destruct (trie_wf_lookup subs k c Hwf El) as (_ & Hc & Hwfc);
          [by apply utf8_chunk_nonempty|].
        destruct (IH w' c) as (c' & -> & Hwfc' & Hhasc'); try done.
        { pose proof (cstr_len_drop_next w Ew). unfold w'. lia. }
        { by apply utf8_wf_drop. }
        cbn [mbind option_bind].
        assert (Hq : ∀ q, utf8_wf q = true →
                  (if decide (CStr.take (utf8_next_len q) q = k)
                   then trie_has c' (CStr.drop (utf8_next_len q) q)
                   else trie_has (Node None (Some subs)) q)
                  = trie_has (Node None (Some subs)) q
                    && negb (bool_decide (q = w))).
        { intros q Hq. rewrite trie_has_branch. case_decide as Ek.
          - rewrite Ek, El, Hhasc' by by apply utf8_wf_drop.
            do 2 f_equal. apply bool_decide_ext.
            rewrite (cstr_split_iff q w). fold k w'.
            split; [by intros ?|by intros [_ ?]].
          - rewrite (bool_decide_eq_false_2 (q = w)) by (by intros ->).
            by rewrite andb_true_r. }
        eexists. split_and!; [|done|].
        + destruct (trie_subtries c'), (trie_value c');
            try (constructor; [by apply ht_insert_NoDup|];
                 intros k0 c0 [[-> ->]|Hin]%ht_elem_insert;
                 [right; split_and!; [done|by apply trie_wf_not_eos|done]
                 |by apply Hch]).
          constructor; [by apply ht_remove_NoDup|].
          intros k0 c0 Hin%ht_elem_remove. by apply Hch.
        + intros q Hq0. rewrite <- Hq by done.
          rewrite (trie_has_branch subs), trie_has_branch.
          assert (Hempty : trie_subtries c' = None → trie_value c' = None →
                           ∀ r, trie_has c' r = false).
          { intros Hs Hv r. destruct Hwfc'; simpl in *; congruence. }
          case_decide as Ek.
          * rewrite Ek.
            destruct (trie_subtries c') eqn:Es, (trie_value c') eqn:Ev;
              rewrite ?ht_lookup_insert_eq; try done.
            rewrite ht_lookup_remove_eq by done. by rewrite Hempty.
          * rewrite <- trie_has_branch.
            destruct (trie_subtries c'), (trie_value c');
              rewrite !trie_has_branch;
              by rewrite ?ht_lookup_insert_ne, ?ht_lookup_remove_ne by done. }
    cbn [mbind option_bind].
    destruct (trie_collapse_ok subs' Hwf') as [Hwfc Hhasc].
    eexists. split; [done|]. split; [done|].
    intros q Hq. by rewrite Hhasc, Hhas'.
Qed.

Lemma trie_remove_ok w t :
  utf8_wf w = true → trie_wf t → trie_has t w = true →
  ∃ t', trie_remove t w = Some t' ∧ remove_ok t w t'.
Proof. apply (trie_remove_ok_n (S (CStr.len w))). lia. Qed.

(** ** Adding a word and removing it again *)

Section RoundTrip.
Context `{UnicodeTables}.

Lemma pwl_init_ok : pwl_ok enchant_pwl_init.
Proof.
  split_and!; simpl; done.
Qed.

Lemma add_to_trie_ok pwl word :
  pwl_ok pwl → utf8_wf (g_utf8_normalize_nfd word) = true →
  pwl_ok (enchant_pwl_add_to_trie pwl word).
Proof.
  intros (Hwf & Hkeys & Hhas) Hw. unfold enchant_pwl_add_to_trie.
  destruct (words_in_trie pwl !! _) eqn:E; [done|].
  destruct (enchant_trie_insert_ok _ (trie pwl) Hw Hwf) as (Hwf' & _ & Hhas').
  split_and!; cbn [trie words_in_trie].
  - by intros t0 [= <-].
  - intros k orig [[<- _]|[_ ?]]%lookup_insert_Some; [done|by eapply Hkeys].
  - intros q Hq. simpl. rewrite Hhas', Hhas by done.
    destruct (decide (q = g_utf8_normalize_nfd word)) as [->|Hne].
    + rewrite lookup_insert_eq, E. simpl.
      by rewrite bool_decide_eq_true_2 by by eexists.
    + rewrite lookup_insert_ne by done.
      rewrite (bool_decide_eq_false_2 (q = _)) by done.
      by rewrite orb_false_r.
Qed.

Lemma adds_ok W pwl :
  pwl_ok pwl → Forall (λ x, utf8_wf (g_utf8_normalize_nfd x) = true) W →
  pwl_ok (foldl enchant_pwl_add_to_trie pwl W).
Proof.
  intros Hok HW. revert pwl Hok.
  induction HW as [|x W Hx _ IH]; intros pwl Hok; [done|].
  simpl. apply IH. by apply add_to_trie_ok.
Qed.

Lemma add_to_trie_keys pwl word k :
  is_Some (words_in_trie (enchant_pwl_add_to_trie pwl word) !! k)
  ↔ k = g_utf8_normalize_nfd word ∨ is_Some (words_in_trie pwl !! k).
Proof.
  unfold enchant_pwl_add_to_trie.
  destruct (words_in_trie pwl !! g_utf8_normalize_nfd word) eqn:E.
  - split; [by right|]. intros [->|?]; [by rewrite E|done].
  - cbn [words_in_trie]. rewrite lookup_insert_is_Some. split.
    + intros [<-|[_ ?]]; [by left|by right].
    + intros [->|Hs]; [by left|].
      destruct (decide (g_utf8_normalize_nfd word = k)); [by left|by right].
Qed.

Lemma adds_keys W pwl k :
  is_Some (words_in_trie (foldl enchant_pwl_add_to_trie pwl W) !! k)
  ↔ k ∈ g_utf8_normalize_nfd <$> W ∨ is_Some (words_in_trie pwl !! k).
Proof.
  revert pwl. induction W as [|x W IH]; intros pwl; simpl.
  - rewrite elem_of_nil. tauto.
  - rewrite IH, add_to_trie_keys, elem_of_cons. tauto.
Qed.

(** The trie-level step: a fresh word is inserted and removed. *)
Lemma add_then_remove_ok pwl word :
  pwl_ok pwl → utf8_wf (g_utf8_normalize_nfd word) = true →
  words_in_trie pwl !! g_utf8_normalize_nfd word = None →
  ∃ pwl',
    enchant_pwl_remove_from_trie (enchant_pwl_add_to_trie pwl word) word
      = Some pwl'
    ∧ words_in_trie pwl' = words_in_trie pwl
    ∧ ∀ q, utf8_wf q = true →
           pwl_trie_has (trie pwl') q = pwl_trie_has (trie pwl) q.
Proof.
  intros (Hwf & Hkeys & Hhas) Hw Hfresh.
  set (k := g_utf8_normalize_nfd word) in *.
  destruct (enchant_trie_insert_ok k (trie pwl) Hw Hwf) as (Hwf1 & _ & Hhas1).
  assert (Hk1 : trie_has (enchant_trie_insert (trie pwl) k) k = true).
  { rewrite Hhas1 by done. rewrite (bool_decide_eq_true_2 (k = k)) by done.
    by rewrite orb_true_r. }
  destruct (trie_remove_ok k _ Hw Hwf1 Hk1) as (t2 & Hrm & Hwf2 & Hhas2).
  unfold enchant_pwl_add_to_trie. fold k. rewrite Hfresh.
  unfold enchant_pwl_remove_from_trie. cbn [trie words_in_trie filename file_changed].
  fold k. rewrite lookup_insert_eq.
  unfold enchant_trie_remove. fold (trie_remove (enchant_trie_insert (trie pwl) k) k).
  rewrite Hrm. cbn [fmap option_fmap option_map mbind option_bind].
  eexists. split; [done|]. cbn [trie words_in_trie].
  split; [by apply delete_insert_id|].
  intros q Hq.
  assert (Hq2 : trie_has t2 q = pwl_trie_has (trie pwl) q).
  { rewrite Hhas2, Hhas1 by done.
    destruct (decide (q = k)) as [->|Hne].
    - rewrite Hhas by done. rewrite Hfresh.
      rewrite (bool_decide_eq_false_2 (is_Some None)) by (by intros [? ?]).
      by rewrite (bool_decide_eq_true_2 (k = k)).
    - rewrite (bool_decide_eq_false_2 (q = k)) by done.
      by rewrite orb_false_r, andb_true_r. }
  destruct Hwf2; simpl in *; by rewrite <- Hq2.
Qed.

(** C7 (as amended).  For words whose NFD forms are well-formed UTF-8:
    let the list be built from the words of [W] and let [w] be a word
    whose NFD form is not the NFD form of a word of [W].  Adding [w] and
    then removing it succeeds, restores [words_in_trie], and leaves a trie
    on which the exact lookup behind [enchant_pwl_check] answers as
    before: [enchant_pwl_contains] is unchanged for every query with a
    well-formed NFD form, and so is the result of the check when the
    lowercased and title-cased forms of the query are well formed too.
    (For a word already in [W] the list loses the word; and the trie may
    keep a different shape, so suggestions are not covered.) *)
Theorem add_then_remove_restores_check W w :
  Forall (λ x, utf8_wf (g_utf8_normalize_nfd x) = true) W →
  utf8_wf (g_utf8_normalize_nfd w) = true →
  g_utf8_normalize_nfd w ∉ g_utf8_normalize_nfd <$> W →
  let pwl := foldl enchant_pwl_add_to_trie enchant_pwl_init W in
  ∃ pwl',
    enchant_pwl_remove_from_trie (enchant_pwl_add_to_trie pwl w) w = Some pwl'
    ∧ words_in_trie pwl' = words_in_trie pwl
    ∧ (∀ q, utf8_wf (g_utf8_normalize_nfd q) = true →
            enchant_pwl_contains pwl' q = enchant_pwl_contains pwl q)
    ∧ (∀ q, utf8_wf (g_utf8_normalize_nfd q) = true →
            utf8_wf (g_utf8_normalize_nfd (g_utf8_strdown q)) = true →
            utf8_wf (g_utf8_normalize_nfd (enchant_utf8_strtitle q)) = true →
            pwl_check_refreshed pwl' q = pwl_check_refreshed pwl q).
Proof.
  intros HW Hw Hnew pwl.
  assert (Hok : pwl_ok pwl) by (apply adds_ok; [apply pwl_init_ok|done]).
  assert (Hfresh : words_in_trie pwl !! g_utf8_normalize_nfd w = None).
  { apply eq_None_not_Some. intros [Hin|Hin]%adds_keys; [done|].
    simpl in Hin. rewrite lookup_empty in Hin. by destruct Hin. }
  destruct (add_then_remove_ok pwl w Hok Hw Hfresh) as (pwl' & Hrm & Hwords & Hhas).
  exists pwl'. split_and!; [done..| |].
  - intros q Hq. rewrite !enchant_pwl_contains_trie_has. by apply Hhas.
  - intros q Hq Hlow Htitle. unfold pwl_check_refreshed.
    rewrite !enchant_pwl_contains_trie_has. by rewrite !Hhas.
Qed.
End RoundTrip.

Lemma add_then_remove_restores_check_witness :
  let add := enchant_pwl_add_to_trie (H := AsciiTables.tables) in
  let pwl := foldl add enchant_pwl_init ["hello"; "help"] in
  ∃ pwl',
    enchant_pwl_remove_from_trie (H := AsciiTables.tables) (add pwl "held") "held"
      = Some pwl'
    ∧ enchant_pwl_contains (H := AsciiTables.tables) pwl' "help"
      = enchant_pwl_contains (H := AsciiTables.tables) pwl "help".
Proof.
  intros add pwl.
  destruct (add_then_remove_restores_check (H := AsciiTables.tables)
              ["hello"; "help"] "held") as (pwl' & Hrm & _ & Hc & _).
  - by repeat constructor.
  - reflexivity.
  - simpl. intros Hin. repeat (apply elem_of_cons in Hin as [Hin|Hin]; [discriminate|]).
    by apply elem_of_nil in Hin.
  - exists pwl'. split; [exact Hrm|]. by apply Hc.
Defined.

(** C7 as stated fails for a word that is already in the list: adding
    "a" to the list that holds "a" changes nothing, and the removal then
    takes "a" out; the check of "a" is answered differently. *)
Lemma add_then_remove_known_word_loses_it :
  ¬ (∀ W w pwl',
       let add := enchant_pwl_add_to_trie (H := AsciiTables.tables) in
       let pwl := foldl add enchant_pwl_init W in
       enchant_pwl_remove_from_trie (H := AsciiTables.tables) (add pwl w) w
         = Some pwl' →
       ∀ q, pwl_check_refreshed (H := AsciiTables.tables) pwl' q
            = pwl_check_refreshed (H := AsciiTables.tables) pwl q
            ∧ pwl_suggest_refreshed (H := AsciiTables.tables) pwl' q None
              = pwl_suggest_refreshed (H := AsciiTables.tables) pwl q None).
Proof.
  intros Hall.
  destruct (enchant_pwl_remove_from_trie (H := AsciiTables.tables)
              (enchant_pwl_add_to_trie (H := AsciiTables.tables)
                 (foldl (enchant_pwl_add_to_trie (H := AsciiTables.tables))
                        enchant_pwl_init ["a"]) "a") "a") as [pwl'|] eqn:E;
    [|vm_compute in E; discriminate].
  destruct (Hall ["a"] "a" pwl' E "a") as [Hc _].
  vm_compute in E. injection E as <-. vm_compute in Hc. discriminate.
Qed.

(** The same happens on the trie itself: inserting "a" into the trie
    that holds "a" and removing it leaves a trie without "a". *)
Example insert_then_remove_stored_word :
  let t := enchant_trie_insert None "a" in
  trie_has t "a" = true
  ∧ enchant_trie_remove (Some (enchant_trie_insert (Some t) "a")) "a"
    = Some (Some (Node None (Some [("a", Node None (Some []))])))
  ∧ trie_has (Node None (Some [("a", Node None (Some []))])) "a" = false.
Proof. by vm_compute. Qed.

(** The suggestions are not restored: the list built from "b" and "ab"
    suggests only "b" for "ba" (the transposition is not tried against
    the Leaf under "a"); after "aba" was added and removed the words
    under "a" are kept in tables, and "ab" is suggested as well. *)
Example add_then_remove_changes_suggestions :
  let add := enchant_pwl_add_to_trie (H := AsciiTables.tables) in
  let pwl := foldl add enchant_pwl_init ["b"; "ab"] in
  let pwl' :=
    default pwl
      (enchant_pwl_remove_from_trie (H := AsciiTables.tables)
         (add pwl "aba") "aba") in
  pwl_suggest_refreshed (H := AsciiTables.tables) pwl "ba" None = Some ["b"]
  ∧ pwl_suggest_refreshed (H := AsciiTables.tables) pwl' "ba" None
    = Some ["b"; "ab"].
Proof. by vm_compute. Qed.

(** * Further properties *)

(** ** The edit distance: symmetry, bounds, distance zero *)

Lemma dl_spec_sym a b n i j :
  (i + j ≤ n)%nat → dl_spec a b i j = dl_spec b a j i.
Proof.
  revert i j. induction n as [|n IH]; intros i j Hn.
  { assert (i = 0 ∧ j = 0)%nat as [-> ->] by lia. done. }
  destruct i as [|i]; [by rewrite dl_spec_row0, dl_spec_col0|].
  destruct j as [|j]; [by rewrite dl_spec_row0, dl_spec_col0|].
  rewrite (dl_spec_step a b (S i) (S j)) by lia.
  rewrite (dl_spec_step b a (S j) (S i)) by lia.
  cbv zeta.
  replace (S i - 1)%nat with i by lia. replace (S j - 1)%nat with j by lia.
  replace (S i - 2)%nat with (i - 1)%nat by lia.
  replace (S j - 2)%nat with (j - 1)%nat by lia.
  rewrite (IH i (S j)), (IH (S i) j), (IH i j), (IH (i - 1) (j - 1))%nat by lia.
  rewrite (Z.eqb_sym (b !!! j) (a !!! i)).
  rewrite (Z.eqb_sym (b !!! j) (a !!! (i - 1)%nat)).
  rewrite (Z.eqb_sym (b !!! (j - 1)%nat) (a !!! i)).
  destruct (bool_decide (1 < S i)%nat), (bool_decide (1 < S j)%nat),
    (a !!! i =? b !!! (j - 1)%nat), (a !!! (i - 1)%nat =? b !!! j);
    cbn [andb]; lia.
Qed.

Lemma dl_spec_bounds a b n i j :
  (i + j ≤ n)%nat →
  Z.abs (Z.of_nat i - Z.of_nat j) ≤ dl_spec a b i j
  ≤ Z.max (Z.of_nat i) (Z.of_nat j).
Proof.
  revert i j. induction n as [|n IH]; intros i j Hn.
  { assert (i = 0 ∧ j = 0)%nat as [-> ->] by lia. simpl. lia. }
  destruct i as [|i]; [rewrite dl_spec_row0; lia|].
  destruct j as [|j]; [rewrite dl_spec_col0; lia|].
  rewrite (dl_spec_step a b (S i) (S j)) by lia. cbv zeta.
  replace (S i - 1)%nat with i by lia. replace (S j - 1)%nat with j by lia.
  replace (S i - 2)%nat with (i - 1)%nat by lia.
  replace (S j - 2)%nat with (j - 1)%nat by lia.
  pose proof (IH i (S j)). pose proof (IH (S i) j). pose proof (IH i j).
  pose proof (IH (i - 1) (j - 1))%nat.
  destruct (bool_decide (1 < S i)%nat) eqn:Ei;
    destruct (bool_decide (1 < S j)%nat) eqn:Ej;
    try (apply bool_decide_eq_true in Ei);
    try (apply bool_decide_eq_true in Ej);
    destruct (a !!! i =? b !!! j);
    destruct (a !!! i =? b !!! (j - 1)%nat);
    destruct (a !!! (i - 1)%nat =? b !!! j);
    cbn [andb]; lia.
Qed.

Lemma edit_dist_nonneg a b : 0 ≤ edit_dist a b.
Proof.
  unfold edit_dist. rewrite edit_dist_ucs4_spec.
  pose proof (dl_spec_bounds (g_utf8_to_ucs4_fast a) (g_utf8_to_ucs4_fast b) _
                (length (g_utf8_to_ucs4_fast a))
                (length (g_utf8_to_ucs4_fast b)) (Nat.le_refl _)).
  lia.
Qed.

(** X1.  [edit_dist] is symmetric: the two arguments can be exchanged. *)
Theorem edit_dist_sym (utf8word1 utf8word2 : string) :
  edit_dist utf8word1 utf8word2 = edit_dist utf8word2 utf8word1.
Proof.
  unfold edit_dist. rewrite !edit_dist_ucs4_spec.
  by apply (dl_spec_sym _ _ (length (g_utf8_to_ucs4_fast utf8word1)
                             + length (g_utf8_to_ucs4_fast utf8word2))).
Qed.

(** X2.  [edit_dist] lies between the difference and the larger of the
    two lengths, both counted in scalars as [g_utf8_strlen] counts them;
    in particular it is never negative and the distance from the empty
    string is the length. *)
Theorem edit_dist_bounds (utf8word1 utf8word2 : string) :
  Z.abs (g_utf8_strlen utf8word1 - g_utf8_strlen utf8word2)
  ≤ edit_dist utf8word1 utf8word2
  ≤ Z.max (g_utf8_strlen utf8word1) (g_utf8_strlen utf8word2).
Proof.
  unfold edit_dist, g_utf8_strlen. rewrite edit_dist_ucs4_spec.
  by apply (dl_spec_bounds _ _ (length (g_utf8_to_ucs4_fast utf8word1)
                                + length (g_utf8_to_ucs4_fast utf8word2))).
Qed.

(** X3.  [edit_dist] is 0 exactly when the two strings decode to the same
    scalars. *)
Theorem edit_dist_zero_iff (utf8word1 utf8word2 : string) :
  edit_dist utf8word1 utf8word2 = 0
  ↔ g_utf8_to_ucs4_fast utf8word1 = g_utf8_to_ucs4_fast utf8word2.
Proof.
  unfold edit_dist. rewrite <- edit_dist_ucs4_zero.
  pose proof (dl_spec_bounds (g_utf8_to_ucs4_fast utf8word1)
                (g_utf8_to_ucs4_fast utf8word2) _
                (length (g_utf8_to_ucs4_fast utf8word1))
                (length (g_utf8_to_ucs4_fast utf8word2))
                (Nat.le_refl _)) as [Hlo _].
  rewrite <- edit_dist_ucs4_spec in Hlo. lia.
Qed.

(** ** The error budget of a suggestion *)

Lemma foldl_MIN_spec {A} (f : A → Z) (l : list A) (acc : Z) :
  let r := foldl (λ best s, MIN (f s) best) acc l in
  r ≤ acc ∧ Forall (λ s, r ≤ f s) l ∧ (r = acc ∨ ∃ s, s ∈ l ∧ r = f s).
Proof.
  revert acc. induction l as [|a l IH]; intros acc; simpl.
  { split_and!; [lia|constructor|by left]. }
  destruct (IH (MIN (f a) acc)) as (Hle & Hall & Hatt).
  rewrite MIN_min in *.
  split_and!.
  - lia.
  - constructor; [lia|done].
  - destruct Hatt as [E|(s & Hs & E)].
    + destruct (Z.min_spec (f a) acc) as [[_ E']|[_ E']].
      * right. exists a. split; [apply list_elem_of_here|]. by rewrite E.
      * left. by rewrite E.
    + right. exists s. split; [by apply list_elem_of_further|done].
Qed.

Section MaxDist.
Context `{UnicodeTables}.

(** X4.  The budget [max_dist] of [enchant_pwl_suggest] when a list of
    other suggestions is passed in: it is the least of
    [ENCHANT_PWL_MAX_ERRORS], the length of the normalized word in
    scalars, and the distances of the normalized word from the
    normalized suggestions passed in; it is never negative. *)
Theorem suggest_max_dist_least (suggs : list string) (word : string) :
  let normalized_word := g_utf8_normalize_nfd word in
  let dist sugg := edit_dist normalized_word (g_utf8_normalize_nfd sugg) in
  let d := suggest_max_dist (Some suggs) word in
  0 ≤ d ≤ ENCHANT_PWL_MAX_ERRORS
  ∧ d ≤ g_utf8_strlen normalized_word
  ∧ Forall (λ sugg, d ≤ dist sugg) suggs
  ∧ (d = ENCHANT_PWL_MAX_ERRORS ∨ d = g_utf8_strlen normalized_word
     ∨ ∃ sugg, sugg ∈ suggs ∧ d = dist sugg).
Proof.
  intros nw dist d. unfold d, suggest_max_dist, best_distance. fold nw.
  destruct (foldl_MIN_spec dist suggs (g_utf8_strlen nw)) as (Hle & Hall & Hatt).
  change (foldl _ (g_utf8_strlen nw) suggs)
    with (foldl (λ best s, MIN (dist s) best) (g_utf8_strlen nw) suggs).
  set (r := foldl _ _ suggs) in *.
  rewrite MIN_min. unfold ENCHANT_PWL_MAX_ERRORS.
  assert (Hr : 0 ≤ r).
  { destruct Hatt as [->|(s & _ & ->)].
    - unfold g_utf8_strlen. lia.
    - unfold dist. pose proof (edit_dist_nonneg nw (g_utf8_normalize_nfd s)). lia. }
  split_and!; try lia.
  - eapply Forall_impl; [exact Hall|]. intros s Hs. simpl in Hs. lia.
  - destruct (Z.min_spec r 3) as [[_ ->]|[_ ->]]; [|by left].
    destruct Hatt as [?|?]; [right; by left|right; by right].
Qed.
End MaxDist.

(** ** The case of a word *)

Section Case.
Context `{UnicodeTables}.

Lemma all_caps_loop_spec its hasCap :
  all_caps_loop its hasCap = Some true
  ↔ (hasCap = true
     ∨ ∃ ch, ch ∈ its ∧ g_unichar_type ch = G_UNICODE_UPPERCASE_LETTER)
    ∧ ∀ ch, ch ∈ its →
        g_unichar_type ch ≠ G_UNICODE_LOWERCASE_LETTER
        ∧ g_unichar_type ch ≠ G_UNICODE_TITLECASE_LETTER.
Proof.
  revert hasCap. induction its as [|ch its IH]; intros hasCap; simpl.
  { split.
    - intros [= ->]. split; [by left|]. by intros ch ?%elem_of_nil.
    - intros [[->|(ch & ?%elem_of_nil & _)] _]; done. }
  destruct (g_unichar_type ch) eqn:Et.
  - rewrite IH. split.
    + intros [_ Hall]. split.
      * right. exists ch. split; [apply list_elem_of_here|done].
      * intros c Hc. apply elem_of_cons in Hc as [->|Hc]; [|by apply Hall].
        by rewrite Et.
    + intros [_ Hall]. split; [by left|].
      intros c Hc. apply Hall. by apply list_elem_of_further.
  - split; [done|]. intros [_ Hall].
    destruct (Hall ch (list_elem_of_here _ _)) as [_ Hn]. by rewrite Et in Hn.
  - split; [done|]. intros [_ Hall].
    destruct (Hall ch (list_elem_of_here _ _)) as [Hn _]. by rewrite Et in Hn.
  - rewrite IH. split.
    + intros [Hcap Hall]. split.
      * destruct Hcap as [?|(c & Hc & Eu)]; [by left|].
        right. exists c. split; [by apply list_elem_of_further|done].
      * intros c Hc. apply elem_of_cons in Hc as [->|Hc]; [|by apply Hall].
        by rewrite Et.
    + intros [Hcap Hall]. split.
      * destruct Hcap as [?|(c & Hc & Eu)]; [by left|].
        apply elem_of_cons in Hc as [->|Hc]; [congruence|].
        right. by exists c.
      * intros c Hc. apply Hall. by apply list_elem_of_further.
Qed.

(** X5.  [enchant_is_all_caps] answers 1 exactly for the words that hold
    an uppercase letter and no lowercase or titlecase letter; scalars of
    every other category (digits, punctuation, marks, caseless letters)
    do not matter. *)
Theorem enchant_is_all_caps_iff (word : string) :
  enchant_is_all_caps word = true
  ↔ (∃ ch, ch ∈ g_utf8_to_ucs4_fast word
           ∧ g_unichar_type ch = G_UNICODE_UPPERCASE_LETTER)
    ∧ ∀ ch, ch ∈ g_utf8_to_ucs4_fast word →
        g_unichar_type ch ≠ G_UNICODE_LOWERCASE_LETTER
        ∧ g_unichar_type ch ≠ G_UNICODE_TITLECASE_LETTER.
Proof.
  unfold enchant_is_all_caps, utf8_scalars.
  destruct (CStr.at_end word) eqn:Eend.
  - destruct word; [|done]. split; [done|].
    intros [(ch & Hch & _) _]. by apply elem_of_nil in Hch.
  - pose proof (all_caps_loop_spec (g_utf8_to_ucs4_fast word) false) as Hs.
    destruct (all_caps_loop (g_utf8_to_ucs4_fast word) false) as [b|];
      simpl; split.
    + intros ->. destruct (proj1 Hs eq_refl) as [[?|Hu] Hall]; done.
    + intros [Hu Hall].
      assert (Some b = Some true) as [= ->]; [|done].
      apply Hs. split; [by right|done].
    + done.
    + intros [Hu Hall].
      assert (None = Some true) as E; [|done].
      apply Hs. split; [by right|done].
Qed.
End Case.

(** ** The walk gives the matcher back as it found it *)

Section MatcherRestore.
Context `{UnicodeTables} {A : Type}.
Implicit Type m : EnchantTrieMatcher A.

Lemma num_errors_set_num_errors e m : num_errors (set_num_errors e m) = e.
Proof. done. Qed.
Lemma num_errors_set_word_pos p m :
  num_errors (set_word_pos p m) = num_errors m.
Proof. done. Qed.
Lemma num_errors_pushpath m s :
  num_errors (enchant_trie_matcher_pushpath m s) = num_errors m.
Proof. done. Qed.
Lemma num_errors_poppath m k :
  num_errors (enchant_trie_matcher_poppath m k) = num_errors m.
Proof. done. Qed.
Lemma path_set_num_errors e m : path (set_num_errors e m) = path m.
Proof. done. Qed.
Lemma path_set_word_pos p m : path (set_word_pos p m) = path m.
Proof. done. Qed.
Lemma path_pushpath m s :
  path (enchant_trie_matcher_pushpath m s) = (path m ++ s)%string.
Proof. done. Qed.
Lemma path_poppath m k :
  path (enchant_trie_matcher_poppath m k) = CStr.chop k (path m).
Proof. done. Qed.

(** A step that restores [num_errors] and [path]. *)
Let keeps_np (f : EnchantTrieMatcher A → EnchantTrieMatcher A) : Prop :=
  ∀ m, num_errors (f m) = num_errors m ∧ path (f m) = path m.

Variable cbfunc : string → EnchantTrieMatcher A → EnchantTrieMatcher A.
Hypothesis cbfunc_keeps : ∀ s, keeps_position (cbfunc s).

Lemma cbfunc_keeps_np s : keeps_np (cbfunc s).
Proof. intros m. destruct (cbfunc_keeps s m) as (? & _ & _ & ? & _). done. Qed.

Lemma cbfunc_keeps_word s : keeps_word (cbfunc s).
Proof. intros m. destruct (cbfunc_keeps s m) as (_ & ? & ? & _ & _). done. Qed.

Section Step.
Variable find_matches :
  option EnchantTrie → EnchantTrieMatcher A → EnchantTrieMatcher A.
Hypothesis rec_keeps : ∀ t, keeps_np (find_matches t).

Ltac keep :=
  repeat first
    [ rewrite num_errors_set_num_errors | rewrite num_errors_set_word_pos
    | rewrite num_errors_pushpath | rewrite num_errors_poppath
    | rewrite path_set_num_errors | rewrite path_set_word_pos
    | rewrite path_pushpath | rewrite path_poppath
    | rewrite cstr_chop_app
    | rewrite (proj1 (rec_keeps _ _)) | rewrite (proj2 (rec_keeps _ _))
    | rewrite (proj1 (cbfunc_keeps_np _ _))
    | rewrite (proj2 (cbfunc_keeps_np _ _)) ].

Lemma find_matches_cb_restores key subtrie :
  keeps_np (enchant_trie_find_matches_cb find_matches key subtrie).
Proof.
  intros m. unfold enchant_trie_find_matches_cb.
  case_match; [done|].
  destruct (enchant_trie_get_subtrie _ _ _) as [[subtrie2|] key2];
    [case_match|]; by keep.
Qed.

Lemma foreach_restores subtries :
  keeps_np (foreach_find_matches_cb find_matches subtries).
Proof.
  intros m. destruct subtries as [subs|]; [|done]. simpl.
  revert m. induction subs as [|kv subs IH]; intros m; [done|]. simpl.
  destruct (IH (enchant_trie_find_matches_cb find_matches kv.1 kv.2 m))
    as [-> ->].
  apply find_matches_cb_restores.
Qed.

Lemma find_matches_body_restores trie :
  keeps_np (find_matches_body cbfunc find_matches trie).
Proof.
  intros m. unfold find_matches_body.
  destruct trie as [t|]; [|done].
  case_match; [done|].
  destruct t as [|[tvalue|] subtries].
  - repeat case_match; by keep.
  - repeat case_match; by keep.
  - destruct (enchant_trie_get_subtrie _ _ _) as [subtrie nxtChS].
    keep.
    rewrite (proj1 (foreach_restores _ _)), (proj2 (foreach_restores _ _)).
    destruct subtrie; repeat case_match; keep; split; first [done|lia].
Qed.
End Step.

Lemma find_matches_n_restores n trie :
  keeps_np (find_matches_n cbfunc n trie).
Proof.
  revert trie. induction n as [|n IH]; intros trie; [done|].
  simpl. by apply find_matches_body_restores.
Qed.

(** X6.  Whatever the trie and the budget, [enchant_trie_find_matches]
    returns with [num_errors], [word], [word_pos], [path] and [mode] as
    they were at the call, provided the callback leaves these fields
    alone: the walk undoes its own moves, and all that a caller can
    observe is what the callback did to [max_errors] and [cbdata]. *)
Theorem find_matches_restores_matcher (trie : option EnchantTrie) :
  keeps_position (enchant_trie_find_matches cbfunc trie).
Proof.
  intros m. unfold enchant_trie_find_matches.
  set (n := find_matches_depth trie m).
  destruct (find_matches_n_restores n trie m) as [He Hp].
  destruct (find_matches_n_keeps cbfunc cbfunc_keeps_word n trie m) as [Hw Hpos].
  split_and!; try done.
  apply (find_matches_n_invariant cbfunc (λ m', mode m' = mode m)); try done.
  intros s m' Hm' _. by destruct (cbfunc_keeps s m') as (_ & _ & _ & _ & ->).
Qed.
End MatcherRestore.

Lemma enchant_pwl_suggest_cb_keeps_position s :
  keeps_position (enchant_pwl_suggest_cb s).
Proof.
  intros m. unfold enchant_pwl_suggest_cb.
  repeat case_match; by destruct m.
Qed.

Lemma find_matches_restores_matcher_witness :
  let trie := Some (Branch [("a", Leaf "b"); ("b", Leaf "")]) in
  let m :=
    matcher_fields (H := AsciiTables.tables) "ab" 3
      case_insensitive sugg_list_init in
  let m' :=
    enchant_trie_find_matches (H := AsciiTables.tables)
      enchant_pwl_suggest_cb trie m in
  num_errors m' = num_errors m ∧ word m' = word m
  ∧ word_pos m' = word_pos m ∧ path m' = path m ∧ mode m' = mode m.
Proof.
  intros trie m m'.
  exact (find_matches_restores_matcher (H := AsciiTables.tables)
           enchant_pwl_suggest_cb enchant_pwl_suggest_cb_keeps_position
           trie m).
Defined.

(** ** Only the best matches are kept *)

Lemma sugg_find_loc_None sl mtch errs k loc :
  sugg_find_loc sl mtch errs k loc = None →
  ∃ i, (loc ≤ i < loc + k)%nat
       ∧ sugg_errs sl !!! i ≤ errs ∧ suggs sl !!! i = Some mtch.
Proof.
  revert loc. induction k as [|k IH]; intros loc; simpl; [done|].
  destruct (Z.ltb_spec errs (sugg_errs sl !!! loc)); [done|].
  case_bool_decide as Hdup.
  - intros _. exists loc. split_and!; [lia..|done].
  - intros Hk. apply IH in Hk as (i & Hi & ? & ?). exists i.
    split_and!; [lia..|done|done].
Qed.

Lemma sugg_live_errs_lookup sl i :
  sugg_list_ok sl → (i < n_suggs sl)%nat →
  sugg_live_errs sl !! i = Some (sugg_errs sl !!! i).
Proof.
  intros [_ Hle Hcap _ _ _] Hi. unfold sugg_live_errs.
  rewrite lookup_take. case_decide; [|lia].
  apply list_lookup_lookup_total_lt. lia.
Qed.

(** The step of the callback: within the budget it leaves a list whose
    entries all carry the budget it leaves. *)
Lemma suggest_cb_best mtch (m : EnchantTrieMatcher EnchantSuggList) :
  sugg_list_ok (cbdata m) →
  Forall (λ e, e = max_errors m) (sugg_live_errs (cbdata m)) →
  num_errors m ≤ max_errors m →
  let m' := enchant_pwl_suggest_cb mtch m in
  max_errors m' = num_errors m
  ∧ Forall (λ e, e = max_errors m') (sugg_live_errs (cbdata m')).
Proof.
  intros Hok Hall Hle. pose proof Hok as [Hls Hlen Hcap _ _ _].
  cbv zeta. unfold enchant_pwl_suggest_cb.
  set (m1 := if num_errors m <? max_errors m then _ else m).
  assert (Hd : cbdata m1 = cbdata m) by (unfold m1; by case_match).
  assert (He : num_errors m1 = num_errors m) by (unfold m1; by case_match).
  assert (Hm : max_errors m1 = num_errors m).
  { unfold m1. destruct (Z.ltb_spec (num_errors m) (max_errors m)); simpl; lia. }
  rewrite He.
  set (sl := cbdata m) in *. set (errs := num_errors m) in *.
  assert (Hsame : ∀ i, (i < n_suggs sl)%nat → sugg_errs sl !!! i ≤ errs →
                       max_errors m = errs).
  { intros i Hi Hie.
    pose proof (sugg_live_errs_lookup sl i Hok Hi) as Hl.
    apply (proj1 (Forall_lookup _ _) Hall) in Hl. lia. }
  destruct (sugg_find_loc _ _ _ _ _) as [loc|] eqn:Eloc.
  - apply sugg_find_loc_spec in Eloc as [Hloc Hbefore].
    case_bool_decide as Hfit.
    + rewrite Hd, Hm. split; [done|].
      unfold ENCHANT_PWL_MAX_SUGGS in *.
      assert (max_errors m = errs) as <-; [|done].
      apply (Hsame 0%nat); [lia|]. apply Hbefore. lia.
    + cbn [cbdata set_cbdata max_errors]. rewrite Hm. split; [done|].
      unfold ENCHANT_PWL_MAX_SUGGS in *.
      assert (Hn' : Z.to_nat (Z.of_nat (n_suggs sl)
                              + (1 - Z.of_nat (n_suggs sl - loc))) = S loc)
        by lia.
      unfold sugg_live_errs. cbn [sugg_errs n_suggs]. rewrite Hn'.
      rewrite (take_S_r _ _ errs) by (apply list_lookup_insert_eq; lia).
      rewrite take_insert_ge by lia.
      apply Forall_app. split; [|by repeat constructor].
      apply Forall_lookup. intros i e Hi.
      rewrite lookup_take in Hi. case_decide as Hlt; [|done].
      apply list_lookup_total_correct in Hi as <-.
      destruct (Hbefore i) as [Hie _]; [lia|].
      pose proof (Hsame i ltac:(lia) Hie).
      pose proof (sugg_live_errs_lookup sl i Hok ltac:(lia)) as Hl.
      apply (proj1 (Forall_lookup _ _) Hall) in Hl. lia.
  - apply sugg_find_loc_None in Eloc as (i & Hi & Hie & _).
    rewrite Hd, Hm. split; [done|].
    assert (max_errors m = errs) as <-; [|done].
    apply (Hsame i); [lia|done].
Qed.

Section BestMatches.
Context `{UnicodeTables}.

(** X7.  The suggestions [enchant_pwl_suggest] collects are all equally
    good: when the walk ends every entry of the list was recorded with
    the same error count, which is the value [max_errors] has been
    lowered to and is at most the initial budget.  A match that is worse
    than one met before is not kept, and a better one throws out all
    that were there. *)
Theorem suggestions_share_least_errors pwl word baseline :
  let m := pwl_suggest_matcher pwl word baseline in
  Forall (λ e, e = max_errors m) (sugg_live_errs (cbdata m))
  ∧ max_errors m ≤ suggest_max_dist baseline word.
Proof.
  cbv zeta. split.
  - unfold pwl_suggest_matcher.
    apply (enchant_trie_find_matches_invariant enchant_pwl_suggest_cb
             (λ m, sugg_list_ok (cbdata m)
                   ∧ Forall (λ e, e = max_errors m)
                            (sugg_live_errs (cbdata m)))).
    + by intros e m Hm.
    + by intros p m Hm.
    + by intros p m Hm.
    + intros s m [Hok Hall] Hle. split.
      * by apply suggest_cb_cbdata.
      * by apply suggest_cb_best.
    + split; [apply sugg_list_init_ok|constructor].
  - by destruct (suggest_run_within_budget pwl word baseline) as (_ & ? & _).
Qed.
End BestMatches.

(** ** Insertion and removal on well-formed tries *)

(** Whenever [enchant_trie_remove] returns, it has taken out the word
    and nothing else. *)
Lemma trie_remove_sound_n n w t t' :
  (CStr.len w < n)%nat → utf8_wf w = true → trie_wf t →
  trie_remove t w = Some t' → remove_ok t w t'.
Proof.
  revert w t t'. induction n as [|n IH]; intros w t t' Hn Hw Hwf; [lia|].
  rewrite trie_remove_eq. unfold trie_remove_body.
  inversion Hwf as [|v Hv|subs Hnd Hch]; subst; cbn [trie_value trie_subtries].
  - intros [= <-]. split; [done|]. intros q Hq. done.
  - (* a value *)
    destruct (CStr.eqb v w) eqn:E; intros [= <-].
    + apply cstr_eqb_eq in E as ->.
      split; [constructor|]. intros q Hq. simpl.
      rewrite edit_dist_zero by done.
      rewrite (bool_decide_ext (w = q) (q = w)) by done.
      by destruct (bool_decide (q = w)).
    + split; [done|]. intros q Hq. simpl.
      rewrite edit_dist_zero by done.
      destruct (decide (q = w)) as [->|Hne].
      * rewrite bool_decide_eq_false_2; [done|].
        intros ->. by rewrite cstr_eqb_refl in E.
      * rewrite (bool_decide_eq_false_2 (q = w)) by done.
        by rewrite andb_true_r.
  - (* a table *)
    intros Hr. apply bind_Some in Hr as (subs' & Hstep & [= <-]).
    assert (trie_wf (Node None (Some subs'))
            ∧ ∀ q, utf8_wf q = true →
                   trie_has (Node None (Some subs')) q
                   = trie_has (Node None (Some subs)) q
                     && negb (bool_decide (q = w)))
      as (Hwf' & Hhas').
    { destruct (CStr.at_end w) eqn:Ew.
      - (* the empty word: the marker is taken out *)
        apply cstr_at_end_empty in Ew as ->. injection Hstep as <-.
        split.
        + constructor; [by apply ht_remove_NoDup|].
          intros k c Hin%ht_elem_remove. by apply Hch.
        + intros q Hq. rewrite !trie_has_branch.
          destruct (decide (q = EmptyString)) as [->|Hne].
          * simpl. rewrite ht_lookup_remove_eq by done.
            by rewrite andb_false_r.
          * rewrite ht_lookup_remove_ne.
            2:{ intros E. symmetry in E.
                exact (Hne (proj1 (cstr_chunk_empty q) E)). }
            rewrite (bool_decide_eq_false_2 (q = EmptyString)) by done.
            by rewrite andb_true_r.
      - cbv zeta in Hstep.
        set (k := CStr.take (utf8_next_len w) w) in *.
        set (w' := CStr.drop (utf8_next_len w) w) in *.
        assert (Hk : utf8_chunk k = true) by by apply utf8_wf_chunk.
        apply bind_Some in Hstep as (c & El & Hstep).
        apply bind_Some in Hstep as (c' & Hrm & [= <-]).
        destruct (trie_wf_lookup subs k c Hwf El) as (_ & Hc & Hwfc);
          [by apply utf8_chunk_nonempty|].
        destruct (IH w' c c') as (Hwfc' & Hhasc'); try done.
        { pose proof (cstr_len_drop_next w Ew). unfold w'. lia. }
        { by apply utf8_wf_drop. }
        assert (Hq : ∀ q, utf8_wf q = true →
                  (if decide (CStr.take (utf8_next_len q) q = k)
                   then trie_has c' (CStr.drop (utf8_next_len q) q)
                   else trie_has (Node None (Some subs)) q)
                  = trie_has (Node None (Some subs)) q
                    && negb (bool_decide (q = w))).
        { intros q Hq. rewrite trie_has_branch. case_decide as Ek.
          - rewrite Ek, El, Hhasc' by by apply utf8_wf_drop.
            do 2 f_equal. apply bool_decide_ext.
            rewrite (cstr_split_iff q w). fold k w'.
            split; [by intros ?|by intros [_ ?]].
          - rewrite (bool_decide_eq_false_2 (q = w)) by (by intros ->).
            by rewrite andb_true_r. }
        split.
        + destruct (trie_subtries c'), (trie_value c');
            try (constructor; [by apply ht_insert_NoDup|];
                 intros k0 c0 [[-> ->]|Hin]%ht_elem_insert;
                 [right; split_and!; [done|by apply trie_wf_not_eos|done]
                 |by apply Hch]).
          constructor; [by apply ht_remove_NoDup|].
          intros k0 c0 Hin%ht_elem_remove. by apply Hch.
        + intros q Hq0. rewrite <- Hq by done.
          rewrite (trie_has_branch subs), trie_has_branch.
          assert (Hempty : trie_subtries c' = None → trie_value c' = None →
                           ∀ r, trie_has c' r = false).
          { intros Hs Hv r. destruct Hwfc'; simpl in *; congruence. }
          case_decide as Ek.
          * rewrite Ek.
            destruct (trie_subtries c') eqn:Es, (trie_value c') eqn:Ev;
              rewrite ?ht_lookup_insert_eq; try done.
            rewrite ht_lookup_remove_eq by done. by rewrite Hempty.
          * rewrite <- trie_has_branch.
            destruct (trie_subtries c'), (trie_value c');
              rewrite !trie_has_branch;
              by rewrite ?ht_lookup_insert_ne, ?ht_lookup_remove_ne by done. }
    destruct (trie_collapse_ok subs' Hwf') as [Hwfc Hhasc].
    split; [done|]. intros q Hq. by rewrite Hhasc, Hhas'.
Qed.

(** X8.  Inserting a well-formed word into a well-formed trie (or into
    the null trie) gives a well-formed trie that holds the word and,
    apart from it, exactly what the trie held before. *)
Theorem trie_insert_adds_word (t : option EnchantTrie) (w : string) :
  utf8_wf w = true → pwl_trie_wf t →
  let t' := enchant_trie_insert t w in
  trie_wf t'
  ∧ trie_has t' w = true
  ∧ ∀ q, utf8_wf q = true → q ≠ w → trie_has t' q = pwl_trie_has t q.
Proof.
  intros Hw Hwf t'.
  destruct (enchant_trie_insert_ok w t Hw Hwf) as (Hwf' & _ & Hhas).
  split_and!; [done| |].
  - fold t' in Hhas. rewrite Hhas by done.
    rewrite (bool_decide_eq_true_2 (w = w)) by done. apply orb_true_r.
  - intros q Hq Hne. fold t' in Hhas. rewrite Hhas by done.
    rewrite (bool_decide_eq_false_2 (q = w)) by done. apply orb_false_r.
Qed.

Lemma trie_insert_adds_word_witness :
  let t := Some (Leaf "ab") in
  let t' := enchant_trie_insert t "ac" in
  trie_wf t'
  ∧ trie_has t' "ac" = true
  ∧ ∀ q, utf8_wf q = true → q ≠ "ac" → trie_has t' q = pwl_trie_has t q.
Proof.
  intros t t'. apply (trie_insert_adds_word t "ac"); [reflexivity|].
  intros t0 [= <-]. by constructor.
Defined.

(** X9.  Removing a well-formed word that a well-formed trie holds is
    defined (no null subtrie is met on the way), and leaves a well-formed
    trie that no longer holds the word and, apart from it, holds exactly
    what it held before. *)
Theorem trie_remove_deletes_word (t : EnchantTrie) (w : string) :
  utf8_wf w = true → trie_wf t → trie_has t w = true →
  ∃ t', enchant_trie_remove (Some t) w = Some (Some t')
        ∧ trie_wf t'
        ∧ trie_has t' w = false
        ∧ ∀ q, utf8_wf q = true → q ≠ w → trie_has t' q = trie_has t q.
Proof.
  intros Hw Hwf Hhas.
  destruct (trie_remove_ok w t Hw Hwf Hhas) as (t' & Hrm & Hwf' & Hhas').
  exists t'. split_and!.
  - unfold enchant_trie_remove. fold (trie_remove t w). by rewrite Hrm.
  - done.
  - rewrite Hhas' by done. rewrite (bool_decide_eq_true_2 (w = w)) by done.
    apply andb_false_r.
  - intros q Hq Hne. rewrite Hhas' by done.
    rewrite (bool_decide_eq_false_2 (q = w)) by done. apply andb_true_r.
Qed.

Lemma trie_remove_deletes_word_witness :
  ∃ t', enchant_trie_remove
          (Some (Branch [("a", Leaf "b"); ("c", Leaf "")])) "ab"
        = Some (Some t')
        ∧ trie_wf t'
        ∧ trie_has t' "ab" = false
        ∧ ∀ q, utf8_wf q = true → q ≠ "ab" →
               trie_has t' q
               = trie_has (Branch [("a", Leaf "b"); ("c", Leaf "")]) q.
Proof.
  apply (trie_remove_deletes_word
           (Branch [("a", Leaf "b"); ("c", Leaf "")]) "ab");
    [reflexivity| |reflexivity].
  constructor.
  - apply (bool_decide_unpack _). reflexivity.
  - intros k c Hin. right.
    repeat (apply elem_of_cons in Hin as [[= -> ->]|Hin]);
      [split_and!; [reflexivity|done|by constructor]..|].
    by apply elem_of_nil in Hin.
Defined.

(** X10.  Removing a word that the trie does not hold either runs into
    a null subtrie (the walk reaches a Branch that has no child for the
    next sequence of the word, and the null result of the lookup is
    dereferenced), or returns with a trie that holds exactly what it
    held before. *)
Theorem trie_remove_absent_word (t : EnchantTrie) (w : string) :
  utf8_wf w = true → trie_wf t → trie_has t w = false →
  enchant_trie_remove (Some t) w = None
  ∨ ∃ t', enchant_trie_remove (Some t) w = Some (Some t')
          ∧ trie_wf t'
          ∧ ∀ q, utf8_wf q = true → trie_has t' q = trie_has t q.
Proof.
  intros Hw Hwf Hhas. unfold enchant_trie_remove. fold (trie_remove t w).
  destruct (trie_remove t w) as [t'|] eqn:Hrm; [right|by left].
  exists t'. split; [done|].
  destruct (trie_remove_sound_n (S (CStr.len w)) w t t') as [Hwf' Hhas'];
    [lia|done..|].
  split; [done|]. intros q Hq. rewrite Hhas' by done.
  destruct (decide (q = w)) as [->|Hne].
  - by rewrite Hhas.
  - rewrite (bool_decide_eq_false_2 (q = w)) by done. apply andb_true_r.
Qed.

Lemma trie_remove_absent_word_witness :
  enchant_trie_remove (Some (Branch [("a", Leaf "b"); ("c", Leaf "")])) "x"
  = None
  ∨ ∃ t', enchant_trie_remove
            (Some (Branch [("a", Leaf "b"); ("c", Leaf "")])) "x"
          = Some (Some t')
          ∧ trie_wf t'
          ∧ ∀ q, utf8_wf q = true →
                 trie_has t' q
                 = trie_has (Branch [("a", Leaf "b"); ("c", Leaf "")]) q.
Proof.
  apply (trie_remove_absent_word
           (Branch [("a", Leaf "b"); ("c", Leaf "")]) "x");
    [reflexivity| |reflexivity].
  constructor.
  - apply (bool_decide_unpack _). reflexivity.
  - intros k c Hin. right.
    repeat (apply elem_of_cons in Hin as [[= -> ->]|Hin]);
      [split_and!; [reflexivity|done|by constructor]..|].
    by apply elem_of_nil in Hin.
Defined.

(** Both outcomes occur: a missing child is dereferenced, a Leaf with
    another value is left alone. *)
Example trie_remove_absent_word_cases :
  enchant_trie_remove (Some (Branch [("a", Leaf "b"); ("c", Leaf "")])) "x"
  = None
  ∧ enchant_trie_remove
      (Some (Branch [("a", Leaf "b"); ("c", Leaf "")])) "ax"
    = Some (Some (Branch [("a", Leaf "b"); ("c", Leaf "")])).
Proof. by vm_compute. Qed.

(** ** The trie and [words_in_trie] stay in step *)

Section Consistency.
Context `{UnicodeTables}.

Lemma remove_from_trie_ok pwl word :
  pwl_ok pwl →
  ∃ pwl', enchant_pwl_remove_from_trie pwl word = Some pwl'
          ∧ pwl_ok pwl'
          ∧ words_in_trie pwl'
            = delete (g_utf8_normalize_nfd word) (words_in_trie pwl).
Proof.
  intros (Hwf & Hkeys & Hhas). unfold enchant_pwl_remove_from_trie.
  set (k := g_utf8_normalize_nfd word).
  destruct (words_in_trie pwl !! k) as [orig|] eqn:E.
  - assert (Hk : utf8_wf k = true) by by eapply Hkeys.
    pose proof (Hhas k Hk) as Hin. rewrite E in Hin.
    rewrite bool_decide_eq_true_2 in Hin by by eexists.
    destruct (trie pwl) as [t|] eqn:Et; [|done]. simpl in Hin.
    assert (Hwft : trie_wf t) by by apply Hwf.
    destruct (trie_remove_ok k t Hk Hwft Hin) as (t2 & Hrm & Hwf2 & Hhas2).
    unfold enchant_trie_remove. fold (trie_remove t k). rewrite Hrm.
    cbn [fmap option_fmap option_map mbind option_bind].
    eexists. split; [done|]. cbn [trie words_in_trie]. split; [|done].
    split_and!; cbn [trie words_in_trie].
    + intros t0. destruct (trie_subtries t2), (trie_value t2);
        by intros [= <-].
    + intros k0 orig0 [_ ?]%lookup_delete_Some. by eapply Hkeys.
    + intros q Hq.
      assert (Hq2 : pwl_trie_has
                      match trie_subtries t2, trie_value t2 with
                      | None, None => None
                      | _, _ => Some t2
                      end q = trie_has t2 q).
      { destruct Hwf2; simpl; done. }
      rewrite Hq2, Hhas2 by done.
      specialize (Hhas q Hq). simpl in Hhas. rewrite Hhas.
      destruct (decide (q = k)) as [->|Hne].
      * rewrite lookup_delete_eq.
        rewrite (bool_decide_eq_true_2 (k = k)) by done.
        rewrite andb_false_r. symmetry. apply bool_decide_eq_false_2.
        by intros [? ?].
      * rewrite lookup_delete_ne by done.
        rewrite (bool_decide_eq_false_2 (q = k)) by done.
        by rewrite andb_true_r.
  - exists pwl. split; [done|]. split; [done|].
    symmetry. by apply delete_id.
Qed.

Lemma pwl_reachable_ok pwl : pwl_reachable pwl → pwl_ok pwl.
Proof.
  induction 1 as [f c|pwl word _ IH Hw|pwl word pwl' _ IH Hrm].
  - split_and!; simpl; done.
  - by apply add_to_trie_ok.
  - destruct (remove_from_trie_ok pwl word IH) as (p & Hp & Hok & _).
    congruence.
Qed.

Lemma pwl_trie_agrees_with_table_aux pwl :
  pwl_ok pwl →
  ∀ word, utf8_wf (g_utf8_normalize_nfd word) = true →
    enchant_pwl_contains pwl word
    = bool_decide (is_Some (words_in_trie pwl !! g_utf8_normalize_nfd word)).
Proof.
  intros (_ & _ & Hhas) word Hw. rewrite enchant_pwl_contains_trie_has.
  by apply Hhas.
Qed.

(** X11.  On every word list built by [enchant_pwl_add_to_trie] and
    [enchant_pwl_remove_from_trie] the trie and the table
    [words_in_trie] stay in step: [enchant_pwl_contains] finds a word
    exactly when its NFD form is a key of the table, and
    [enchant_pwl_remove_from_trie] is always defined (the trie is only
    asked to remove what it holds) and deletes the key. *)
Theorem pwl_trie_agrees_with_table pwl :
  pwl_reachable pwl →
  (∀ word, utf8_wf (g_utf8_normalize_nfd word) = true →
     enchant_pwl_contains pwl word
     = bool_decide (is_Some (words_in_trie pwl !! g_utf8_normalize_nfd word)))
  ∧ ∀ word, ∃ pwl',
      enchant_pwl_remove_from_trie pwl word = Some pwl'
      ∧ words_in_trie pwl'
        = delete (g_utf8_normalize_nfd word) (words_in_trie pwl).
Proof.
  intros Hr. apply pwl_reachable_ok in Hr. split.
  - intros word Hw. rewrite enchant_pwl_contains_trie_has.
    destruct Hr as (_ & _ & Hhas). by apply Hhas.
  - intros word.
    destruct (remove_from_trie_ok pwl word Hr) as (p & Hp & _ & Hd).
    by exists p.
Qed.
End Consistency.

Lemma pwl_trie_agrees_with_table_witness :
  let pwl :=
    enchant_pwl_add_to_trie (H := AsciiTables.tables)
      (enchant_pwl_add_to_trie (H := AsciiTables.tables)
         enchant_pwl_init "hello") "help" in
  (∀ word,
     utf8_wf (g_utf8_normalize_nfd (UnicodeTables := AsciiTables.tables) word)
     = true →
     enchant_pwl_contains (H := AsciiTables.tables) pwl word
     = bool_decide
         (is_Some (words_in_trie pwl
                   !! g_utf8_normalize_nfd
                        (UnicodeTables := AsciiTables.tables) word)))
  ∧ ∀ word, ∃ pwl',
      enchant_pwl_remove_from_trie (H := AsciiTables.tables) pwl word
      = Some pwl'
      ∧ words_in_trie pwl'
        = delete (g_utf8_normalize_nfd
                    (UnicodeTables := AsciiTables.tables) word)
                 (words_in_trie pwl).
Proof.
  intros pwl.
  apply (pwl_trie_agrees_with_table (H := AsciiTables.tables) pwl).
  unfold pwl. apply pwl_reach_add; [|reflexivity].
  apply pwl_reach_add; [|reflexivity].
  apply (pwl_reach_empty (H := AsciiTables.tables) None 0).
Defined.

(** ** The matches handed to the callback are words of the trie *)

Lemma string_app_nil_r (s : string) : (s ++ "")%string = s.
Proof.
  induction s as [|c s IH]; [done|].
  change (String c (s +:+ "") = String c s). by rewrite IH.
Qed.

Lemma ht_elem_lookup {V} k (v : V) t :
  NoDup t.*1 → (k, v) ∈ t → HT.lookup k t = Some v.
Proof.
  induction t as [|[k0 v0] t IH]; [by intros _ ?%elem_of_nil|].
  rewrite fmap_cons, NoDup_cons. intros [Hk0 Hnd] Hin. simpl.
  apply elem_of_cons in Hin as [[= -> ->]|Hin].
  - by rewrite cstr_eqb_refl.
  - destruct (CStr.eqb k k0) eqn:E; [|by apply IH].
    apply cstr_eqb_eq in E as ->. destruct Hk0.
    apply list_elem_of_fmap. by exists (k0, v).
Qed.

Lemma get_subtrie_elem `{UnicodeTables} {A} t (m : EnchantTrieMatcher A)
    s sub s' :
  enchant_trie_get_subtrie t m s = (Some sub, s') →
  ∃ subs, trie_subtries t = Some subs ∧ (s', sub) ∈ subs.
Proof.
  unfold enchant_trie_get_subtrie.
  destruct (trie_subtries t) as [subs|]; [|done].
  intros E. exists subs. split; [done|]. apply ht_lookup_Some.
  destruct (mode m); destruct (HT.lookup s subs) as [x|] eqn:El;
    injection E as E1 E2; subst; done.
Qed.

Section WalkEmits.
Context `{UnicodeTables} {A : Type}.
Implicit Type m : EnchantTrieMatcher A.

Variable cbfunc : string → EnchantTrieMatcher A → EnchantTrieMatcher A.
Hypothesis cbfunc_keeps : ∀ s, keeps_position (cbfunc s).

(** The trie the walk is started on. *)
Variable root : EnchantTrie.

(** A property of the matcher that the walk's own assignments do not
    touch, and that survives a call of the callback with a word of the
    trie within the budget. *)
Variable I : EnchantTrieMatcher A → Prop.
Hypothesis I_num_errors : ∀ e m, I m → I (set_num_errors e m).
Hypothesis I_word_pos : ∀ p m, I m → I (set_word_pos p m).
Hypothesis I_path : ∀ p m, I m → I (set_path p m).
Hypothesis I_cbfunc :
  ∀ s m, utf8_wf s = true → trie_has root s = true →
         num_errors m ≤ max_errors m → I m → I (cbfunc s m).

Let emitted (s : string) : Prop :=
  utf8_wf s = true ∧ trie_has root s = true.

(** Below the path [p] sits the node [t]: what [t] holds, behind [p],
    is held by the root. *)
Let below (p : string) (t : EnchantTrie) : Prop :=
  ∀ q, utf8_wf q = true → trie_has t q = true → emitted (p ++ q).

Let node_ok (t : EnchantTrie) : Prop := t = EOSTrie ∨ trie_wf t.

Lemma below_child p subs k c :
  trie_wf (Node None (Some subs)) → (k, c) ∈ subs →
  below p (Node None (Some subs)) →
  below (p ++ k) c ∧ node_ok c.
Proof.
  intros Hwf Hin Hb. inversion Hwf as [| |subs' Hnd Hch]; subst.
  pose proof (ht_elem_lookup k c subs Hnd Hin) as Hl.
  destruct (Hch k c Hin) as [[-> ->]|(Hk & Hne & Hwfc)].
  - split; [|by left]. intros q Hq Hhas. simpl in Hhas.
    apply cstr_at_end_empty in Hhas as ->.
    rewrite string_app_nil_r. apply Hb; [done|].
    rewrite trie_has_branch. simpl. by rewrite Hl.
  - split; [|by right]. intros q Hq Hhas.
    rewrite string_app_assoc. apply Hb; [by apply utf8_wf_app|].
    rewrite trie_has_branch.
    by rewrite utf8_chunk_app_take, utf8_chunk_app_drop, Hl by done.
Qed.

Section Step.
Variable find_matches :
  option EnchantTrie → EnchantTrieMatcher A → EnchantTrieMatcher A.
Hypothesis rec_restores :
  ∀ t m, num_errors (find_matches t m) = num_errors m
         ∧ path (find_matches t m) = path m.
Hypothesis rec_emits :
  ∀ t m, node_ok t → below (path m) t → I m → I (find_matches (Some t) m).

Lemma rec_path t m : path (find_matches t m) = path m.
Proof. apply rec_restores. Qed.

Lemma emits_cb p subs key subtrie m :
  trie_wf (Node None (Some subs)) → (key, subtrie) ∈ subs →
  below p (Node None (Some subs)) → path m = p → I m →
  I (enchant_trie_find_matches_cb find_matches key subtrie m).
Proof.
  intros Hwf Hin Hb Hp Hm. unfold enchant_trie_find_matches_cb.
  case_match; [done|]. cbv zeta.
  destruct (below_child p subs key subtrie Hwf Hin Hb) as [Hbc Hokc].
  set (ma := enchant_trie_matcher_pushpath m key).
  assert (Pa : path ma = (p ++ key)%string) by (by rewrite <- Hp).
  set (mb := find_matches (Some subtrie) ma).
  assert (Ib : I mb).
  { apply rec_emits; [done|by rewrite Pa|by apply I_path]. }
  assert (Pb : path mb = (p ++ key)%string) by (unfold mb; by rewrite rec_path).
  set (mc := find_matches (Some subtrie) (set_word_pos _ mb)).
  assert (Ic : I mc).
  { apply rec_emits; [done|by rewrite path_set_word_pos, Pb|by apply I_word_pos]. }
  assert (Pc : path mc = (p ++ key)%string)
    by (unfold mc; by rewrite rec_path, path_set_word_pos).
  set (md := enchant_trie_matcher_poppath mc (CStr.len key)).
  assert (Id : I md) by (by apply I_path).
  assert (Pd : path md = p)
    by (unfold md; by rewrite path_poppath, Pc, cstr_chop_app).
  destruct (enchant_trie_get_subtrie subtrie md _) as [[subtrie2|] key2] eqn:E;
    [|by apply I_word_pos].
  apply I_word_pos. case_match; [|done].
  apply get_subtrie_elem in E as (subs2 & Es & Hin2).
  assert (Hwf2 : trie_wf (Node None (Some subs2))).
  { destruct Hokc as [->|Hwfc]; [done|].
    destruct Hwfc as [|v ?|subs0 ? ?]; simpl in Es; [done..|].
    injection Es as <-. by constructor. }
  assert (Hb2 : below (p ++ key) (Node None (Some subs2))).
  { destruct subtrie as [|v s]; [done|]. simpl in Es. subst s.
    inversion Hwf2; subst. destruct Hokc as [?|Hwfc]; [done|].
    by inversion Hwfc; subst. }
  destruct (below_child (p ++ key) subs2 key2 subtrie2 Hwf2 Hin2 Hb2)
    as [Hbc2 Hokc2].
  do 2 apply I_path. apply rec_emits; [done| |].
  - by rewrite !path_pushpath, path_set_word_pos, Pd.
  - do 2 apply I_path. by apply I_word_pos.
Qed.

Lemma emits_foreach p subs l m :
  trie_wf (Node None (Some subs)) → below p (Node None (Some subs)) →
  (∀ kv, kv ∈ l → kv ∈ subs) → path m = p → I m →
  I (foldl (λ m kv, enchant_trie_find_matches_cb find_matches kv.1 kv.2 m)
           m l).
Proof.
  intros Hwf Hb. revert m. induction l as [|[k c] l IH]; intros m Hl Hp Hm;
    [done|].
  simpl. apply IH.
  - intros kv Hkv. apply Hl. by apply list_elem_of_further.
  - destruct (find_matches_cb_restores find_matches rec_restores k c m)
      as [_ ->]. done.
  - apply (emits_cb p subs); try done. apply Hl. apply list_elem_of_here.
Qed.

Lemma emits_body t m :
  node_ok t → below (path m) t → I m →
  I (find_matches_body cbfunc find_matches (Some t) m).
Proof.
  intros Hok Hb Hm. unfold find_matches_body.
  case_match; [done|].
  destruct t as [|[tvalue|] subtries].
  - (* the end-of-string marker *)
    cbv zeta. apply I_num_errors.
    set (m1 := if bool_decide _ then _ else m).
    assert (I1 : I m1) by (unfold m1; case_match; [by apply I_num_errors|done]).
    assert (P1 : path m1 = path m) by (unfold m1; by case_match).
    destruct (Z.leb_spec (num_errors m1) (max_errors m1)); [|done].
    destruct (Hb EmptyString) as [Hwf Hhas]; [done..|].
    rewrite string_app_nil_r in Hwf, Hhas.
    rewrite P1. by apply I_cbfunc.
  - (* a value *)
    destruct Hok as [?|Hwf]; [done|].
    assert (Hv : utf8_wf tvalue = true) by (by inversion Hwf).
    cbv zeta. apply I_num_errors.
    set (m1 := set_num_errors _ m).
    destruct (Z.leb_spec (num_errors m1) (max_errors m1));
      [|by apply I_num_errors].
    destruct (Hb tvalue) as [Hwfp Hhas]; [done| |].
    { simpl. rewrite edit_dist_zero by done. by apply bool_decide_eq_true_2. }
    apply I_cbfunc; [done..|by apply I_num_errors].
  - (* subtries *)
    destruct Hok as [?|Hwf]; [done|].
    cbv zeta.
    destruct (enchant_trie_get_subtrie _ _ _) as [subtrie nxtChS] eqn:E.
    apply I_num_errors.
    set (m1 := match subtrie with Some _ => _ | None => m end).
    assert (H1 : I m1 ∧ path m1 = path m).
    { unfold m1. destruct subtrie as [sub|]; [|done].
      apply get_subtrie_elem in E as (subs & Es & Hin). simpl in Es. subst.
      destruct (below_child (path m) subs nxtChS sub Hwf Hin Hb) as [Hbc Hokc].
      split.
      - apply I_path, I_word_pos. apply rec_emits; [done| |].
        + by rewrite path_set_word_pos, path_pushpath.
        + by apply I_word_pos, I_path.
      - rewrite path_poppath, path_set_word_pos, rec_path, path_set_word_pos,
          path_pushpath. apply cstr_chop_app. }
    destruct H1 as [I1 P1].
    set (m2 := set_num_errors (num_errors m1 + 1) m1).
    assert (I2 : I m2) by (by apply I_num_errors).
    set (m3 := if CStr.at_end (word_rest m2) then m2 else _).
    assert (H3 : I m3 ∧ path m3 = path m).
    { unfold m3. case_match; [done|]. split.
      - apply I_word_pos. apply rec_emits; [by right| |by apply I_word_pos].
        unfold m2. by rewrite path_set_word_pos, path_set_num_errors, P1.
      - unfold m2. by rewrite path_set_word_pos, rec_path, path_set_word_pos,
          path_set_num_errors. }
    destruct H3 as [I3 P3].
    destruct subtries as [subs|]; [|done]. simpl.
    by apply (emits_foreach (path m) subs).
Qed.
End Step.

Lemma find_matches_n_emits n t m :
  node_ok t → below (path m) t → I m →
  I (find_matches_n cbfunc n (Some t) m).
Proof.
  revert t m. induction n as [|n IH]; intros t m Hok Hb Hm; [done|].
  simpl. apply emits_body; try done.
  apply (find_matches_n_restores cbfunc cbfunc_keeps).
Qed.

(** X12.  Started with an empty path on a well-formed trie,
    [enchant_trie_find_matches] calls the callback only with well-formed
    strings that the trie holds (the exact lookup finds them), and only
    while [num_errors] is at most [max_errors]: whatever such calls and
    the walk's own assignments preserve holds when the walk returns. *)
Theorem find_matches_emits_words m :
  trie_wf root → path m = EmptyString → I m →
  I (enchant_trie_find_matches cbfunc (Some root) m).
Proof.
  intros Hwf Hp Hm. apply find_matches_n_emits; [by right| |done].
  intros q Hq Hhas. rewrite Hp. by split.
Qed.
End WalkEmits.

Lemma find_matches_emits_words_witness :
  let root := Branch [("a", Leaf "b"); ("c", Leaf "")] in
  let cb := λ (s : string) (m : EnchantTrieMatcher (list string)),
              set_cbdata (s :: cbdata m) m in
  let m :=
    matcher_fields (H := AsciiTables.tables) "ab" 1 case_sensitive
      [] in
  Forall (λ s, trie_has root s = true)
    (cbdata (enchant_trie_find_matches (H := AsciiTables.tables) cb
               (Some root) m)).
Proof.
  intros root cb m.
  apply (find_matches_emits_words (H := AsciiTables.tables) cb
           (λ s m0, ltac:(done)) root
           (λ m0, Forall (λ s, trie_has root s = true) (cbdata m0))
           (λ e m0 Hm0, Hm0) (λ p m0 Hm0, Hm0) (λ p m0 Hm0, Hm0)
           (λ s m0 _ Hs _ Hm0, Forall_cons_2 _ _ _ Hs Hm0) m).
  - constructor.
    + apply (bool_decide_unpack _). reflexivity.
    + intros k c Hin. right.
      repeat (apply elem_of_cons in Hin as [[= -> ->]|Hin]);
        [split_and!; [reflexivity|done|by constructor]..|].
      by apply elem_of_nil in Hin.
  - reflexivity.
  - constructor.
Defined.

(** ** A suggestion is always a word of the list *)

Section SuggestDefined.
Context `{UnicodeTables}.

Lemma suggest_cb_known (W : gmap string string) mtch
    (m : EnchantTrieMatcher EnchantSuggList) :
  is_Some (W !! mtch) →
  sugg_list_ok (cbdata m)
  ∧ Forall (λ s, ∃ k, s = Some k ∧ is_Some (W !! k))
           (sugg_live_suggs (cbdata m)) →
  let m' := enchant_pwl_suggest_cb mtch m in
  sugg_list_ok (cbdata m')
  ∧ Forall (λ s, ∃ k, s = Some k ∧ is_Some (W !! k))
           (sugg_live_suggs (cbdata m')).
Proof.
  intros Hk [Hok Hall]. cbv zeta.
  destruct (suggest_cb_cbdata mtch m Hok) as [Hok' Hem]. split; [done|].
  destruct Hem as [->|(loc & _ & -> & _)]; [done|].
  apply Forall_app. split; [by apply Forall_take|].
  repeat constructor. by exists mtch.
Qed.

Lemma suggest_matcher_known pwl word baseline :
  pwl_ok pwl →
  Forall (λ s, ∃ k, s = Some k ∧ is_Some (words_in_trie pwl !! k))
         (sugg_live_suggs (cbdata (pwl_suggest_matcher pwl word baseline))).
Proof.
  intros (Hwf & _ & Hhas). unfold pwl_suggest_matcher.
  set (I := λ m : EnchantTrieMatcher EnchantSuggList,
              sugg_list_ok (cbdata m)
              ∧ Forall (λ s, ∃ k, s = Some k
                                  ∧ is_Some (words_in_trie pwl !! k))
                       (sugg_live_suggs (cbdata m))).
  assert (I0 : I (matcher_fields word
                    (suggest_max_dist baseline word) case_insensitive
                    sugg_list_init)).
  { split; [apply sugg_list_init_ok|constructor]. }
  destruct (trie pwl) as [root|] eqn:Et.
  - assert (Icb : ∀ s m, utf8_wf s = true → trie_has root s = true →
                         num_errors m ≤ max_errors m → I m →
                         I (enchant_pwl_suggest_cb s m)).
    { intros s m Hs Hroot _ Hm. apply suggest_cb_known; [|done].
      specialize (Hhas s Hs). simpl in Hhas. rewrite Hroot in Hhas.
      symmetry in Hhas. by apply bool_decide_eq_true in Hhas. }
    unfold enchant_trie_find_matches.
    apply (find_matches_n_emits enchant_pwl_suggest_cb
             enchant_pwl_suggest_cb_keeps_position root I
             (λ e m Hm, Hm) (λ p m Hm, Hm) (λ p m Hm, Hm) Icb).
    + right. exact (Hwf root eq_refl).
    + intros q Hq Hh. by split.
    + exact I0.
  - apply I0.
Qed.

Lemma suggest_max_dist_nonneg baseline word :
  0 ≤ suggest_max_dist baseline word.
Proof.
  unfold suggest_max_dist. rewrite MIN_min. unfold ENCHANT_PWL_MAX_ERRORS.
  destruct baseline as [l|]; [|done]. unfold best_distance.
  set (nw := g_utf8_normalize_nfd word).
  destruct (foldl_MIN_spec (λ s, edit_dist nw (g_utf8_normalize_nfd s)) l
              (g_utf8_strlen nw)) as (_ & _ & Hatt).
  cbv zeta in Hatt.
  destruct Hatt as [->|(s & _ & ->)].
  - unfold g_utf8_strlen. lia.
  - pose proof (edit_dist_nonneg nw (g_utf8_normalize_nfd s)). lia.
Qed.

(** The lower-cased pattern fits when lower-casing does not make the
    normalized word longer. *)
Lemma matcher_init_not_longer {A} word maxerrs (c : A) :
  0 ≤ maxerrs →
  (CStr.len (g_utf8_strdown (g_utf8_normalize_nfd word))
   ≤ CStr.len (g_utf8_normalize_nfd word))%nat →
  enchant_trie_matcher_init word maxerrs case_insensitive c
  = Some (matcher_fields word maxerrs case_insensitive c).
Proof.
  intros He Hlen. unfold enchant_trie_matcher_init, matcher_pattern.
  cbv zeta. by rewrite bool_decide_eq_true_2 by lia.
Qed.

End SuggestDefined.


(** ** Reading the backing file *)

Lemma string_app_cons c (a b : string) :
  (String c a ++ b)%string = String c (a ++ b)%string.
Proof. reflexivity. Qed.

Lemma g_strchomp_app_newline l : g_strchomp (l ++ newline) = g_strchomp l.
Proof.
  induction l as [|c l IH]; [done|].
  rewrite string_app_cons. simpl. by rewrite IH.
Qed.

Lemma newline_free_app a b :
  newline_free (a ++ b) = newline_free a && newline_free b.
Proof.
  induction a as [|c a IH]; [done|].
  rewrite string_app_cons. simpl. rewrite IH. by rewrite andb_assoc.
Qed.

Lemma file_of_lines_app a b :
  file_of_lines (a ++ b) = (file_of_lines a ++ file_of_lines b)%string.
Proof.
  induction a as [|l a IH]; [done|]. simpl.
  by rewrite IH, !string_app_assoc.
Qed.

Lemma file_of_lines_len lines :
  (length lines ≤ CStr.len (file_of_lines lines))%nat.
Proof.
  induction lines as [|l r IH]; simpl; [lia|].
  rewrite !cstr_len_app. simpl. lia.
Qed.

Section ReadLines.
Context `{UnicodeTables}.
Variable BUFSIZ : nat.

(** A line that [fgets] reads in one piece. *)
Let short_line (l : string) : Prop :=
  newline_free l = true ∧ (CStr.len l < BUFSIZ)%nat.

Lemma fgets_n_line n l rest :
  newline_free l = true → (CStr.len l < n)%nat →
  fgets_n n (l ++ newline ++ rest) = ((l ++ newline)%string, rest).
Proof.
  revert n. induction l as [|c l IH]; intros n Hl Hn.
  - destruct n; [simpl in Hn; lia|]. reflexivity.
  - destruct n; [simpl in Hn; lia|].
    rewrite !string_app_cons. simpl in Hl.
    apply andb_prop in Hl as [Hc Hl].
    cbn [fgets_n]. rewrite bool_decide_eq_false_2.
    2:{ intros E. rewrite E in Hc. done. }
    rewrite IH; [done..|]. unfold CStr.len in *. simpl in Hn. lia.
Qed.

Lemma fgets_line l rest :
  short_line l →
  fgets BUFSIZ (l ++ newline ++ rest) = Some ((l ++ newline)%string, rest).
Proof.
  intros [Hl Hn]. unfold fgets.
  assert (CStr.at_end (l ++ newline ++ rest) = false) as -> by by destruct l.
  by rewrite fgets_n_line.
Qed.

(** On a file of short lines the loop reads line after line. *)
Lemma read_lines_lines lines n line_number pwl :
  Forall short_line lines → (length lines < n)%nat →
  read_lines BUFSIZ n line_number (file_of_lines lines) pwl
  = pwl_take_lines line_number pwl lines.
Proof.
  revert n line_number pwl.
  induction lines as [|l r IH]; intros n ln pwl Hall Hn.
  - destruct n; [simpl in Hn; lia|]. reflexivity.
  - destruct n; [simpl in Hn; lia|].
    apply Forall_cons in Hall as [Hl Hr].
    cbn [read_lines file_of_lines pwl_take_lines].
    rewrite fgets_line by done.
    rewrite last_byte_app_newline.
    rewrite (bool_decide_eq_false_2 (10%N ≠ 10%N)) by (by intros ?).
    cbn [andb]. rewrite IH by (done || simpl in Hn; lia).
    f_equal. unfold pwl_take_line, pwl_line_is_word. cbv zeta.
    by destruct (bool_decide (ln = 1%nat) && bool_decide _).
Qed.

Lemma pwl_take_line_plain line_number pwl l :
  (line_number = 1%nat → BOM ≠ g_utf8_get_char (l ++ newline)) →
  pwl_take_line line_number pwl l
  = if pwl_line_is_word (g_strchomp l)
    then enchant_pwl_add_to_trie pwl (g_strchomp l) else pwl.
Proof.
  intros Hb. unfold pwl_take_line. cbv zeta.
  assert ((bool_decide (line_number = 1%nat)
           && bool_decide (BOM = g_utf8_get_char (l ++ newline))) = false)
    as ->.
  { case_bool_decide as E1; [|done]. simpl.
    apply bool_decide_eq_false_2. by apply Hb. }
  by rewrite g_strchomp_app_newline.
Qed.

Lemma pwl_take_line_bom pwl l :
  pwl_take_line 1 pwl (BOM_utf8 ++ l)
  = if pwl_line_is_word (g_strchomp l)
    then enchant_pwl_add_to_trie pwl (g_strchomp l) else pwl.
Proof.
  unfold pwl_take_line. cbv zeta.
  assert (bool_decide (BOM = g_utf8_get_char ((BOM_utf8 ++ l) ++ newline))
          = true) as -> by reflexivity.
  cbn [andb bool_decide decide_rel].
  rewrite bool_decide_eq_true_2 by done. cbn [andb].
  change (CStr.drop _ ((BOM_utf8 ++ l) ++ newline)) with (l ++ newline)%string.
  by rewrite g_strchomp_app_newline.
Qed.

Lemma pwl_take_lines_plain line_number pwl lines :
  (2 ≤ line_number)%nat →
  pwl_take_lines line_number pwl lines
  = foldl enchant_pwl_add_to_trie pwl
      (filter (λ w, pwl_line_is_word w = true) (g_strchomp <$> lines)).
Proof.
  revert line_number pwl. induction lines as [|l r IH]; intros ln pwl Hln;
    [done|].
  cbn [pwl_take_lines]. rewrite IH by lia.
  rewrite pwl_take_line_plain by lia.
  rewrite fmap_cons, filter_cons.
  destruct (pwl_line_is_word (g_strchomp l)) eqn:E.
  - by rewrite decide_True by done.
  - by rewrite decide_False by done.
Qed.


End ReadLines.



(** ** What is added to the file is read back *)

Lemma last_byte_app a b :
  CStr.at_end b = false → last_byte (a ++ b) = last_byte b.
Proof.
  intros Hb. induction a as [|c a IH]; [done|].
  rewrite string_app_cons. simpl. rewrite IH.
  destruct (a ++ b)%string eqn:E; [|done].
  destruct a, b; done.
Qed.

Lemma last_byte_file_of_lines lines :
  lines ≠ [] → last_byte (file_of_lines lines) = 10%N.
Proof.
  induction lines as [|l r IH]; [done|]. intros _. simpl.
  destruct r as [|l' r'].
  - simpl. rewrite last_byte_app by done. reflexivity.
  - rewrite last_byte_app; [|by destruct l'].
    rewrite last_byte_app; [by apply IH|]. by destruct l'.
Qed.

Lemma file_of_lines_at_end lines :
  CStr.at_end (file_of_lines lines) = true ↔ lines = [].
Proof.
  destruct lines as [|l r]; [done|]. simpl. split; [|done].
  by destruct l.
Qed.

Section ReadBack.
Context `{UnicodeTables}.
Variable BUFSIZ : nat.

Lemma refresh_filename pwl disk :
  filename (enchant_pwl_refresh_from_file BUFSIZ pwl disk) = filename pwl.
Proof.
  assert (Hadd : ∀ q w, filename (enchant_pwl_add_to_trie q w) = filename q).
  { intros q w. unfold enchant_pwl_add_to_trie. by case_match. }
  assert (Hrl : ∀ n ln rest q,
             filename (read_lines BUFSIZ n ln rest q) = filename q).
  { induction n as [|n IH]; intros ln rest q; simpl; [done|].
    destruct (fgets BUFSIZ rest) as [[b r]|]; [|done].
    case_match; rewrite IH; [done|]. case_match; [apply Hadd|done]. }
  unfold enchant_pwl_refresh_from_file.
  destruct (filename pwl) eqn:Ef; [|done]. destruct disk; [|done].
  case_match; [done|]. by rewrite Hrl.
Qed.

Lemma add_to_trie_filename pwl word :
  filename (enchant_pwl_add_to_trie pwl word) = filename pwl.
Proof. unfold enchant_pwl_add_to_trie. by case_match. Qed.

Lemma pwl_take_lines_app line_number pwl a b :
  pwl_take_lines line_number pwl (a ++ b)
  = pwl_take_lines (line_number + length a)
      (pwl_take_lines line_number pwl a) b.
Proof.
  revert line_number pwl. induction a as [|l a IH]; intros ln pwl; simpl.
  - by rewrite Nat.add_0_r.
  - rewrite IH. by rewrite Nat.add_succ_r.
Qed.

(** The file as [enchant_pwl_add] leaves it: the lines that were there,
    the unfinished last line [tail] now ended by a line feed, and the
    word on a line of its own. *)
Lemma pwl_add_append_lines disk lines tail word now :
  match disk with
  | Some d => contents d = (file_of_lines lines ++ tail)%string
  | None => lines = [] ∧ tail = EmptyString
  end →
  newline_free tail = true →
  contents (pwl_add_append disk word now)
  = file_of_lines
      (lines ++ (if CStr.at_end tail then [] else [tail]) ++ [word]).
Proof.
  intros Hd Ht. unfold pwl_add_append. cbn [contents]. fold newline.
  set (old := match disk with Some d => contents d | None => EmptyString end).
  assert (Hold : old = (file_of_lines lines ++ tail)%string).
  { unfold old. destruct disk; [done|]. by destruct Hd as [-> ->]. }
  rewrite Hold. clear Hold old Hd.
  rewrite !file_of_lines_app.
  destruct tail as [|c tail]; cbn [CStr.at_end].
  - rewrite string_app_nil_r. simpl file_of_lines at 2.
    destruct lines as [|l r]; [done|].
    assert (CStr.at_end (file_of_lines (l :: r)) = false) as ->
      by (simpl; by destruct l).
    rewrite last_byte_file_of_lines by done.
    rewrite (bool_decide_eq_false_2 (10%N ≠ 10%N)) by (by intros ?).
    simpl. by rewrite string_app_nil_r.
  - assert (CStr.at_end (file_of_lines lines ++ String c tail) = false) as ->.
    { by destruct (file_of_lines lines). }
    rewrite last_byte_app by done.
    assert (last_byte (String c tail) ≠ 10%N) as Hne.
    { clear -Ht. revert c Ht. induction tail as [|c' t IH]; intros c Ht.
      - simpl in *. apply andb_prop in Ht as [Ht _].
        intros E. rewrite E in Ht. done.
      - simpl in Ht. apply andb_prop in Ht as [_ Ht].
        change (last_byte (String c (String c' t)))
          with (last_byte (String c' t)). by apply IH. }
    rewrite bool_decide_eq_true_2 by done.
    simpl. rewrite !string_app_assoc. by rewrite string_app_nil_r.
Qed.

End ReadBack.


(** ** A list opened on a file *)

Section InitWithFile.
Context `{UnicodeTables}.
Variable BUFSIZ : nat.

End InitWithFile.


(** ** Rewriting the file without a word *)

Lemma cstr_take_len_self s : CStr.take (CStr.len s) s = s.
Proof. induction s as [|c s IH]; [done|]. simpl. by rewrite IH. Qed.

Lemma cstr_take_app_add p r k :
  CStr.take (CStr.len p + k) (p ++ r) = (p ++ CStr.take k r)%string.
Proof.
  induction p as [|c p IH]; [done|].
  rewrite !string_app_cons. simpl. by rewrite IH.
Qed.

Lemma cstr_drop_app_add p r k :
  CStr.drop (CStr.len p + k) (p ++ r) = CStr.drop k r.
Proof. induction p as [|c p IH]; [done|]. by rewrite string_app_cons. Qed.

Lemma cstr_take_app_le k a b :
  (k ≤ CStr.len a)%nat → CStr.take k (a ++ b) = CStr.take k a.
Proof.
  revert k. induction a as [|c a IH]; intros k Hk.
  - simpl in Hk. by assert (k = 0)%nat as -> by lia.
  - destruct k as [|k]; [done|]. rewrite string_app_cons. simpl.
    rewrite IH; [done|]. unfold CStr.len in *. simpl in Hk. lia.
Qed.

Lemma cstr_drop_app_le k a b :
  (k ≤ CStr.len a)%nat → CStr.drop k (a ++ b) = (CStr.drop k a ++ b)%string.
Proof.
  revert k. induction a as [|c a IH]; intros k Hk.
  - simpl in Hk. by assert (k = 0)%nat as -> by lia.
  - destruct k as [|k]; [done|]. rewrite string_app_cons. simpl.
    rewrite IH; [done|]. unfold CStr.len in *. simpl in Hk. lia.
Qed.

Lemma cstr_len_take k s : CStr.len (CStr.take k s) = Nat.min k (CStr.len s).
Proof.
  revert k. induction s as [|c s IH]; intros [|k]; simpl; try done.
  unfold CStr.len in *. simpl. by rewrite IH.
Qed.

Lemma cstr_neqb_occ key t :
  CStr.neqb key t (CStr.len key)
  = bool_decide (CStr.take (CStr.len key) t = key).
Proof.
  unfold CStr.neqb. rewrite cstr_take_len_self.
  apply bool_decide_ext. split; intros E; done.
Qed.

Lemma eol_free_head c s : eol_free (String c s) = true →
  is_eol (N_of_ascii c) = false ∧ eol_free s = true.
Proof.
  simpl. intros [Hc Hs]%andb_prop. split; [|done].
  by destruct (is_eol (N_of_ascii c)).
Qed.

Lemma eol_free_drop k s : eol_free s = true → eol_free (CStr.drop k s) = true.
Proof.
  revert k. induction s as [|c s IH]; intros [|k] Hs; try done.
  simpl. apply IH. by apply eol_free_head in Hs as [_ ?].
Qed.

Lemma eol_free_byte_at k s :
  eol_free s = true → is_eol (byte_at s k) = false.
Proof.
  intros Hs. unfold byte_at.
  pose proof (eol_free_drop k s Hs) as Hd.
  destruct (CStr.drop k s) as [|c r]; [done|].
  by apply eol_free_head in Hd as [? _].
Qed.

(** An occurrence of a word without end-of-line bytes does not reach
    into the line feed behind [a]. *)
Lemma occ_before_newline key a r :
  eol_free key = true →
  CStr.take (CStr.len key) (a ++ newline ++ r) = key
  ↔ CStr.take (CStr.len key) a = key.
Proof.
  revert a. induction key as [|k key IH]; intros a Hk; [done|].
  apply eol_free_head in Hk as [Hk0 Hk].
  destruct a as [|c a].
  - simpl. split; [|done]. intros [= <- _]. done.
  - rewrite string_app_cons. simpl. split.
    + intros [= -> E]. f_equal. by apply IH.
    + intros [= -> E]. f_equal. by apply IH.
Qed.

Lemma strstr_empty key :
  CStr.at_end key = false → strstr EmptyString key = None.
Proof.
  intros Hk. destruct key as [|k key]; [done|]. cbn [strstr].
  rewrite cstr_neqb_occ. by rewrite bool_decide_eq_false_2.
Qed.

(** The first occurrence in a text that begins with the line [s]. *)
Lemma strstr_line key s r :
  CStr.at_end key = false → eol_free key = true →
  strstr (s ++ newline ++ r) key
  = match strstr s key with
    | Some off => Some off
    | None => (λ o, CStr.len s + 1 + o)%nat <$> strstr r key
    end.
Proof.
  intros Hne Hk. induction s as [|c s IH].
  - rewrite strstr_empty by done.
    change (EmptyString ++ newline ++ r)%string
      with (String (ascii_of_N 10) r).
    destruct key as [|k key]; [done|].
    apply eol_free_head in Hk as [Hk0 _].
    cbn [strstr]. rewrite cstr_neqb_occ.
    rewrite bool_decide_eq_false_2.
    2:{ simpl. intros [= <- _]. done. }
    destruct (strstr r (String k key)); done.
  - rewrite string_app_cons.
    destruct key as [|k key]; [done|].
    cbn [strstr]. rewrite !cstr_neqb_occ.
    rewrite <- string_app_cons.
    rewrite (bool_decide_ext _ _ (occ_before_newline _ (String c s) r Hk)).
    case_bool_decide; [done|].
    rewrite ?string_app_cons.
    fold (strstr (s ++ newline ++ r) (String k key)).
    fold (strstr s (String k key)).
    rewrite IH. destruct (strstr s (String k key)); [done|].
    simpl. destruct (strstr r (String k key)); done.
Qed.

Lemma strstr_Some hay key off :
  strstr hay key = Some off →
  CStr.take (CStr.len key) (CStr.drop off hay) = key
  ∧ (off + CStr.len key ≤ CStr.len hay)%nat.
Proof.
  revert off. induction hay as [|c hay IH]; intros off; cbn [strstr];
    rewrite cstr_neqb_occ; case_bool_decide as E.
  - intros [= <-]. split; [done|]. rewrite <- E at 1.
    rewrite cstr_len_take. simpl. lia.
  - done.
  - intros [= <-]. split; [done|]. rewrite <- E at 1.
    rewrite cstr_len_take. lia.
  - intros Hs. apply fmap_Some in Hs as (o & Ho & ->).
    apply IH in Ho as [? ?]. split; [done|].
    unfold CStr.len in *. simpl. lia.
Qed.

Lemma strstr_self_prefix key s :
  CStr.take (CStr.len key) s = key → strstr s key = Some 0%nat.
Proof.
  intros E. destruct s; cbn [strstr]; rewrite cstr_neqb_occ;
    by rewrite bool_decide_eq_true_2.
Qed.

Lemma skip_eols_last s k :
  skip_eols s = S k → is_eol (byte_at s k) = true.
Proof.
  revert k. induction s as [|c s IH]; intros k; [done|]. simpl.
  destruct (is_eol (N_of_ascii c)) eqn:Ec; [|done].
  intros [= E]. destruct k as [|k]; [done|].
  unfold byte_at. simpl. by apply IH.
Qed.

Lemma skip_eols_lines lines :
  Forall (λ l, eol_free l = true ∧ CStr.at_end l = false) lines →
  skip_eols (file_of_lines lines) = 0%nat.
Proof.
  intros Hall. destruct lines as [|l r]; [done|].
  apply Forall_cons in Hall as [[Hl Hne] _].
  destruct l as [|c l]; [done|].
  apply eol_free_head in Hl as [Hc _]. simpl. by rewrite Hc.
Qed.

Lemma byte_at_drop s p k : byte_at (CStr.drop p s) k = byte_at s (p + k).
Proof. unfold byte_at. by rewrite cstr_drop_add. Qed.

Lemma byte_at_app_le k a b :
  (k < CStr.len a)%nat → byte_at (a ++ b) k = byte_at a k.
Proof.
  intros Hk. unfold byte_at. rewrite cstr_drop_app_le by lia.
  destruct (CStr.drop k a) eqn:E; [|done].
  assert (CStr.len (CStr.drop k a) = 0%nat) as Hl by (by rewrite E).
  rewrite cstr_len_drop in Hl. lia.
Qed.

Lemma pwl_remove_loop_fuel contents key filestart :
  CStr.at_end key = false →
  ∀ n m pos,
    (CStr.len contents - pos < n)%nat → (CStr.len contents - pos < m)%nat →
    pwl_remove_loop n contents key filestart pos
    = pwl_remove_loop m contents key filestart pos.
Proof.
  intros Hne.
  assert (Hk : (0 < CStr.len key)%nat).
  { destruct key; [done|]. unfold CStr.len. simpl. lia. }
  induction n as [|n IH]; intros m pos Hn Hm; [lia|].
  destruct m as [|m]; [lia|]. cbn [pwl_remove_loop].
  destruct (strstr (CStr.drop pos contents) key) as [off|] eqn:Es; [|done].
  apply strstr_Some in Es as [_ Hle]. rewrite cstr_len_drop in Hle.
  cbv zeta. case_match.
  - f_equal. apply IH; lia.
  - f_equal. apply IH; lia.
Qed.

Section RemoveScan.
Variable key : string.
Hypothesis key_nonempty : CStr.at_end key = false.
Hypothesis key_eol_free : eol_free key = true.

Lemma key_len_pos : (0 < CStr.len key)%nat.
Proof. destruct key; [done|]. unfold CStr.len. simpl. lia. Qed.

Lemma scan_empty n a : pwl_remove_scan n key a EmptyString = EmptyString.
Proof.
  destruct n; [done|]. cbn [pwl_remove_scan]. by rewrite strstr_empty.
Qed.

(** The loop, seen from [searchstart]. *)
Lemma loop_scan n contents filestart pos :
  (filestart ≤ pos)%nat →
  pwl_remove_loop n contents key filestart pos
  = pwl_remove_scan n key
      (bool_decide (pos = filestart) || is_eol (byte_at contents (pos - 1)))
      (CStr.drop pos contents).
Proof.
  revert pos. induction n as [|n IH]; intros pos Hpos; [done|].
  cbn [pwl_remove_loop pwl_remove_scan].
  destruct (strstr (CStr.drop pos contents) key) as [off|] eqn:Es; [|done].
  cbv zeta.
  apply strstr_Some in Es as [Hocc Hlen].
  rewrite cstr_len_drop in Hlen. pose proof key_len_pos as Hkl.
  assert (Hb : (bool_decide (pos + off = filestart)%nat
                || is_eol (byte_at contents (pos + off - 1)%nat))
               = match off with
                 | O => bool_decide (pos = filestart)
                        || is_eol (byte_at contents (pos - 1)%nat)
                 | S k => is_eol (byte_at (CStr.drop pos contents) k)
                 end).
  { destruct off as [|k].
    - by rewrite Nat.add_0_r.
    - rewrite bool_decide_eq_false_2 by lia. simpl.
      rewrite byte_at_drop. do 2 f_equal. lia. }
  rewrite Hb. clear Hb.
  rewrite <- cstr_drop_add.
  assert (Ha : bool_decide (pos + off + CStr.len key = CStr.len contents)%nat
               = CStr.at_end
                   (CStr.drop (pos + off + CStr.len key)%nat contents)).
  { destruct (CStr.at_end (CStr.drop (pos + off + CStr.len key)%nat contents))
      eqn:E.
    - apply cstr_at_end_len in E. rewrite cstr_len_drop in E.
      apply bool_decide_eq_true_2. lia.
    - apply bool_decide_eq_false_2. intros E'.
      assert (CStr.at_end
                (CStr.drop (pos + off + CStr.len key)%nat contents)
              = true); [|congruence].
      apply cstr_at_end_len. rewrite cstr_len_drop. lia. }
  rewrite Ha. clear Ha.
  replace (pos + (off + CStr.len key))%nat
    with (pos + off + CStr.len key)%nat by lia.
  change (byte_at contents (pos + off + CStr.len key)%nat)
    with (CStr.head (CStr.drop (pos + off + CStr.len key)%nat contents)).
  remember (CStr.drop (pos + off + CStr.len key)%nat contents) as fe eqn:Efe.
  set (before := match off with O => _ | S k => _ end).
  destruct (before && (CStr.at_end fe || is_eol (CStr.head fe))) eqn:Ec.
  - f_equal. rewrite IH by lia.
    rewrite cstr_drop_add, <- Efe.
    destruct (skip_eols fe) as [|k] eqn:Ek.
    + apply andb_prop in Ec as [_ Ec].
      assert (fe = EmptyString) as ->.
      { destruct fe as [|c fe']; [done|]. simpl in Ec, Ek.
        rewrite Ec in Ek. done. }
      simpl. by rewrite !scan_empty.
    + apply skip_eols_last in Ek as Hk.
      rewrite Efe, byte_at_drop in Hk.
      replace (pos + off + CStr.len key + S k - 1)%nat
        with (pos + off + CStr.len key + k)%nat by lia.
      rewrite Hk. by rewrite orb_true_r.
  - f_equal. rewrite IH by lia.
    rewrite bool_decide_eq_false_2 by lia. cbn [orb].
    rewrite byte_at_drop.
    replace (S (pos + off) - 1)%nat with (pos + off)%nat by lia.
    f_equal. by rewrite <- cstr_drop_add, Nat.add_succ_r.
Qed.

(** No occurrence in the line [s]: the loop copies the line. *)
Lemma scan_next_line n a s r :
  strstr s key = None →
  pwl_remove_scan n key a (s ++ newline ++ r)
  = (s ++ newline ++ pwl_remove_scan n key true r)%string.
Proof.
  intros Hs. destruct n as [|n]; [done|].
  cbn [pwl_remove_scan]. rewrite strstr_line, Hs by done.
  destruct (strstr r key) as [off|] eqn:Er; [|done].
  cbn [fmap option_fmap option_map]. cbv zeta.
  replace (CStr.len s + 1 + off)%nat
    with (S (CStr.len s + off)) by lia.
  rewrite <- !string_app_assoc.
  set (p := (s ++ newline)%string).
  assert (Hp : CStr.len p = S (CStr.len s)).
  { unfold p. rewrite cstr_len_app. simpl. lia. }
  assert (Hb : is_eol (byte_at (p ++ r) (CStr.len s + off))
               = match off with
                 | O => true
                 | S k => is_eol (byte_at r k)
                 end).
  { destruct off as [|k].
    - rewrite Nat.add_0_r, byte_at_app_le by lia.
      unfold p, byte_at. rewrite cstr_drop_app_len. done.
    - unfold byte_at.
      replace (CStr.len s + S k)%nat with (CStr.len p + k)%nat by lia.
      by rewrite cstr_drop_app_add. }
  rewrite Hb. clear Hb.
  replace (S (CStr.len s + off) + CStr.len key)%nat
    with (CStr.len p + (off + CStr.len key))%nat by lia.
  rewrite cstr_drop_app_add.
  replace (S (CStr.len s + off)) with (CStr.len p + off)%nat by lia.
  rewrite cstr_take_app_add.
  replace (S (CStr.len p + off)) with (CStr.len p + S off)%nat by lia.
  rewrite cstr_take_app_add, cstr_drop_app_add.
  unfold byte_at at 2. rewrite cstr_drop_app_add. fold (byte_at r off).
  case_match; by rewrite !string_app_assoc.
Qed.

(** The first occurrence lies in the line [s]. *)
Lemma scan_in_line n a s r off :
  eol_free s = true → strstr s key = Some off →
  pwl_remove_scan (S n) key a (s ++ newline ++ r)
  = if match off with O => a | S _ => false end
       && bool_decide (off + CStr.len key = CStr.len s)%nat
    then (CStr.take off s
          ++ pwl_remove_scan n key true
               (CStr.drop (skip_eols (newline ++ r)) (newline ++ r)))%string
    else (CStr.take (S off) s
          ++ pwl_remove_scan n key false
               (CStr.drop (S off) s ++ newline ++ r))%string.
Proof.
  intros Hs Hocc. cbn [pwl_remove_scan]. rewrite strstr_line, Hocc by done.
  cbv zeta. apply strstr_Some in Hocc as [Hocc Hlen].
  pose proof key_len_pos as Hkl.
  assert (Hb : match off with
               | O => a
               | S k => is_eol (byte_at (s ++ newline ++ r) k)
               end
               = match off with O => a | S _ => false end).
  { destruct off as [|k]; [done|].
    rewrite byte_at_app_le by lia. by apply eol_free_byte_at. }
  rewrite Hb. clear Hb.
  rewrite cstr_drop_app_le by lia.
  assert (Ha : (CStr.at_end (CStr.drop (off + CStr.len key) s ++ newline ++ r)
                || is_eol (CStr.head (CStr.drop (off + CStr.len key) s
                                      ++ newline ++ r)))
               = bool_decide (off + CStr.len key = CStr.len s)%nat).
  { destruct (CStr.drop (off + CStr.len key) s) as [|c d] eqn:Ed.
    - assert (CStr.len (CStr.drop (off + CStr.len key) s) = 0%nat) as Hl
        by (by rewrite Ed).
      rewrite cstr_len_drop in Hl.
      rewrite bool_decide_eq_true_2 by lia. done.
    - assert (CStr.len (CStr.drop (off + CStr.len key) s) ≠ 0%nat) as Hl
        by (by rewrite Ed).
      rewrite cstr_len_drop in Hl.
      rewrite bool_decide_eq_false_2 by lia.
      pose proof (eol_free_drop (off + CStr.len key) s Hs) as Hd.
      rewrite Ed in Hd. apply eol_free_head in Hd as [Hc _].
      rewrite string_app_cons. simpl. by rewrite Hc. }
  rewrite Ha. clear Ha.
  rewrite !cstr_take_app_le by lia.
  rewrite byte_at_app_le by lia.
  rewrite eol_free_byte_at by done.
  destruct (_ && _) eqn:Ec.
  - apply andb_prop in Ec as [_ Ec]. apply bool_decide_eq_true in Ec.
    f_equal. f_equal.
    assert (CStr.drop (off + CStr.len key) s = EmptyString) as ->; [|done].
    assert (CStr.len (CStr.drop (off + CStr.len key) s) = 0%nat) as Hl
      by (rewrite cstr_len_drop; lia).
    by destruct (CStr.drop (off + CStr.len key) s).
  - f_equal. f_equal. by rewrite cstr_drop_app_le by lia.
Qed.

Section Lines.
Variable lines : list string.
Hypothesis lines_ok :
  Forall (λ l, eol_free l = true ∧ CStr.at_end l = false) lines.
Variable out : string.
Hypothesis scan_lines_out :
  ∀ n, (CStr.len (file_of_lines lines) < n)%nat →
       pwl_remove_scan n key true (file_of_lines lines) = out.

Lemma scan_suffix m s n a :
  (CStr.len s ≤ m)%nat → eol_free s = true →
  (CStr.len (s ++ newline ++ file_of_lines lines) < n)%nat →
  pwl_remove_scan n key a (s ++ newline ++ file_of_lines lines)
  = ((if a && bool_decide (s = key) then EmptyString else s ++ newline)
     ++ out)%string.
Proof.
  revert s n a. induction m as [|m IH]; intros s n a Hm Hs Hn.
  - assert (s = EmptyString) as -> by (destruct s; [done|simpl in Hm; lia]).
    rewrite scan_next_line by (by apply strstr_empty).
    rewrite scan_lines_out.
    2:{ rewrite !cstr_len_app in Hn. lia. }
    rewrite (bool_decide_eq_false_2 (EmptyString = key))
      by (intros <-; by simpl in key_nonempty).
    by rewrite andb_false_r.
  - rewrite !cstr_len_app in Hn.
    destruct (strstr s key) as [off|] eqn:Eocc.
    + destruct n as [|n]; [lia|].
      rewrite (scan_in_line n a s _ off) by done.
      pose proof (strstr_Some _ _ _ Eocc) as [Hocc Hlen].
      pose proof key_len_pos as Hkl.
      destruct (_ && bool_decide (off + CStr.len key = CStr.len s)%nat) eqn:Ec.
      * apply andb_prop in Ec as [Ea Ec]. apply bool_decide_eq_true in Ec.
        destruct off as [|k]; [|done]. subst a.
        assert (s = key) as Hsk.
        { simpl in Hocc, Ec. rewrite Ec in Hocc.
          by rewrite cstr_take_len_self in Hocc. }
        rewrite (bool_decide_eq_true_2 (s = key)) by done.
        cbn [andb CStr.take].
        change (skip_eols (newline ++ file_of_lines lines))
          with (S (skip_eols (file_of_lines lines))).
        rewrite skip_eols_lines by done.
        change (CStr.drop 1 (newline ++ file_of_lines lines))
          with (file_of_lines lines).
        rewrite scan_lines_out by (simpl in Hn; lia). done.
      * rewrite (IH (CStr.drop (S off) s)).
        -- cbn [andb].
           assert ((a && bool_decide (s = key)) = false) as ->.
           { destruct a; [|done]. simpl.
             apply bool_decide_eq_false_2. intros Hsk.
             rewrite (strstr_self_prefix key s) in Eocc
               by (rewrite Hsk; apply cstr_take_len_self).
             injection Eocc as <-. simpl in Ec.
             rewrite bool_decide_eq_true_2 in Ec; [done|].
             by rewrite Hsk. }
           rewrite <- !string_app_assoc. rewrite cstr_take_drop. done.
        -- rewrite cstr_len_drop. lia.
        -- by apply eol_free_drop.
        -- rewrite !cstr_len_app, cstr_len_drop. simpl in *. lia.
    + rewrite scan_next_line by done.
      rewrite scan_lines_out by lia.
      assert ((a && bool_decide (s = key)) = false) as ->.
      { rewrite (bool_decide_eq_false_2 (s = key)); [by rewrite andb_false_r|].
        intros Hsk.
        rewrite (strstr_self_prefix key s) in Eocc
          by (rewrite Hsk; apply cstr_take_len_self).
        done. }
      by rewrite !string_app_assoc.
Qed.
End Lines.

Lemma scan_lines lines n :
  Forall (λ l, eol_free l = true ∧ CStr.at_end l = false) lines →
  (CStr.len (file_of_lines lines) < n)%nat →
  pwl_remove_scan n key true (file_of_lines lines)
  = file_of_lines (filter (λ l, l ≠ key) lines).
Proof.
  revert n. induction lines as [|l r IH]; intros n Hall Hn.
  - apply scan_empty.
  - apply Forall_cons in Hall as [[Hl Hne] Hr].
    cbn [file_of_lines].
    rewrite (scan_suffix r Hr (file_of_lines (filter (λ l, l ≠ key) r))
               (λ n' Hn', IH n' Hr Hn') (CStr.len l) l n true);
      [|done..].
    rewrite filter_cons. cbn [andb].
    case_bool_decide as E.
    + by rewrite decide_False by (by intros ?).
    + rewrite decide_True by done. cbn [file_of_lines].
      by rewrite !string_app_assoc.
Qed.
End RemoveScan.



(** The end-of-line bytes behind a removed line are all passed over, so
    the empty lines that follow it go with it; and a word that has a
    line feed in it is never found as a line. *)
Example remove_rewrite_empty_lines :
  pwl_remove_rewrite (file_of_lines ["a"; ""; ""; "b"]) "a"
  = file_of_lines ["b"]
  ∧ pwl_remove_rewrite (file_of_lines ["a"; "b"; "c"]) "x"
    = file_of_lines ["a"; "b"; "c"].
Proof. by vm_compute. Qed.

(** ** Removing a word from a list without a file *)

Section RemoveWord.
Context `{UnicodeTables}.
Variable BUFSIZ : nat.

Lemma remove_from_trie_filename pwl word pwl' :
  enchant_pwl_remove_from_trie pwl word = Some pwl' →
  filename pwl' = filename pwl.
Proof.
  unfold enchant_pwl_remove_from_trie. case_match; [|by intros [= <-]].
  intros Hr. apply bind_Some in Hr as (t & _ & [= <-]). done.
Qed.

(** X19.  [enchant_pwl_remove] on a list that has no backing file and
    was built by [enchant_pwl_add_to_trie] and
    [enchant_pwl_remove_from_trie]: the call is defined, the file system
    is not touched, and afterwards the exact lookup no longer finds the
    word while every word with another NFD form is found as before.
    (When [enchant_pwl_check] does not find the word, nothing is done;
    when it finds it only in another case, nothing is removed.) *)
Theorem remove_then_not_contained pwl disk word now mtime :
  pwl_reachable pwl → filename pwl = None →
  utf8_wf (g_utf8_normalize_nfd word) = true →
  ∃ pwl',
    enchant_pwl_remove BUFSIZ pwl disk word now mtime = Some (pwl', disk)
    ∧ pwl_reachable pwl'
    ∧ enchant_pwl_contains pwl' word = false
    ∧ ∀ q, utf8_wf (g_utf8_normalize_nfd q) = true →
           g_utf8_normalize_nfd q ≠ g_utf8_normalize_nfd word →
           enchant_pwl_contains pwl' q = enchant_pwl_contains pwl q.
Proof.
  intros Hr Hf Hw. unfold enchant_pwl_remove, enchant_pwl_check.
  assert (Href : enchant_pwl_refresh_from_file BUFSIZ pwl disk = pwl).
  { unfold enchant_pwl_refresh_from_file. by rewrite Hf. }
  rewrite Href. cbv beta iota zeta.
  destruct (pwl_check_refreshed pwl word =? 1) eqn:Ec.
  - exists pwl. split_and!; [done..| |done].
    apply Z.eqb_eq in Ec. unfold pwl_check_refreshed in Ec.
    by destruct (enchant_pwl_contains pwl word).
  - rewrite Href.
    destruct (remove_from_trie_ok pwl word (pwl_reachable_ok pwl Hr))
      as (pwl' & Hrm & Hok' & Hd).
    rewrite Hrm. cbn [mbind option_bind].
    rewrite (remove_from_trie_filename pwl word pwl' Hrm), Hf.
    exists pwl'. split; [done|].
    assert (Hr' : pwl_reachable pwl') by (by eapply pwl_reach_remove).
    split; [done|].
    pose proof (pwl_trie_agrees_with_table_aux pwl' Hok') as Hc'.
    pose proof (pwl_trie_agrees_with_table_aux pwl (pwl_reachable_ok pwl Hr))
      as Hc.
    split.
    + rewrite Hc' by done. rewrite Hd, lookup_delete_eq.
      apply bool_decide_eq_false_2. by intros [? ?].
    + intros q Hq Hne. rewrite Hc', Hc by done.
      by rewrite Hd, lookup_delete_ne.
Qed.
End RemoveWord.

Lemma remove_then_not_contained_witness :
  let pwl :=
    enchant_pwl_add_to_trie (H := AsciiTables.tables)
      (enchant_pwl_add_to_trie (H := AsciiTables.tables)
         enchant_pwl_init "hello") "help" in
  ∃ pwl',
    enchant_pwl_remove (H := AsciiTables.tables) 512 pwl None "help" 0 0
    = Some (pwl', None)
    ∧ pwl_reachable (H := AsciiTables.tables) pwl'
    ∧ enchant_pwl_contains (H := AsciiTables.tables) pwl' "help" = false
    ∧ ∀ q,
        utf8_wf (g_utf8_normalize_nfd (UnicodeTables := AsciiTables.tables) q)
        = true →
        g_utf8_normalize_nfd (UnicodeTables := AsciiTables.tables) q
        ≠ g_utf8_normalize_nfd (UnicodeTables := AsciiTables.tables) "help" →
        enchant_pwl_contains (H := AsciiTables.tables) pwl' q
        = enchant_pwl_contains (H := AsciiTables.tables) pwl q.
Proof.
  intros pwl.
  apply (remove_then_not_contained (H := AsciiTables.tables) 512 pwl None
           "help" 0 0).
  - unfold pwl. apply pwl_reach_add; [|reflexivity].
    apply pwl_reach_add; [|reflexivity].
    apply (pwl_reach_empty (H := AsciiTables.tables) None 0).
  - reflexivity.
  - reflexivity.
Defined.

(** ** Adding a word to a list without a file *)

Section AddWord.
Context `{UnicodeTables}.
Variable BUFSIZ : nat.

(** X20.  [enchant_pwl_add] on a list that has no backing file and was
    built by [enchant_pwl_add_to_trie] and
    [enchant_pwl_remove_from_trie]: the file system is not touched,
    [enchant_pwl_check] then answers 0 (found) for the word as it was
    added, and the exact lookup of every word with another NFD form
    answers as before. *)
Theorem add_then_check_finds pwl disk word now :
  pwl_reachable pwl → filename pwl = None →
  utf8_wf (g_utf8_normalize_nfd word) = true →
  let r := enchant_pwl_add BUFSIZ pwl disk word now in
  r.2 = disk
  ∧ pwl_reachable r.1
  ∧ (enchant_pwl_check BUFSIZ r.1 disk word).1 = 0
  ∧ ∀ q, utf8_wf (g_utf8_normalize_nfd q) = true →
         g_utf8_normalize_nfd q ≠ g_utf8_normalize_nfd word →
         enchant_pwl_contains r.1 q = enchant_pwl_contains pwl q.
Proof.
  intros Hr Hf Hw r.
  assert (Href : ∀ p, filename p = None →
                      enchant_pwl_refresh_from_file BUFSIZ p disk = p).
  { intros p Hp. unfold enchant_pwl_refresh_from_file. by rewrite Hp. }
  assert (Er : r = (enchant_pwl_add_to_trie pwl word, disk)).
  { unfold r, enchant_pwl_add. rewrite Href by done. cbv zeta.
    by rewrite add_to_trie_filename, Hf. }
  rewrite Er. cbn [fst snd].
  assert (Hr' : pwl_reachable (enchant_pwl_add_to_trie pwl word))
    by (by apply pwl_reach_add).
  pose proof (pwl_trie_agrees_with_table_aux _ (pwl_reachable_ok _ Hr'))
    as Hc'.
  pose proof (pwl_trie_agrees_with_table_aux _ (pwl_reachable_ok _ Hr)) as Hc.
  split_and!; [done..| |].
  - unfold enchant_pwl_check.
    rewrite Href by (by rewrite add_to_trie_filename).
    cbn [fst]. unfold pwl_check_refreshed. rewrite Hc' by done.
    by rewrite bool_decide_eq_true_2 by apply add_to_trie_makes_known.
  - intros q Hq Hne. rewrite Hc', Hc by done.
    apply bool_decide_ext. rewrite add_to_trie_keys.
    split; [intros [?|?]; done|by right].
Qed.
End AddWord.

Lemma add_then_check_finds_witness :
  let pwl :=
    enchant_pwl_add_to_trie (H := AsciiTables.tables) enchant_pwl_init
      "hello" in
  let r := enchant_pwl_add (H := AsciiTables.tables) 512 pwl None "help" 0 in
  r.2 = None
  ∧ pwl_reachable (H := AsciiTables.tables) r.1
  ∧ (enchant_pwl_check (H := AsciiTables.tables) 512 r.1 None "help").1 = 0
  ∧ ∀ q,
      utf8_wf (g_utf8_normalize_nfd (UnicodeTables := AsciiTables.tables) q)
      = true →
      g_utf8_normalize_nfd (UnicodeTables := AsciiTables.tables) q
      ≠ g_utf8_normalize_nfd (UnicodeTables := AsciiTables.tables) "help" →
      enchant_pwl_contains (H := AsciiTables.tables) r.1 q
      = enchant_pwl_contains (H := AsciiTables.tables) pwl q.
Proof.
  intros pwl.
  apply (add_then_check_finds (H := AsciiTables.tables) 512 pwl None
           "help" 0).
  - unfold pwl. apply pwl_reach_add; [|reflexivity].
    apply (pwl_reach_empty (H := AsciiTables.tables) None 0).
  - reflexivity.
  - reflexivity.
Defined.

(** ** The decision of enchant_pwl_check *)

Section Check.
Context `{UnicodeTables}.
Variable BUFSIZ : nat.

Lemma all_caps_loop_cases its hasCap :
  default false (all_caps_loop its hasCap)
  = (hasCap || existsb is_uppercase_letter its)
    && forallb (λ ch, negb (is_lowercase_letter ch || is_titlecase_letter ch))
               its.
Proof.
  revert hasCap. induction its as [|ch its IH]; intros hasCap; simpl.
  - by rewrite orb_false_r, andb_true_r.
  - unfold is_uppercase_letter, is_lowercase_letter, is_titlecase_letter
      in *.
    destruct (g_unichar_type ch) eqn:E; rewrite ?IH; simpl.
    + by rewrite orb_true_r.
    + by rewrite andb_false_r.
    + by rewrite andb_false_r.
    + done.
Qed.

(** The two tests of the source are those of the specification. *)
Lemma enchant_is_all_caps_spec word :
  enchant_is_all_caps word = spec_is_all_caps word.
Proof.
  unfold enchant_is_all_caps, spec_is_all_caps, utf8_scalars.
  destruct (CStr.at_end word) eqn:E.
  - apply cstr_at_end_empty in E as ->. reflexivity.
  - by rewrite all_caps_loop_cases.
Qed.

Lemma enchant_is_title_case_spec word :
  enchant_is_title_case word = spec_is_title_case word.
Proof.
  unfold enchant_is_title_case, spec_is_title_case, utf8_scalars.
  rewrite (g_utf8_to_ucs4_fast_unfold word).
  destruct (CStr.at_end word); [done|]. cbv zeta.
  unfold is_upper_or_title, is_uppercase_letter, is_titlecase_letter.
  set (ch := g_utf8_get_char word).
  assert (Hor : ∀ c, bool_decide
                       (g_unichar_type c = G_UNICODE_UPPERCASE_LETTER
                        ∨ g_unichar_type c = G_UNICODE_TITLECASE_LETTER)
                     = bool_decide
                         (g_unichar_type c = G_UNICODE_UPPERCASE_LETTER)
                       || bool_decide
                            (g_unichar_type c = G_UNICODE_TITLECASE_LETTER)).
  { intros c. by destruct (g_unichar_type c). }
  rewrite Hor.
  destruct (bool_decide (g_unichar_type ch = _) || bool_decide _); [|done].
  cbn [negb orb andb].
  case_bool_decide as E1; case_bool_decide as E2; try done; cbn [andb].
  induction (g_utf8_to_ucs4_fast _) as [|c l IH]; [done|].
  simpl. by rewrite Hor, IH.
Qed.

Lemma enchant_utf8_strtitle_spec word :
  enchant_utf8_strtitle word = spec_title_case_form word.
Proof.
  unfold enchant_utf8_strtitle, spec_title_case_form. cbv zeta.
  do 3 f_equal. rewrite (g_utf8_to_ucs4_fast_unfold (g_utf8_strup word)).
  destruct (CStr.at_end (g_utf8_strup word)) eqn:E; [|done].
  by apply cstr_at_end_empty in E as ->.
Qed.

End Check.

(** C1 as stated fails for a word that is title-case and all-caps at
    once, when only its title-cased form is in the list.  The word "A"
    followed by the mark U+0345 is both (the mark is no letter); its
    upper-case form is "A" followed by U+0399, so its title-cased form
    is "A" followed by U+03B9.  With that form in the list the all-caps
    arm of the claim answers 0, but the source does not look at
    all-caps once the word has passed for title-case, and answers 1. *)
Lemma check_title_case_and_all_caps_word :
  ¬ (∀ pwl word, word ≠ EmptyString →
       let has w :=
         pwl_trie_has (trie pwl)
           (g_utf8_normalize_nfd (UnicodeTables := IotaTables.tables) w) in
       let lower :=
         g_utf8_strdown (UnicodeTables := IotaTables.tables) word in
       (enchant_pwl_check (H := IotaTables.tables) 512 pwl None word).1
       = if has word then 0
         else if spec_is_title_case (H := IotaTables.tables) word
                 && has lower then 0
         else if spec_is_all_caps (H := IotaTables.tables) word
                 && (has lower
                     || has (spec_title_case_form (H := IotaTables.tables)
                               word)) then 0
         else 1).
Proof.
  intros Hall.
  pose (word := ("A" ++ IotaTables.ypogegrammeni)%string).
  pose (pwl := enchant_pwl_add_to_trie (H := IotaTables.tables)
                 enchant_pwl_init ("A" ++ IotaTables.small_iota)).
  specialize (Hall pwl word ltac:(done)).
  vm_compute in Hall. discriminate.
Qed.

(** The same run, spelled out. *)
Example check_title_case_and_all_caps_run :
  let word := ("A" ++ IotaTables.ypogegrammeni)%string in
  let title := ("A" ++ IotaTables.small_iota)%string in
  let pwl :=
    enchant_pwl_add_to_trie (H := IotaTables.tables) enchant_pwl_init title in
  enchant_is_title_case (H := IotaTables.tables) word = true
  ∧ enchant_is_all_caps (H := IotaTables.tables) word = true
  ∧ enchant_utf8_strtitle (H := IotaTables.tables) word = title
  ∧ enchant_pwl_contains (H := IotaTables.tables) pwl title = true
  ∧ (enchant_pwl_check (H := IotaTables.tables) 512 pwl None word).1 = 1.
Proof. by vm_compute. Qed.

(** ** What a removal leaves of a Branch *)



(** ** Adding the same word twice *)

Section AddTwiceReread.
Context `{UnicodeTables}.
Variable BUFSIZ : nat.

Lemma add_to_trie_same_words p q w :
  same_words p q →
  same_words (enchant_pwl_add_to_trie p w) (enchant_pwl_add_to_trie q w).
Proof.
  intros [Ht Hw]. unfold enchant_pwl_add_to_trie. rewrite Hw.
  destruct (words_in_trie q !! _); [done|].
  split; cbn [trie words_in_trie]; by rewrite ?Ht, ?Hw.
Qed.

Lemma pwl_take_lines_same_words lines ln p q :
  same_words p q →
  same_words (pwl_take_lines ln p lines) (pwl_take_lines ln q lines).
Proof.
  revert ln p q. induction lines as [|l r IH]; intros ln p q Hpq; [done|].
  cbn [pwl_take_lines]. apply IH. unfold pwl_take_line. cbv zeta.
  case_match; [by apply add_to_trie_same_words|done].
Qed.

End AddTwiceReread.


(** The conditions on the word are needed.  A word with trailing white
    space is written to the file as it is and read back without it: the
    second call, which reads the file again, leaves the stripped word in
    the list besides the word itself. *)
Example pwl_add_twice_trie_differs :
  let d := mkDisk "" 3 in
  let r1 :=
    enchant_pwl_add (H := AsciiTables.tables) 512 pwl_with_file (Some d) "a " 5 in
  let d1 := pwl_add_append (Some d) "a " 5 in
  let r2 :=
    enchant_pwl_add (H := AsciiTables.tables) 512 r1.1 (Some d1) "a " 9 in
  enchant_pwl_contains (H := AsciiTables.tables) r1.1 "a" = false
  ∧ enchant_pwl_contains (H := AsciiTables.tables) r2.1 "a" = true
  ∧ trie r2.1 ≠ trie r1.1.
Proof. by vm_compute. Qed.
(** ** The distance of concatenations *)

Section DistanceSteps.
Variables a b : list Z.

Lemma dl_spec_le_up i j :
  (1 ≤ i)%nat → dl_spec a b i j ≤ dl_spec a b (i - 1) j + 1.
Proof.
  intros Hi. destruct j as [|j].
  - rewrite !dl_spec_col0. lia.
  - rewrite (dl_spec_step a b i (S j)) by lia. cbv zeta.
    case_match; lia.
Qed.

Lemma dl_spec_le_left i j :
  (1 ≤ j)%nat → dl_spec a b i j ≤ dl_spec a b i (j - 1) + 1.
Proof.
  intros Hj. destruct i as [|i].
  - rewrite !dl_spec_row0. lia.
  - rewrite (dl_spec_step a b (S i) j) by lia. cbv zeta.
    case_match; lia.
Qed.

Lemma dl_spec_le_diag i j :
  (1 ≤ i)%nat → (1 ≤ j)%nat →
  dl_spec a b i j
  ≤ dl_spec a b (i - 1) (j - 1)
    + (if a !!! (i - 1)%nat =? b !!! (j - 1)%nat then 0 else 1).
Proof.
  intros Hi Hj. rewrite (dl_spec_step a b i j) by lia. cbv zeta.
  case_match; lia.
Qed.

Lemma dl_spec_le_swap i j :
  (2 ≤ i)%nat → (2 ≤ j)%nat →
  a !!! (i - 1)%nat = b !!! (j - 2)%nat →
  a !!! (i - 2)%nat = b !!! (j - 1)%nat →
  dl_spec a b i j
  ≤ dl_spec a b (i - 2) (j - 2)
    + (if a !!! (i - 1)%nat =? b !!! (j - 1)%nat then 0 else 1).
Proof.
  intros Hi Hj E1 E2. rewrite (dl_spec_step a b i j) by lia. cbv zeta.
  rewrite E1, E2, !Z.eqb_refl.
  rewrite !bool_decide_eq_true_2 by lia. cbn [andb]. lia.
Qed.
End DistanceSteps.

(** An entry of the table depends on the prefixes it compares only. *)
Lemma dl_spec_prefix a a' b b' n i j :
  (i + j ≤ n)%nat → take i a = take i a' → take j b = take j b' →
  dl_spec a b i j = dl_spec a' b' i j.
Proof.
  revert i j. induction n as [|n IH]; intros i j Hn Ha Hb.
  { assert (i = 0 ∧ j = 0)%nat as [-> ->] by lia. done. }
  destruct i as [|i]; [by rewrite !dl_spec_row0|].
  destruct j as [|j]; [by rewrite !dl_spec_col0|].
  assert (Hla : ∀ k, (k < S i)%nat → a !!! k = a' !!! k).
  { intros k Hk. rewrite <- (lookup_total_take_lt a (S i) k) by done.
    rewrite Ha. by rewrite lookup_total_take_lt. }
  assert (Hlb : ∀ k, (k < S j)%nat → b !!! k = b' !!! k).
  { intros k Hk. rewrite <- (lookup_total_take_lt b (S j) k) by done.
    rewrite Hb. by rewrite lookup_total_take_lt. }
  assert (Hta : ∀ k, (k ≤ S i)%nat → take k a = take k a').
  { intros k Hk. replace k with (k `min` S i)%nat by lia.
    by rewrite <- !take_take, Ha. }
  assert (Htb : ∀ k, (k ≤ S j)%nat → take k b = take k b').
  { intros k Hk. replace k with (k `min` S j)%nat by lia.
    by rewrite <- !take_take, Hb. }
  rewrite (dl_spec_step a b (S i) (S j)), (dl_spec_step a' b' (S i) (S j))
    by lia.
  cbv zeta.
  rewrite !Hla, !Hlb by lia.
  rewrite (IH (S i - 1)%nat (S j)), (IH (S i) (S j - 1)%nat),
    (IH (S i - 1)%nat (S j - 1)%nat), (IH (S i - 2)%nat (S j - 2)%nat);
    first [done | lia | apply Hta; lia | apply Htb; lia].
Qed.

(** The distance of two concatenations is at most the sum of the
    distances of their parts. *)
Lemma dl_spec_app a1 a2 b1 b2 n i j :
  (i + j ≤ n)%nat →
  dl_spec (a1 ++ a2) (b1 ++ b2) (length a1 + i) (length b1 + j)
  ≤ dl_spec a1 b1 (length a1) (length b1) + dl_spec a2 b2 i j.
Proof.
  revert i j. induction n as [|n IH]; intros i j Hn.
  { assert (i = 0 ∧ j = 0)%nat as [-> ->] by lia.
    rewrite !Nat.add_0_r. simpl dl_spec at 3.
    rewrite (dl_spec_prefix (a1 ++ a2) a1 (b1 ++ b2) b1
               (length a1 + length b1)); [lia|lia|..].
    - by rewrite take_app_length, firstn_all.
    - by rewrite take_app_length, firstn_all. }
  set (A := (a1 ++ a2)) in *. set (B := (b1 ++ b2)) in *.
  set (D := dl_spec a1 b1 (length a1) (length b1)) in *.
  assert (HlA : ∀ k, (1 ≤ k)%nat →
                     A !!! (length a1 + k - 1)%nat = a2 !!! (k - 1)%nat).
  { intros k Hk. unfold A. rewrite lookup_total_app_r by lia.
    f_equal. lia. }
  assert (HlB : ∀ k, (1 ≤ k)%nat →
                     B !!! (length b1 + k - 1)%nat = b2 !!! (k - 1)%nat).
  { intros k Hk. unfold B. rewrite lookup_total_app_r by lia.
    f_equal. lia. }
  destruct i as [|i], j as [|j].
  - apply IH. lia.
  - rewrite dl_spec_row0.
    pose proof (dl_spec_le_left A B (length a1 + 0) (length b1 + S j)
                  ltac:(lia)) as H1.
    pose proof (IH 0%nat j ltac:(lia)) as H2. rewrite dl_spec_row0 in H2.
    replace (length b1 + S j - 1)%nat with (length b1 + j)%nat in H1 by lia.
    lia.
  - rewrite dl_spec_col0.
    pose proof (dl_spec_le_up A B (length a1 + S i) (length b1 + 0)
                  ltac:(lia)) as H1.
    pose proof (IH i 0%nat ltac:(lia)) as H2. rewrite dl_spec_col0 in H2.
    replace (length a1 + S i - 1)%nat with (length a1 + i)%nat in H1 by lia.
    lia.
  - pose proof (dl_spec_le_up A B (length a1 + S i) (length b1 + S j)
                  ltac:(lia)) as Hup.
    pose proof (dl_spec_le_left A B (length a1 + S i) (length b1 + S j)
                  ltac:(lia)) as Hleft.
    pose proof (dl_spec_le_diag A B (length a1 + S i) (length b1 + S j)
                  ltac:(lia) ltac:(lia)) as Hdiag.
    rewrite (HlA (S i)), (HlB (S j)) in Hdiag by lia.
    replace (length a1 + S i - 1)%nat with (length a1 + i)%nat in * by lia.
    replace (length b1 + S j - 1)%nat with (length b1 + j)%nat in * by lia.
    pose proof (IH i (S j) ltac:(lia)) as IHup.
    pose proof (IH (S i) j ltac:(lia)) as IHleft.
    pose proof (IH i j ltac:(lia)) as IHdiag.
    rewrite (dl_spec_step a2 b2 (S i) (S j)) by lia. cbv zeta.
    replace (S i - 1)%nat with i in * by lia.
    replace (S j - 1)%nat with j in * by lia.
    destruct (bool_decide (1 < S i)%nat && bool_decide (1 < S j)%nat
              && (a2 !!! i =? b2 !!! (S j - 2)%nat)
              && (a2 !!! (S i - 2)%nat =? b2 !!! j)) eqn:Esw; [|lia].
    apply andb_prop in Esw as [Esw E4]. apply andb_prop in Esw as [Esw E3].
    apply andb_prop in Esw as [E1 E2].
    apply bool_decide_eq_true in E1, E2.
    apply Z.eqb_eq in E3, E4.
    pose proof (dl_spec_le_swap A B (length a1 + S i) (length b1 + S j)
                  ltac:(lia) ltac:(lia)) as Hsw.
    replace (length a1 + S i - 1)%nat with (length a1 + S i - 1)%nat in Hsw
      by lia.
    rewrite (HlA (S i)), (HlB (S j)) in Hsw by lia.
    replace (length a1 + S i - 2)%nat with (length a1 + i - 1)%nat in Hsw
      by lia.
    replace (length b1 + S j - 2)%nat with (length b1 + j - 1)%nat in Hsw
      by lia.
    rewrite (HlA i), (HlB j) in Hsw by lia.
    replace (S i - 1)%nat with i in Hsw by lia.
    replace (S j - 1)%nat with j in Hsw by lia.
    replace (S j - 2)%nat with (j - 1)%nat in E3 by lia.
    replace (S i - 2)%nat with (i - 1)%nat in E4 by lia.
    specialize (Hsw E3 E4).
    pose proof (IH (i - 1)%nat (j - 1)%nat ltac:(lia)) as IHsw.
    replace (length a1 + (i - 1))%nat with (length a1 + i - 1)%nat in IHsw
      by lia.
    replace (length b1 + (j - 1))%nat with (length b1 + j - 1)%nat in IHsw
      by lia.
    replace (S i - 2)%nat with (i - 1)%nat by lia.
    replace (S j - 2)%nat with (j - 1)%nat by lia.
    lia.
Qed.

(** *** On strings *)

Lemma utf8_wf_split s :
  utf8_wf s = true → CStr.at_end s = false →
  ∃ k r, s = (k ++ r)%string ∧ utf8_chunk k = true ∧ utf8_wf r = true
         ∧ k = CStr.take (utf8_next_len s) s
         ∧ r = CStr.drop (utf8_next_len s) s.
Proof.
  intros Hs E. exists (CStr.take (utf8_next_len s) s),
    (CStr.drop (utf8_next_len s) s).
  split_and!; [by rewrite cstr_take_drop|by apply utf8_wf_chunk
              |by apply utf8_wf_drop|done..].
Qed.

Lemma g_utf8_get_char_chunk_app k v :
  utf8_chunk k = true → g_utf8_get_char (k ++ v) = g_utf8_get_char k.
Proof.
  intros Hk. rewrite (g_utf8_get_char_take (k ++ v)).
  by rewrite utf8_chunk_app_take.
Qed.

Lemma cstr_at_end_app_chunk k v :
  utf8_chunk k = true → CStr.at_end (k ++ v) = false.
Proof. by destruct k. Qed.

Lemma scalars_chunk k :
  utf8_chunk k = true → g_utf8_to_ucs4_fast k = [g_utf8_get_char k].
Proof.
  intros Hk. rewrite g_utf8_to_ucs4_fast_unfold.
  rewrite (utf8_chunk_nonempty k Hk). f_equal.
  rewrite (utf8_chunk_next k Hk).
  assert (CStr.drop (CStr.len k) k = EmptyString) as ->; [|done].
  apply cstr_at_end_empty, cstr_at_end_len. rewrite cstr_len_drop. lia.
Qed.

(** The scalars of a concatenation, when the first part is made of
    complete sequences. *)
Lemma scalars_app_n n a b :
  (CStr.len a ≤ n)%nat → utf8_wf a = true →
  g_utf8_to_ucs4_fast (a ++ b)
  = g_utf8_to_ucs4_fast a ++ g_utf8_to_ucs4_fast b.
Proof.
  revert a. induction n as [|n IH]; intros a Hn Ha.
  - assert (E : CStr.at_end a = true) by (apply cstr_at_end_len; lia).
    apply cstr_at_end_empty in E as ->. done.
  - destruct (CStr.at_end a) eqn:E.
    { apply cstr_at_end_empty in E as ->. done. }
    pose proof (cstr_len_drop_next a E) as Hlt.
    destruct (utf8_wf_split a Ha E) as (k & r & Ea & Hk & Hr & _ & Er).
    rewrite Ea at 1 2. rewrite string_app_assoc.
    rewrite (g_utf8_to_ucs4_fast_unfold (k ++ (r ++ b))).
    rewrite (g_utf8_to_ucs4_fast_unfold (k ++ r)).
    rewrite !cstr_at_end_app_chunk by done.
    rewrite !g_utf8_get_char_chunk_app, !utf8_chunk_app_drop by done.
    rewrite IH; [done| |done]. subst r. lia.
Qed.

Lemma scalars_app a b :
  utf8_wf a = true →
  g_utf8_to_ucs4_fast (a ++ b)
  = g_utf8_to_ucs4_fast a ++ g_utf8_to_ucs4_fast b.
Proof. by apply (scalars_app_n (CStr.len a)). Qed.

Lemma utf8_wf_app_n n a b :
  (CStr.len a ≤ n)%nat → utf8_wf a = true → utf8_wf b = true →
  utf8_wf (a ++ b) = true.
Proof.
  revert a. induction n as [|n IH]; intros a Hn Ha Hb.
  - assert (E : CStr.at_end a = true) by (apply cstr_at_end_len; lia).
    apply cstr_at_end_empty in E as ->. done.
  - destruct (CStr.at_end a) eqn:E.
    { apply cstr_at_end_empty in E as ->. done. }
    pose proof (cstr_len_drop_next a E) as Hlt.
    destruct (utf8_wf_split a Ha E) as (k & r & Ea & Hk & Hr & _ & Er).
    rewrite Ea, string_app_assoc. apply utf8_wf_app; [done|].
    apply IH; [|done..]. subst r. lia.
Qed.

Lemma utf8_wf_app_wf a b :
  utf8_wf a = true → utf8_wf b = true → utf8_wf (a ++ b) = true.
Proof. by apply (utf8_wf_app_n (CStr.len a)). Qed.

Lemma scalars_length_n n s :
  (length (utf8_to_ucs4_n n s) ≤ n)%nat.
Proof.
  revert s. induction n as [|n IH]; intros s; simpl; [lia|].
  case_match; simpl; [lia|]. specialize (IH (CStr.drop (utf8_next_len s) s)).
  lia.
Qed.

Lemma g_utf8_strlen_le s : g_utf8_strlen s ≤ Z.of_nat (CStr.len s).
Proof.
  unfold g_utf8_strlen, g_utf8_to_ucs4_fast.
  pose proof (scalars_length_n (CStr.len s) s). lia.
Qed.

Lemma edit_dist_spec a b :
  edit_dist a b
  = dl_spec (g_utf8_to_ucs4_fast a) (g_utf8_to_ucs4_fast b)
      (length (g_utf8_to_ucs4_fast a)) (length (g_utf8_to_ucs4_fast b)).
Proof. apply edit_dist_ucs4_spec. Qed.

(** The distance of two concatenations. *)
Lemma edit_dist_app a1 a2 b1 b2 :
  utf8_wf a1 = true → utf8_wf b1 = true →
  edit_dist (a1 ++ a2) (b1 ++ b2) ≤ edit_dist a1 b1 + edit_dist a2 b2.
Proof.
  intros Ha Hb. rewrite !edit_dist_spec, !scalars_app by done.
  rewrite !length_app.
  by apply (dl_spec_app _ _ _ _ (length (g_utf8_to_ucs4_fast a2)
                                 + length (g_utf8_to_ucs4_fast b2))).
Qed.

Lemma edit_dist_le_max a b :
  edit_dist a b ≤ Z.max (g_utf8_strlen a) (g_utf8_strlen b).
Proof.
  rewrite edit_dist_spec. unfold g_utf8_strlen.
  by apply (dl_spec_bounds _ _ (length (g_utf8_to_ucs4_fast a)
                               + length (g_utf8_to_ucs4_fast b))).
Qed.

Lemma edit_dist_refl a : edit_dist a a = 0.
Proof.
  pose proof (edit_dist_nonneg a a).
  assert (edit_dist a a ≤ 0); [|lia].
  unfold edit_dist. by apply edit_dist_ucs4_zero.
Qed.

Lemma utf8_piece_wf s : utf8_piece s → utf8_wf s = true.
Proof.
  intros [->|Hs]; [done|].
  rewrite <- (string_app_nil_r s). by apply utf8_wf_app.
Qed.

Lemma utf8_piece_strlen s : utf8_piece s → g_utf8_strlen s ≤ 1.
Proof.
  intros [->|Hs]; [done|]. unfold g_utf8_strlen.
  by rewrite scalars_chunk.
Qed.

Lemma edit_dist_pieces a b :
  utf8_piece a → utf8_piece b → edit_dist a b ≤ 1.
Proof.
  intros Ha%utf8_piece_strlen Hb%utf8_piece_strlen.
  pose proof (edit_dist_le_max a b). lia.
Qed.

(** Two adjacent sequences swapped. *)
Lemma edit_dist_swap a b :
  utf8_chunk a = true → utf8_chunk b = true →
  edit_dist (b ++ a) (a ++ b) ≤ 1.
Proof.
  intros Ha Hb. rewrite edit_dist_spec.
  rewrite !scalars_app by (by apply utf8_piece_wf; right).
  rewrite !scalars_chunk by done. simpl length.
  set (x := g_utf8_get_char a). set (y := g_utf8_get_char b).
  pose proof (dl_spec_le_swap ([y] ++ [x]) ([x] ++ [y]) 2 2
                ltac:(lia) ltac:(lia) eq_refl eq_refl) as Hs.
  simpl in Hs |- *. destruct (x =? y); lia.
Qed.

(** ** The matches are near the query *)

Lemma cstr_take_ge k s : (CStr.len s ≤ k)%nat → CStr.take k s = s.
Proof.
  revert k. induction s as [|c s IH]; intros [|k] Hk; simpl; try done.
  - simpl in Hk. lia.
  - rewrite IH; [done|]. unfold CStr.len in *. simpl in Hk. lia.
Qed.

Lemma cstr_drop_ge k s : (CStr.len s ≤ k)%nat → CStr.drop k s = EmptyString.
Proof.
  intros Hk. apply cstr_at_end_empty, cstr_at_end_len.
  rewrite cstr_len_drop. lia.
Qed.

(** A complete sequence that begins like another one is that one. *)
Lemma utf8_chunk_prefix_eq key x n :
  utf8_chunk key = true → utf8_chunk x = true → CStr.take n key = x →
  key = x.
Proof.
  intros Hk Hx E.
  assert (Hh : CStr.head key = CStr.head x).
  { rewrite <- E. destruct n, key; try done. by destruct x. }
  assert (Hl : CStr.len key = CStr.len x).
  { rewrite <- (utf8_chunk_next key Hk), <- (utf8_chunk_next x Hx).
    unfold utf8_next_len. by rewrite Hh. }
  rewrite <- E. symmetry. apply cstr_take_ge.
  rewrite <- E, cstr_len_take in Hl. lia.
Qed.

Lemma get_subtrie_key `{UnicodeTables} {A} t (m : EnchantTrieMatcher A)
    s sub s' :
  enchant_trie_get_subtrie t m s = (Some sub, s') →
  s' = s ∨ s' = g_utf8_strup s.
Proof.
  unfold enchant_trie_get_subtrie.
  destruct (trie_subtries t) as [subs|]; [|done].
  destruct (mode m); destruct (HT.lookup s subs) as [x|] eqn:El;
    intros [= E1 E2]; subst; auto.
Qed.

Section WalkDistance.
Context `{UnicodeTables} {A : Type}.
Implicit Type m : EnchantTrieMatcher A.

Variable cbfunc : string → EnchantTrieMatcher A → EnchantTrieMatcher A.
Hypothesis cbfunc_keeps : ∀ s, keeps_position (cbfunc s).

(** The query, as the matcher holds it. *)
Variable W : string.
Hypothesis W_wf : utf8_wf W = true.

(** A property of the matcher that the walk's own assignments do not
    touch, and that survives a call of the callback with a match that is
    near the query, within the budget. *)
Variable I : EnchantTrieMatcher A → Prop.
Hypothesis I_num_errors : ∀ e m, I m → I (set_num_errors e m).
Hypothesis I_word_pos : ∀ p m, I m → I (set_word_pos p m).
Hypothesis I_path : ∀ p m, I m → I (set_path p m).
Hypothesis I_cbfunc :
  ∀ s m, near_up_to_case s W (num_errors m) →
         num_errors m ≤ max_errors m → I m → I (cbfunc s m).

(** The position [pos] lies between two sequences of the query, or
    behind its end. *)
Let bd (pos : nat) : Prop :=
  utf8_wf (CStr.take pos W) = true ∧ utf8_wf (CStr.drop pos W) = true.

(** The path [p] has a case variant at distance at most [e] from the
    part of the query in front of [pos]. *)
Let pre (p : string) (pos : nat) (e : Z) : Prop :=
  ∃ f, case_variant p f ∧ utf8_wf f = true
       ∧ edit_dist f (CStr.take pos W) ≤ e.

Let ready_at (w : string) (pos : nat) (p : string) (e : Z) : Prop :=
  w = W ∧ bd pos ∧ pre p pos e.

Let ready m : Prop :=
  ready_at (word m) (word_pos m) (path m) (num_errors m).

Let node_ok (t : EnchantTrie) : Prop := t = EOSTrie ∨ trie_wf t.

(** The next sequence of the query at [pos]. *)
Let nxt (pos : nat) : nat := utf8_next_len (CStr.drop pos W).
Let nx (pos : nat) : string := CStr.take (nxt pos) (CStr.drop pos W).

Lemma bd_next pos :
  bd pos →
  bd (pos + nxt pos)
  ∧ CStr.take (pos + nxt pos) W = (CStr.take pos W ++ nx pos)%string
  ∧ (if CStr.at_end (CStr.drop pos W) then nx pos = EmptyString
     else utf8_chunk (nx pos) = true).
Proof.
  intros [Ht Hd]. unfold nx, nxt.
  destruct (CStr.at_end (CStr.drop pos W)) eqn:E.
  - assert (Hlen : (CStr.len W ≤ pos)%nat).
    { apply cstr_at_end_len in E. rewrite cstr_len_drop in E. lia. }
    apply cstr_at_end_empty in E. rewrite E.
    assert (CStr.take (utf8_next_len "") "" = EmptyString) as -> by done.
    rewrite string_app_nil_r. unfold bd.
    rewrite !(cstr_take_ge _ W) by lia. rewrite (cstr_drop_ge _ W) by lia.
    rewrite cstr_take_ge in Ht by lia. done.
  - assert (Hlen : (pos < CStr.len W)%nat).
    { destruct (decide (pos < CStr.len W)%nat); [done|].
      rewrite cstr_drop_ge in E by lia. done. }
    set (rest := CStr.drop pos W) in *.
    assert (Hk : utf8_chunk (CStr.take (utf8_next_len rest) rest) = true)
      by (by apply utf8_wf_chunk).
    assert (Et : CStr.take (pos + utf8_next_len rest) W
                 = (CStr.take pos W ++ CStr.take (utf8_next_len rest) rest)%string).
    { rewrite <- (cstr_take_drop pos W) at 1. fold rest.
      rewrite <- (cstr_take_app_add (CStr.take pos W) rest).
      rewrite cstr_len_take. by replace (pos `min` CStr.len W)%nat with pos by lia. }
    split; [|done]. split.
    + rewrite Et. apply utf8_wf_app_wf; [done|]. by apply utf8_piece_wf; right.
    + rewrite cstr_drop_add. fold rest. by apply utf8_wf_drop.
Qed.

Lemma nx_piece pos : bd pos → utf8_piece (nx pos).
Proof.
  intros Hb. destruct (bd_next pos Hb) as (_ & _ & Hn).
  destruct (CStr.at_end _); [by left|by right].
Qed.

(** *** Steps of the walk *)

(** One more piece on the path, against [w'] more of the query. *)
Lemma pre_extend p pos e k fk w' pos' c :
  pre p pos e → bd pos →
  (∀ s f, case_variant s f → case_variant (s ++ k) (f ++ fk)) →
  utf8_wf fk = true →
  CStr.take pos' W = (CStr.take pos W ++ w')%string →
  edit_dist fk w' ≤ c →
  pre (p ++ k) pos' (e + c).
Proof.
  intros (f & Hcv & Hf & Hd) [Ht _] Hstep Hfk Hw Hc.
  exists (f ++ fk)%string. split_and!.
  - by apply Hstep.
  - by apply utf8_wf_app_wf.
  - rewrite Hw. pose proof (edit_dist_app f fk (CStr.take pos W) w' Hf Ht).
    lia.
Qed.

(** More of the query, the path as it is. *)
Lemma pre_skip p pos e w' pos' c :
  pre p pos e → bd pos →
  CStr.take pos' W = (CStr.take pos W ++ w')%string →
  edit_dist EmptyString w' ≤ c →
  pre p pos' (e + c).
Proof.
  intros (f & Hcv & Hf & Hd) [Ht _] Hw Hc.
  exists f. split_and!; [done..|].
  rewrite Hw. pose proof (edit_dist_app f "" (CStr.take pos W) w' Hf Ht) as Ha.
  rewrite string_app_nil_r in Ha. lia.
Qed.

(** A match: the path and a last piece, against the rest of the query. *)
Lemma near_extend p pos e v fv c :
  pre p pos e → bd pos →
  (∀ s f, case_variant s f → case_variant (s ++ v) (f ++ fv)) →
  edit_dist fv (CStr.drop pos W) ≤ c →
  near_up_to_case (p ++ v) W (e + c).
Proof.
  intros (f & Hcv & Hf & Hd) [Ht _] Hstep Hc.
  exists (f ++ fv)%string. split; [by apply Hstep|].
  rewrite <- (cstr_take_drop pos W) at 1.
  pose proof (edit_dist_app f fv (CStr.take pos W) (CStr.drop pos W) Hf Ht).
  lia.
Qed.

Lemma near_path p pos e :
  pre p pos e → bd pos →
  near_up_to_case p W (e + Z.of_nat (CStr.len W - pos)).
Proof.
  intros (f & Hcv & Hf & Hd) [Ht _].
  exists f. split; [done|].
  rewrite <- (cstr_take_drop pos W) at 1.
  pose proof (edit_dist_app f "" (CStr.take pos W) (CStr.drop pos W) Hf Ht)
    as Ha.
  rewrite string_app_nil_r in Ha.
  pose proof (edit_dist_le_max "" (CStr.drop pos W)) as Hm.
  pose proof (g_utf8_strlen_le (CStr.drop pos W)) as Hl.
  rewrite cstr_len_drop in Hl.
  change (g_utf8_strlen "") with 0 in Hm.
  assert (0 ≤ g_utf8_strlen (CStr.drop pos W))
    by (unfold g_utf8_strlen; lia).
  lia.
Qed.

Lemma child_ok subs key sub :
  trie_wf (Node None (Some subs)) → (key, sub) ∈ subs →
  utf8_piece key ∧ node_ok sub
  ∧ (is_Some (trie_subtries sub) → utf8_chunk key = true).
Proof.
  intros Hwf Hin. inversion Hwf as [| |? _ Hch]; subst.
  destruct (Hch key sub Hin) as [[-> ->]|(Hk & _ & Hs)].
  - split_and!; [by left|by left|]. by intros [? ?].
  - split_and!; [by right|by right|done].
Qed.

Lemma node_ok_subtries t subs :
  node_ok t → trie_subtries t = Some subs → trie_wf (Node None (Some subs)).
Proof.
  intros [->|Hwf] Es; [done|].
  destruct Hwf as [|v ?|subs0 ? ?]; simpl in Es; [done..|].
  injection Es as <-. by constructor.
Qed.

Lemma exact_step s f key pos :
  key = nx pos ∨ key = g_utf8_strup (nx pos) →
  case_variant s f → case_variant (s ++ key) (f ++ nx pos).
Proof. intros [->| ->] Hcv; by constructor. Qed.

Section Step.
Variable find_matches :
  option EnchantTrie → EnchantTrieMatcher A → EnchantTrieMatcher A.
Hypothesis rec_keeps : ∀ t, keeps_position (find_matches t).
Hypothesis rec_within :
  ∀ t m, node_ok t → ready m → I m → I (find_matches (Some t) m).

Lemma rec_np t m :
  num_errors (find_matches t m) = num_errors m
  ∧ path (find_matches t m) = path m.
Proof. destruct (rec_keeps t m) as (? & _ & _ & ? & _). done. Qed.

Lemma rec_word t m :
  word (find_matches t m) = word m
  ∧ word_pos (find_matches t m) = word_pos m.
Proof. destruct (rec_keeps t m) as (_ & ? & ? & _ & _). done. Qed.

Lemma within_cb subs key subtrie m :
  trie_wf (Node None (Some subs)) → (key, subtrie) ∈ subs →
  ready_at (word m) (word_pos m) (path m) (num_errors m - 1) → I m →
  I (enchant_trie_find_matches_cb find_matches key subtrie m).
Proof.
  intros Hwf Hin (HW & Hbd & Hpre) Hm.
  unfold enchant_trie_find_matches_cb.
  case_match; [done|]. cbv zeta.
  destruct (child_ok subs key subtrie Hwf Hin) as (Hkey & Hokc & Hchunk).
  set (pos := word_pos m) in Hbd, Hpre |- *.
  set (p := path m) in Hpre |- *.
  set (e := num_errors m) in Hpre |- *.
  assert (Hrest : word_rest m = CStr.drop pos W)
    by (unfold word_rest; by rewrite HW).
  rewrite Hrest. fold (nxt pos).
  destruct (bd_next pos Hbd) as (Hbd' & Htake & Hnx).
  pose proof (nx_piece pos Hbd) as Hnxp.
  (* deleting word[0] *)
  set (ma := enchant_trie_matcher_pushpath m key).
  set (mb := find_matches (Some subtrie) ma).
  assert (Ib : I mb).
  { apply rec_within; [done| |by apply I_path].
    split_and!; [done..|]. cbn [path num_errors word_pos ma
      enchant_trie_matcher_pushpath set_path].
    fold p pos e. replace e with (e - 1 + 1) by lia.
    apply (pre_extend p pos (e - 1) key key "" pos 1); try done.
    - intros s f. apply cv_same.
    - by apply utf8_piece_wf.
    - by rewrite string_app_nil_r.
    - apply edit_dist_pieces; [done|by left]. }
  destruct (rec_np (Some subtrie) ma) as [Eb Pb].
  destruct (rec_word (Some subtrie) ma) as [Wb Posb].
  fold mb in Eb, Pb, Wb, Posb.
  cbn [path num_errors word word_pos ma enchant_trie_matcher_pushpath
       set_path] in Eb, Pb, Wb, Posb.
  fold p pos e in Eb, Pb, Wb, Posb.
  (* substituting word[0] *)
  rewrite Posb.
  set (mc := find_matches (Some subtrie) (set_word_pos (pos + nxt pos) mb)).
  assert (Ic : I mc).
  { apply rec_within; [done| |by apply I_word_pos].
    split_and!; cbn [word word_pos path num_errors set_word_pos].
    - by rewrite Wb.
    - done.
    - rewrite Pb, Eb. replace e with (e - 1 + 1) by lia.
      apply (pre_extend p pos (e - 1) key key (nx pos) (pos + nxt pos) 1);
        try done.
      + intros s f. apply cv_same.
      + by apply utf8_piece_wf.
      + by apply edit_dist_pieces. }
  destruct (rec_np (Some subtrie) (set_word_pos (pos + nxt pos) mb))
    as [Ec Pc].
  destruct (rec_word (Some subtrie) (set_word_pos (pos + nxt pos) mb))
    as [Wc Posc].
  fold mc in Ec, Pc, Wc, Posc.
  cbn [path num_errors word word_pos set_word_pos] in Ec, Pc, Wc, Posc.
  rewrite Eb in Ec. rewrite Pb in Pc. rewrite Wb in Wc.
  set (md := enchant_trie_matcher_poppath mc (CStr.len key)).
  assert (Id : I md) by (by apply I_path).
  assert (Pd : path md = p).
  { unfold md. cbn [path enchant_trie_matcher_poppath set_path].
    by rewrite Pc, cstr_chop_app. }
  assert (Ed : num_errors md = e) by done.
  assert (Wd : word md = W) by (by rewrite <- HW).
  assert (Posd : word_pos md = (pos + nxt pos)%nat) by done.
  (* transposing word[0] and word[1] *)
  rewrite Wd.
  replace (pos + nxt pos - pos)%nat with (nxt pos) by lia.
  fold (nx pos).
  destruct (enchant_trie_get_subtrie subtrie md (nx pos))
    as [[subtrie2|] key2] eqn:E; [|by apply I_word_pos].
  apply I_word_pos.
  assert (Hrestd : word_rest md = CStr.drop (pos + nxt pos) W)
    by (unfold word_rest; by rewrite Wd, Posd).
  rewrite Hrestd, Posd. fold (nxt (pos + nxt pos)).
  replace (pos + nxt pos + nxt (pos + nxt pos) - (pos + nxt pos))%nat
    with (nxt (pos + nxt pos)) by lia.
  destruct (CStr.neqb key (CStr.drop (pos + nxt pos) W)
              (nxt (pos + nxt pos))) eqn:En; [|exact Id].
  pose proof (get_subtrie_key _ _ _ _ _ E) as Hkey2.
  apply get_subtrie_elem in E as (subs2 & Es & Hin2).
  pose proof (node_ok_subtries subtrie subs2 Hokc Es) as Hwf2.
  destruct (child_ok subs2 key2 subtrie2 Hwf2 Hin2) as (_ & Hokc2 & _).
  assert (Hkc : utf8_chunk key = true) by (apply Hchunk; by rewrite Es).
  (* the key is the second sequence of the query *)
  destruct (bd_next (pos + nxt pos) Hbd') as (Hbd'' & Htake' & Hnx').
  unfold CStr.neqb in En. apply bool_decide_eq_true in En.
  fold (nx (pos + nxt pos)) in En.
  assert (Hrest2 : CStr.at_end (CStr.drop (pos + nxt pos) W) = false).
  { destruct (CStr.at_end (CStr.drop (pos + nxt pos) W)) eqn:Ee; [|done].
    rewrite Hnx' in En. destruct key; [discriminate Hkc|].
    pose proof (utf8_next_len_pos (CStr.drop (pos + nxt pos) W)) as Hp.
    fold (nxt (pos + nxt pos)) in Hp.
    destruct (nxt (pos + nxt pos)); [lia|done]. }
  rewrite Hrest2 in Hnx'.
  assert (Hk2 : key = nx (pos + nxt pos)).
  { by apply (utf8_chunk_prefix_eq key _ (nxt (pos + nxt pos))). }
  assert (Hrest1 : CStr.at_end (CStr.drop pos W) = false).
  { destruct (CStr.at_end (CStr.drop pos W)) eqn:Ee; [|done].
    apply cstr_at_end_empty in Ee.
    rewrite cstr_drop_add, Ee in Hrest2. by destruct (nxt pos). }
  rewrite Hrest1 in Hnx.
  do 2 apply I_path.
  apply rec_within; [done| |by do 2 apply I_path; apply I_word_pos].
  split_and!;
    cbn [word word_pos path num_errors set_word_pos
         enchant_trie_matcher_pushpath set_path].
  - done.
  - done.
  - rewrite Pd, Ed. rewrite string_app_assoc.
    replace e with (e - 1 + 1) by lia.
    apply (pre_extend p pos (e - 1) (key ++ key2) (key ++ nx pos)
             (nx pos ++ nx (pos + nxt pos))
             (pos + nxt pos + nxt (pos + nxt pos)) 1); try done.
    + intros s f Hcv. rewrite <- !string_app_assoc.
      apply exact_step; [done|]. by apply cv_same.
    + apply utf8_wf_app_wf; by apply utf8_piece_wf; right.
    + by rewrite Htake', Htake, string_app_assoc.
    + rewrite Hk2. by apply edit_dist_swap.
Qed.

Lemma within_foreach subs l m :
  trie_wf (Node None (Some subs)) → (∀ kv, kv ∈ l → kv ∈ subs) →
  ready_at (word m) (word_pos m) (path m) (num_errors m - 1) → I m →
  I (foldl (λ m kv, enchant_trie_find_matches_cb find_matches kv.1 kv.2 m)
           m l).
Proof.
  intros Hwf. revert m. induction l as [|[k c] l IH]; intros m Hl Hr Hm;
    [done|].
  simpl. apply IH.
  - intros kv Hkv. apply Hl. by apply list_elem_of_further.
  - destruct (find_matches_cb_restores find_matches rec_np k c m) as [-> ->].
    destruct (find_matches_cb_keeps find_matches rec_word k c m) as [-> ->].
    done.
  - apply (within_cb subs); try done. apply Hl. apply list_elem_of_here.
Qed.

Lemma within_body t m :
  node_ok t → ready m → I m →
  I (find_matches_body cbfunc find_matches (Some t) m).
Proof.
  intros Hok (HW & Hbd & Hpre) Hm. unfold find_matches_body.
  case_match; [done|].
  set (pos := word_pos m) in Hbd, Hpre |- *.
  set (p := path m) in Hpre |- *.
  set (e := num_errors m) in Hpre |- *.
  assert (Hrest : word_rest m = CStr.drop pos W)
    by (unfold word_rest; by rewrite HW).
  destruct t as [|[tvalue|] subtries].
  - (* the end-of-string marker *)
    cbv zeta. apply I_num_errors.
    pose proof (near_path p pos e Hpre Hbd) as Hnear.
    rewrite HW. fold pos e.
    case_bool_decide as Hlt.
    + cbn [num_errors max_errors path set_num_errors]. fold p.
      case_match; [|by apply I_num_errors].
      apply I_cbfunc; [|by apply Z.leb_le|by apply I_num_errors].
      cbn [num_errors set_num_errors].
      by replace (e + Z.of_nat (CStr.len W) - Z.of_nat pos)
        with (e + Z.of_nat (CStr.len W - pos)) by lia.
    + fold p e. case_match; [|done].
      apply I_cbfunc; [|by apply Z.leb_le|done].
      fold e. by replace (CStr.len W - pos)%nat with 0%nat in Hnear
        by lia; rewrite Z.add_0_r in Hnear.
  - (* a value *)
    cbv zeta. apply I_num_errors. rewrite Hrest. fold e p.
    set (value := match mode m with
                  | case_sensitive => tvalue
                  | case_insensitive => g_utf8_strdown tvalue
                  end).
    cbn [num_errors max_errors path set_num_errors]. fold p.
    case_match; [|by apply I_num_errors].
    apply I_cbfunc; [|by apply Z.leb_le|by apply I_num_errors].
    cbn [num_errors set_num_errors].
    apply (near_extend p pos e tvalue value); try done.
    intros s f Hcv. unfold value. destruct (mode m); by constructor.
  - (* subtries *)
    destruct Hok as [?|Hwf]; [done|].
    cbv zeta. rewrite Hrest. fold pos (nxt pos).
    replace (pos + nxt pos - pos)%nat with (nxt pos) by lia.
    fold (nx pos).
    destruct (bd_next pos Hbd) as (Hbd' & Htake & Hnx).
    pose proof (nx_piece pos Hbd) as Hnxp.
    destruct (enchant_trie_get_subtrie _ m (nx pos)) as [subtrie nxtChS] eqn:E.
    apply I_num_errors.
    (* precisely matching the first character *)
    set (m1 := match subtrie with Some _ => _ | None => m end).
    assert (H1 : I m1 ∧ num_errors m1 = e ∧ word m1 = W
                 ∧ word_pos m1 = pos ∧ path m1 = p).
    { unfold m1. destruct subtrie as [sub|]; [|done].
      pose proof (get_subtrie_key _ _ _ _ _ E) as Hkey.
      apply get_subtrie_elem in E as (subs & Es & Hin). simpl in Es. subst subtries.
      destruct (child_ok subs nxtChS sub Hwf Hin) as (_ & Hokc & _).
      set (ma := set_word_pos (pos + nxt pos)
                   (enchant_trie_matcher_pushpath m nxtChS)).
      destruct (rec_np (Some sub) ma) as [Ea Pa].
      destruct (rec_word (Some sub) ma) as [Wa Posa].
      split_and!;
        cbn [num_errors word word_pos path set_word_pos
             enchant_trie_matcher_poppath set_path].
      - apply I_path, I_word_pos. apply rec_within; [done| |].
        + split_and!; [done..|].
          cbn [path num_errors word_pos ma set_word_pos
               enchant_trie_matcher_pushpath set_path].
          fold p e. replace e with (e + 0) by lia.
          apply (pre_extend p pos e nxtChS (nx pos) (nx pos)
                   (pos + nxt pos) 0); try done.
          * intros s f. by apply exact_step.
          * by apply utf8_piece_wf.
          * by rewrite edit_dist_refl.
        + by apply I_word_pos, I_path.
      - by rewrite Ea.
      - by rewrite Wa.
      - done.
      - rewrite Pa. cbn [path ma set_word_pos enchant_trie_matcher_pushpath
                         set_path].
        apply cstr_chop_app. }
    destruct H1 as (I1 & E1 & W1 & Pos1 & P1).
    set (m2 := set_num_errors (num_errors m1 + 1) m1).
    assert (I2 : I m2) by (by apply I_num_errors).
    assert (Hrest2 : word_rest m2 = CStr.drop pos W).
    { unfold word_rest, m2. cbn [word word_pos set_num_errors].
      by rewrite W1, Pos1. }
    rewrite Hrest2.
    (* inserting word[0] *)
    set (m3 := if CStr.at_end (CStr.drop pos W) then m2 else _).
    assert (H3 : I m3 ∧ num_errors m3 = e + 1 ∧ word m3 = W
                 ∧ word_pos m3 = pos ∧ path m3 = p).
    { unfold m3. destruct (CStr.at_end (CStr.drop pos W)) eqn:Ee.
      { split_and!; [done|..]; unfold m2;
          cbn [num_errors word word_pos path set_num_errors];
          [by rewrite E1|done..]. }
      set (ma := set_word_pos (pos + nxt pos) m2).
      destruct (rec_np (Some (Node None subtries)) ma) as [Ea Pa].
      destruct (rec_word (Some (Node None subtries)) ma) as [Wa Posa].
      split_and!; cbn [num_errors word word_pos path set_word_pos].
      - apply I_word_pos. apply rec_within; [by right| |by apply I_word_pos].
        split_and!;
          cbn [word word_pos path num_errors ma m2 set_word_pos
               set_num_errors]; [done..|].
        rewrite P1, E1.
        apply (pre_skip p pos e (nx pos) (pos + nxt pos) 1); try done.
        apply edit_dist_pieces; [by left|done].
      - rewrite Ea. unfold ma, m2.
        cbn [num_errors set_word_pos set_num_errors]. by rewrite E1.
      - by rewrite Wa.
      - exact Pos1.
      - by rewrite Pa. }
    destruct H3 as (I3 & E3 & W3 & Pos3 & P3).
    (* deleting, substituting, transposing *)
    destruct subtries as [subs|]; [|done]. simpl.
    apply (within_foreach subs); try done.
    rewrite W3, Pos3, P3, E3. split_and!; [done..|].
    by replace (e + 1 - 1) with e by lia.
Qed.
End Step.

Lemma find_matches_n_keeps_position n trie :
  keeps_position (find_matches_n cbfunc n trie).
Proof.
  intros m.
  assert (Hnp : ∀ s m, num_errors (cbfunc s m) = num_errors m
                       ∧ path (cbfunc s m) = path m).
  { intros s m'. destruct (cbfunc_keeps s m') as (? & _ & _ & ? & _). done. }
  assert (Hw : ∀ s, keeps_word (cbfunc s)).
  { intros s m'. destruct (cbfunc_keeps s m') as (_ & ? & ? & _ & _). done. }
  destruct (find_matches_n_restores cbfunc cbfunc_keeps n trie m) as [He Hp].
  destruct (find_matches_n_keeps cbfunc Hw n trie m) as [Hwo Hpos].
  split_and!; try done.
  apply (find_matches_n_invariant cbfunc (λ m', mode m' = mode m)); try done.
  intros s m' Hm' _. by destruct (cbfunc_keeps s m') as (_ & _ & _ & _ & ->).
Qed.

Lemma find_matches_n_within n t m :
  node_ok t → ready m → I m → I (find_matches_n cbfunc n (Some t) m).
Proof.
  revert t m. induction n as [|n IH]; intros t m Hok Hr Hm; [done|].
  simpl. apply within_body; try done.
  intros t'. apply find_matches_n_keeps_position.
Qed.

(** Started at the beginning of the query with an empty path, on a
    well-formed trie, the walk calls the callback only with matches that
    are near the query: [num_errors] is then at least the distance of a
    case variant of the match from the query. *)
Lemma find_matches_within root m :
  trie_wf root → word m = W → word_pos m = 0%nat → path m = EmptyString →
  0 ≤ num_errors m → I m →
  I (enchant_trie_find_matches cbfunc (Some root) m).
Proof.
  intros Hwf HW Hpos Hp He Hm. unfold enchant_trie_find_matches.
  apply find_matches_n_within; [by right| |done].
  unfold ready, ready_at. rewrite HW, Hpos, Hp. split_and!; [done| |].
  - split; [done|]. done.
  - exists EmptyString. split_and!; [constructor|done|].
    by rewrite edit_dist_refl.
Qed.
End WalkDistance.

(** ** The suggestions are near the query, up to case *)

Section SuggestDistance.
Context `{UnicodeTables}.
Variable BUFSIZ : nat.

Lemma Forall2_with_Forall_l {X Y : Type} (P : X → Prop) (R : X → Y → Prop)
    (l : list X) (k : list Y) :
  Forall P l → Forall2 R l k → Forall2 (λ a b, P a ∧ R a b) l k.
Proof.
  intros HP HR. induction HR as [|a b l k Hab HR IH]; [constructor|].
  apply Forall_cons in HP as [Ha HP]. constructor; [done|by apply IH].
Qed.

Lemma near_up_to_case_le s w e e' :
  near_up_to_case s w e → e ≤ e' → near_up_to_case s w e'.
Proof. intros (f & Hcv & Hd) Hle. exists f. split; [done|lia]. Qed.

(** What the callback keeps while the matcher walks: the bound of the
    walk does not grow, and every entry of the list is near the query. *)
Lemma suggest_cb_near W D mtch (m : EnchantTrieMatcher EnchantSuggList) :
  near_up_to_case mtch W (num_errors m) → num_errors m ≤ max_errors m →
  max_errors m ≤ D ∧ sugg_list_ok (cbdata m)
  ∧ Forall (λ s, ∃ k, s = Some k ∧ near_up_to_case k W D)
           (sugg_live_suggs (cbdata m)) →
  let m' := enchant_pwl_suggest_cb mtch m in
  max_errors m' ≤ D ∧ sugg_list_ok (cbdata m')
  ∧ Forall (λ s, ∃ k, s = Some k ∧ near_up_to_case k W D)
           (sugg_live_suggs (cbdata m')).
Proof.
  intros Hnear Hle (Hmax & Hok & Hall). cbv zeta.
  destruct (suggest_cb_cbdata mtch m Hok) as [Hok' Hem]. split_and!.
  - unfold enchant_pwl_suggest_cb.
    set (m' := if num_errors m <? max_errors m then _ else m).
    assert (max_errors m' ≤ D).
    { unfold m'. destruct (Z.ltb_spec (num_errors m) (max_errors m));
        simpl; lia. }
    by repeat case_match.
  - done.
  - destruct Hem as [->|(loc & _ & -> & _)]; [done|].
    apply Forall_app. split; [by apply Forall_take|].
    repeat constructor. exists mtch. split; [done|].
    apply (near_up_to_case_le _ _ (num_errors m)); [done|lia].
Qed.

Lemma suggest_matcher_near pwl word baseline :
  pwl_trie_wf (trie pwl) →
  utf8_wf (g_utf8_strdown (g_utf8_normalize_nfd word)) = true →
  Forall (λ s, ∃ k, s = Some k
            ∧ near_up_to_case k (g_utf8_strdown (g_utf8_normalize_nfd word))
                (suggest_max_dist baseline word))
         (sugg_live_suggs (cbdata (pwl_suggest_matcher pwl word baseline))).
Proof.
  intros Hwf HW. unfold pwl_suggest_matcher.
  set (W := g_utf8_strdown (g_utf8_normalize_nfd word)) in *.
  set (D := suggest_max_dist baseline word).
  set (I := λ m : EnchantTrieMatcher EnchantSuggList,
              max_errors m ≤ D ∧ sugg_list_ok (cbdata m)
              ∧ Forall (λ s, ∃ k, s = Some k ∧ near_up_to_case k W D)
                       (sugg_live_suggs (cbdata m))).
  assert (I0 : I (matcher_fields word D case_insensitive sugg_list_init)).
  { split_and!; [done|apply sugg_list_init_ok|constructor]. }
  destruct (trie pwl) as [root|] eqn:Et; [|apply I0].
  apply (find_matches_within enchant_pwl_suggest_cb
           enchant_pwl_suggest_cb_keeps_position W HW I
           (λ e m Hm, Hm) (λ p m Hm, Hm) (λ p m Hm, Hm)); try done.
  - intros s m Hnear Hle Hm. by apply suggest_cb_near.
  - by apply Hwf.
Qed.

End SuggestDistance.


(** *** What a case variant is when lower-casing is letter by letter *)

(** Where lower-casing goes through a concatenation, undoes upper-casing
    and changes nothing the second time, two case variants have the same
    lower-case form. *)
Section CaseVariantLower.
Context `{UnicodeTables}.
Hypothesis strdown_app :
  ∀ a b, g_utf8_strdown (a ++ b) = (g_utf8_strdown a ++ g_utf8_strdown b)%string.
Hypothesis strdown_strup : ∀ a, g_utf8_strdown (g_utf8_strup a) = g_utf8_strdown a.
Hypothesis strdown_strdown :
  ∀ a, g_utf8_strdown (g_utf8_strdown a) = g_utf8_strdown a.

Lemma case_variant_same_lower s f :
  case_variant s f → g_utf8_strdown s = g_utf8_strdown f.
Proof.
  induction 1 as [|s f c _ IH|s f c _ IH|s f v _ IH]; [done|..];
    rewrite !strdown_app, IH; [done|by rewrite strdown_strup|].
  by rewrite strdown_strdown.
Qed.
End CaseVariantLower.

Lemma ascii_map_bytes_app g (a b : string) :
  AsciiTables.map_bytes g (a ++ b)
  = (AsciiTables.map_bytes g a ++ AsciiTables.map_bytes g b)%string.
Proof. induction a as [|c a IH]; [done|]. simpl. by rewrite IH. Qed.

Lemma ascii_down_up c :
  AsciiTables.down (AsciiTables.up c) = AsciiTables.down c.
Proof. by destruct c as [[] [] [] [] [] [] [] []]. Qed.

Lemma ascii_down_down c :
  AsciiTables.down (AsciiTables.down c) = AsciiTables.down c.
Proof. by destruct c as [[] [] [] [] [] [] [] []]. Qed.

(** With the ASCII tables, a key near the query up to case has the
    lower-case form of a string that is near the query. *)
Lemma ascii_near_up_to_case k w e :
  near_up_to_case (H := AsciiTables.tables) k w e →
  ∃ f, g_utf8_strdown (UnicodeTables := AsciiTables.tables) f
       = g_utf8_strdown (UnicodeTables := AsciiTables.tables) k
       ∧ edit_dist f w ≤ e.
Proof.
  intros (f & Hcv & Hd). exists f. split; [|done]. symmetry.
  apply (case_variant_same_lower (H := AsciiTables.tables)); [| | |done].
  - apply ascii_map_bytes_app.
  - intros a. simpl. induction a as [|c a IH]; [done|].
    simpl. by rewrite ascii_down_up, IH.
  - intros a. simpl. induction a as [|c a IH]; [done|].
    simpl. by rewrite ascii_down_down, IH.
Qed.

(** *** A byte-order mark in front of an over-long first line *)

(** With a buffer of 8 bytes, the first read of the first file below is
    the byte-order mark and "abcde"; the line is too long, and the loop
    that skips its remainder tests the byte three places behind the last
    one read: it finds 'd', 'c' and 'd' where the first read left them,
    never a line feed, and so goes on to the end of the file.  The lines
    "xy" and "foo" are lost.  Without the mark they are read. *)
Example long_first_line_behind_a_mark :
  let rest := file_of_lines [""; "xy"; "foo"] in
  let marked := mkDisk (BOM_utf8 ++ "abcdefgh" ++ rest) 7 in
  let plain := mkDisk ("abcdefgh" ++ rest) 7 in
  let read d :=
    (enchant_pwl_init_with_file (H := AsciiTables.tables) 8 "pwl.dic"
       (Some d) 9).1 in
  pwl_trie_has (trie (read marked)) "xy" = false
  ∧ pwl_trie_has (trie (read marked)) "foo" = false
  ∧ pwl_trie_has (trie (read plain)) "xy" = true
  ∧ pwl_trie_has (trie (read plain)) "foo" = true.
Proof. by vm_compute. Qed.
